(** * The consistency proxy and the lazy declaration host of
      packages/monaco/src/worker.ts

    The file has two parts.  The first part embeds the program:
    - [Proxy]: the wrapper that [createLanguageService] builds around every
      function member of the language service (class [InnocentRabbit]),
      together with the declaration side table [dtsFiles];
    - [Str]: the string primitives of JavaScript the declaration host uses;
    - [Cdn]: the class [CdnDtsHost] ([readFile], [fetchFile], [getVersion],
      [resolveRequestFileName]);
    - [Host]: the language service host of [createLanguageServiceHost],
      over the side table of [Proxy];
    - [Net]: [fetchText], [fetchJson] and the listing callback of
      [createJsDelivrDtsHost].
    The second part states and proves the properties.

    JavaScript runs every piece of code between two [await]s without
    interruption.  Both embeddings therefore are transition systems whose
    steps are exactly these uninterrupted blocks; the label of a step says
    which suspended computation the event loop resumes and with which value
    the awaited promise settled. *)

From stdpp Require Import gmap list strings pretty.
From Stdlib Require Import ZArith Lia Ascii.

Open Scope Z_scope.

(* ================================================================== *)
(** * Part I: the embedding *)
(* ================================================================== *)

Module Proxy.

(** An engine instance is identified by the rank of the
    [_createLanguageService] call that returned it: 0 is the instance built
    at line 25, later ones come from line 69. *)
Definition inst := nat.
Definition callid := nat.

(** Results and errors of the engine are opaque to the proxy. *)
Definition value := nat.
Definition error := nat.

Inductive outcome :=
| Returned (r : value)
| Thrown (e : error).

(** Where one invocation of the wrapper (lines 50-96) is suspended, with the
    locals that are live there. *)
Inductive pc :=
| AwaitDirect (k : inst)            (* line 53: no dtsHost, the engine promise is returned *)
| AwaitOld                          (* line 60 *)
| AwaitOp (old : Z) (k : inst)      (* lines 61 and 80; [k] is the receiver of the call *)
| AwaitNew (old : Z) (r : value)    (* lines 62 and 81; [r] is [result] *)
| Done (o : outcome).

(** What an observer of the worker can see, newest event first in [log]. *)
Inductive event :=
| EvBegin (i : callid)
| EvRead (i : callid) (v : Z)           (* getVersion() awaited by call i gave v *)
| EvInvoke (i : callid) (k : inst)      (* languageService[api](...args) on instance k *)
| EvResult (i : callid) (r : value)     (* that engine call fulfilled with r *)
| EvFail (i : callid) (e : error)       (* that engine call threw or rejected with e *)
| EvReturn (i : callid) (r : value)     (* the wrapper's promise fulfilled with r *)
| EvThrow (i : callid) (e : error)      (* the wrapper's promise rejected with e *)
| EvSupersede (k : inst)                (* toClear.add(languageService) *)
| EvBuild (k : inst)                    (* _createLanguageService(...) returned k *)
| EvDispose (k : inst)                  (* k.dispose() *)
| EvRequest (f : string)                (* readDtsFile registered f and started readDtsFileAsync *)
| EvSettle (f : string) (text : option string).  (* dtsFiles.set(f, text) at line 207 *)

Record state := mkState {
  languageService : inst;
  dtsVersion : Z;
  runningApis : Z;
  toClear : list inst;                  (* a Set, in insertion order *)
  nextInst : inst;                      (* identity of the next instance built *)
  calls : gmap callid pc;
  dtsFiles : gmap string (option string);
  reading : list string;                (* suspended readDtsFileAsync calls *)
  log : list event
}.

(** The closure state right after [createLanguageService] has run. *)
Definition init : state :=
  {| languageService := 0%nat; dtsVersion := 0; runningApis := 0;
     toClear := []; nextInst := 1%nat; calls := ∅; dtsFiles := ∅;
     reading := []; log := [EvBuild 0%nat] |}.

Definition set_call (i : callid) (p : pc) (s : state) : state :=
  {| languageService := languageService s; dtsVersion := dtsVersion s;
     runningApis := runningApis s; toClear := toClear s;
     nextInst := nextInst s; calls := <[i := p]> (calls s);
     dtsFiles := dtsFiles s; reading := reading s; log := log s |}.

Definition emit (e : event) (s : state) : state :=
  {| languageService := languageService s; dtsVersion := dtsVersion s;
     runningApis := runningApis s; toClear := toClear s;
     nextInst := nextInst s; calls := calls s;
     dtsFiles := dtsFiles s; reading := reading s; log := e :: log s |}.

Definition set_running (n : Z) (s : state) : state :=
  {| languageService := languageService s; dtsVersion := dtsVersion s;
     runningApis := n; toClear := toClear s;
     nextInst := nextInst s; calls := calls s;
     dtsFiles := dtsFiles s; reading := reading s; log := log s |}.

(** [Set.prototype.add]. *)
Definition set_add (k : inst) (l : list inst) : list inst :=
  if bool_decide (k ∈ l) then l else l ++ [k].

(** Lines 66-79: the guarded replacement of the engine instance. *)
Definition rebuild (v : Z) (s : state) : state :=
  if bool_decide (v = dtsVersion s) then s
  else
    {| languageService := nextInst s; dtsVersion := v;
       runningApis := runningApis s;
       toClear := set_add (languageService s) (toClear s);
       nextInst := S (nextInst s); calls := calls s;
       dtsFiles := dtsFiles s; reading := reading s;
       log := EvBuild (nextInst s) :: EvSupersede (languageService s) :: log s |}.

(** Lines 66-69 when [_createLanguageService] throws: [dtsVersion] and
    [toClear] have been updated by then, [languageService] has not, and no
    instance was built. *)
Definition rebuild_fail (v : Z) (s : state) : state :=
  {| languageService := languageService s; dtsVersion := v;
     runningApis := runningApis s;
     toClear := set_add (languageService s) (toClear s);
     nextInst := nextInst s; calls := calls s;
     dtsFiles := dtsFiles s; reading := reading s;
     log := EvSupersede (languageService s) :: log s |}.

(** [languageService[api](...args)] on whatever instance is current, then
    suspension on the promise it returned. *)
Definition invoke (i : callid) (old : Z) (s : state) : state :=
  set_call i (AwaitOp old (languageService s))
    (emit (EvInvoke i (languageService s)) s).

(** Lines 88-93. *)
Definition dispose_pending (s : state) : state :=
  if bool_decide (runningApis s = 0) && negb (bool_decide (toClear s = [])) then
    {| languageService := languageService s; dtsVersion := dtsVersion s;
       runningApis := runningApis s; toClear := [];
       nextInst := nextInst s; calls := calls s;
       dtsFiles := dtsFiles s; reading := reading s;
       log := reverse (EvDispose <$> toClear s) ++ log s |}
  else s.

(** Lines 88-91 when the [dispose] of entry number [n] of [toClear] throws:
    the entries before it have been disposed, [dispose] has been called on
    entry [n], and [toClear.clear()] is not reached. *)
Definition dispose_fail (n : nat) (s : state) : state :=
  {| languageService := languageService s; dtsVersion := dtsVersion s;
     runningApis := runningApis s; toClear := toClear s;
     nextInst := nextInst s; calls := calls s;
     dtsFiles := dtsFiles s; reading := reading s;
     log := reverse (EvDispose <$> take (S n) (toClear s)) ++ log s |}.

(** Lines 84-95 when the [try] block completes normally. *)
Definition leave_ok (i : callid) (r : value) (s : state) : state :=
  set_call i (Done (Returned r))
    (emit (EvReturn i r)
      (dispose_pending (set_running (runningApis s - 1) s))).

(** Lines 84-86 when the [try] block completes abruptly: the [finally]
    clause runs and the exception leaves the function, so lines 88-95 are
    not reached. *)
Definition leave_err (i : callid) (e : error) (s : state) : state :=
  set_call i (Done (Thrown e))
    (emit (EvThrow i e) (set_running (runningApis s - 1) s)).

(** Lines 197-203, and the start of [readDtsFileAsync]. *)
Definition readDtsFile (h : bool) (f : string) (s : state) : state :=
  if negb (bool_decide (is_Some (dtsFiles s !! f))) && h then
    {| languageService := languageService s; dtsVersion := dtsVersion s;
       runningApis := runningApis s; toClear := toClear s;
       nextInst := nextInst s; calls := calls s;
       dtsFiles := <[f := None]> (dtsFiles s);
       reading := reading s ++ [f];
       log := EvRequest f :: log s |}
  else s.

(** Line 207, after the [await] of line 206. *)
Definition settleDtsFile (f : string) (text : option string) (s : state) : state :=
  {| languageService := languageService s; dtsVersion := dtsVersion s;
     runningApis := runningApis s; toClear := toClear s;
     nextInst := nextInst s; calls := calls s;
     dtsFiles := <[f := text]> (dtsFiles s);
     reading := filter (λ g, g ≠ f) (reading s);
     log := EvSettle f text :: log s |}.

Definition abandonDtsFile (f : string) (s : state) : state :=
  {| languageService := languageService s; dtsVersion := dtsVersion s;
     runningApis := runningApis s; toClear := toClear s;
     nextInst := nextInst s; calls := calls s;
     dtsFiles := dtsFiles s;
     reading := filter (λ g, g ≠ f) (reading s);
     log := log s |}.

(** What the environment (callers, the engine, the declaration host, the
    event loop) can make happen next. *)
Inductive label :=
| LCall (i : callid)                    (* a caller invokes a wrapped operation *)
| LVersion (i : callid) (v : Z)         (* the getVersion() promise of call i fulfils *)
| LVersionFail (i : callid) (e : error) (* ... rejects *)
| LResult (i : callid) (r : value)      (* the engine promise of call i fulfils *)
| LError (i : callid) (e : error)       (* the engine call of i throws or rejects *)
| LReadDts (f : string)                 (* the engine asks its host for a file that is no model *)
| LSettle (f : string) (text : option string)  (* dtsHost.readFile(f) settled with text *)
| LSettleFail (f : string)              (* dtsHost.readFile(f) rejected *)
| LBuildFail (i : callid) (v : Z) (e : error)
    (* the getVersion() promise of call i fulfils with v and
       _createLanguageService at line 69 throws e *)
| LDisposeFail (i : callid) (v : Z) (n : nat) (e : error).
    (* the getVersion() promise of call i fulfils with v and, at line 90,
       dispose() of entry number n of toClear throws e *)

(** One uninterrupted block.  [h] tells whether [options.dtsHost] is
    present; [None] means that the label is not enabled in [s]. *)
Definition step (h : bool) (s : state) (l : label) : option state :=
  match l with
  | LCall i =>
      match calls s !! i with
      | Some _ => None
      | None =>
          if h then
            Some (set_call i AwaitOld
                    (emit (EvBegin i) (set_running (runningApis s + 1) s)))
          else
            Some (set_call i (AwaitDirect (languageService s))
                    (emit (EvInvoke i (languageService s)) (emit (EvBegin i) s)))
      end
  | LVersion i v =>
      match calls s !! i with
      | Some AwaitOld => Some (invoke i v (emit (EvRead i v) s))
      | Some (AwaitNew old r) =>
          if bool_decide (v = old) then Some (leave_ok i r (emit (EvRead i v) s))
          else Some (invoke i v (rebuild v (emit (EvRead i v) s)))
      | _ => None
      end
  | LVersionFail i e =>
      match calls s !! i with
      | Some AwaitOld | Some (AwaitNew _ _) => Some (leave_err i e s)
      | _ => None
      end
  | LResult i r =>
      match calls s !! i with
      | Some (AwaitDirect _) =>
          Some (set_call i (Done (Returned r)) (emit (EvReturn i r) (emit (EvResult i r) s)))
      | Some (AwaitOp old _) =>
          Some (set_call i (AwaitNew old r) (emit (EvResult i r) s))
      | _ => None
      end
  | LError i e =>
      match calls s !! i with
      | Some (AwaitDirect _) =>
          Some (set_call i (Done (Thrown e)) (emit (EvThrow i e) (emit (EvFail i e) s)))
      | Some (AwaitOp _ _) => Some (leave_err i e (emit (EvFail i e) s))
      | _ => None
      end
  | LReadDts f => Some (readDtsFile h f s)
  | LSettle f text =>
      if bool_decide (f ∈ reading s) then Some (settleDtsFile f text s) else None
  | LSettleFail f =>
      if bool_decide (f ∈ reading s) then Some (abandonDtsFile f s) else None
  | LBuildFail i v e =>
      match calls s !! i with
      | Some (AwaitNew old r) =>
          if bool_decide (v = old) || bool_decide (v = dtsVersion s) then None
          else Some (leave_err i e (rebuild_fail v (emit (EvRead i v) s)))
      | _ => None
      end
  | LDisposeFail i v n e =>
      match calls s !! i with
      | Some (AwaitNew old r) =>
          if bool_decide (v = old) && bool_decide (runningApis s - 1 = 0)
             && bool_decide (n < length (toClear s))%nat
          then
            Some (set_call i (Done (Thrown e))
                    (emit (EvThrow i e)
                       (dispose_fail n
                          (set_running (runningApis s - 1) (emit (EvRead i v) s)))))
          else None
      | _ => None
      end
  end.

(** The labels in which the engine, not the declaration host, fails the
    wrapper. *)
Definition build_fails (l : label) : bool :=
  match l with LBuildFail _ _ _ => true | _ => false end.

Definition dispose_fails (l : label) : bool :=
  match l with LDisposeFail _ _ _ _ => true | _ => false end.

(** The version a label makes a call read. *)
Definition label_version (l : label) : option Z :=
  match l with
  | LVersion _ v | LBuildFail _ v _ | LDisposeFail _ v _ _ => Some v
  | _ => None
  end.

Fixpoint run (h : bool) (s : state) (ls : list label) : option state :=
  match ls with
  | [] => Some s
  | l :: ls' =>
      match step h s l with
      | Some s' => run h s' ls'
      | None => None
      end
  end.

(** States the worker can be in. *)
Definition reachable (h : bool) (s : state) : Prop :=
  ∃ ls, run h init ls = Some s.

(** The events of one call, and the instances disposed so far. *)
Definition event_call (e : event) : option callid :=
  match e with
  | EvBegin i | EvRead i _ | EvInvoke i _ | EvResult i _ | EvFail i _
  | EvReturn i _ | EvThrow i _ => Some i
  | _ => None
  end.

Definition hist (i : callid) (l : list event) : list event :=
  filter (λ e, event_call e = Some i) l.

Definition disposed (l : list event) : list inst :=
  omap (λ e, match e with EvDispose k => Some k | _ => None end) l.

Definition superseded (l : list event) : list inst :=
  omap (λ e, match e with EvSupersede k => Some k | _ => None end) l.

Definition is_invoke (i : callid) (e : event) : bool :=
  match e with
  | EvInvoke j _ => bool_decide (j = i)
  | _ => false
  end.

Definition invocations (i : callid) (l : list event) : nat :=
  length (filter (λ e, is_invoke i e = true) l).

Definition in_flight (p : pc) : bool :=
  match p with
  | AwaitOld | AwaitOp _ _ | AwaitNew _ _ => true
  | _ => false
  end.

(** Number of invocations of the wrapper that are between line 59 and
    line 85. *)
Definition flying (m : gmap callid pc) : nat :=
  size (filter (λ kv, in_flight kv.2 = true) m).

(** The instance most recently built according to a log. *)
Definition current_of (l : list event) : option inst :=
  head (omap (λ e, match e with EvBuild k => Some k | _ => None end) l).

(** ** Derived notions used by the properties *)

Definition label_call (l : label) : option callid :=
  match l with
  | LCall i | LVersion i _ | LVersionFail i _ | LResult i _ | LError i _
  | LBuildFail i _ _ | LDisposeFail i _ _ _ => Some i
  | _ => None
  end.

Definition weight (p : option pc) : nat :=
  match p with
  | Some q => if in_flight q then 1 else 0
  | None => 0
  end.

(** The counter counts the invocations in flight. *)
Definition count_inv (s : state) : Prop :=
  runningApis s = Z.of_nat (flying (calls s)).

(** The instances built according to a log. *)
Definition builds (l : list event) : list inst :=
  omap (λ e, match e with EvBuild k => Some k | _ => None end) l.

(** Instances, whatever the engine does: the current one is the newest,
    no instance was built twice, everything disposed or pending disposal
    was handed to [toClear.add] and is not newer than the current one, and
    every instance built is the current one, pending disposal or
    disposed. *)
Record inst_inv (s : state) : Prop := {
  ii_cur : current_of (log s) = Some (languageService s);
  ii_fresh : (languageService s < nextInst s)%nat;
  ii_old : ∀ k, k ∈ disposed (log s) ++ toClear s →
                (k ≤ languageService s)%nat ∧ k ∈ superseded (log s);
  ii_super : ∀ k, k ∈ superseded (log s) →
                  k ∈ builds (log s) ∧ (k ∈ toClear s ∨ k ∈ disposed (log s));
  ii_built : ∀ k, k ∈ builds (log s) →
                  (k < nextInst s)%nat ∧
                  (k = languageService s ∨ k ∈ toClear s ∨ k ∈ disposed (log s));
  ii_nodup : NoDup (builds (log s))
}.

(** As long as [_createLanguageService] has not thrown: everything
    disposed or pending disposal is older than the current instance. *)
Definition older (s : state) : Prop :=
  ∀ k, k ∈ disposed (log s) ++ toClear s → (k < languageService s)%nat.

(** As long as neither [_createLanguageService] nor [dispose] has thrown:
    every instance built is exactly one of the current one, one pending
    disposal and one disposed. *)
Record exact (s : state) : Prop := {
  ex_built : builds (log s) ≡ₚ languageService s :: toClear s ++ disposed (log s);
  ex_super : superseded (log s) ≡ₚ toClear s ++ disposed (log s)
}.

(** What one block does to the engine instances. *)
Inductive inst_step (l : label) (s s' : state) : Prop :=
| IKeep :
    languageService s' = languageService s → nextInst s' = nextInst s →
    toClear s' = toClear s → disposed (log s') = disposed (log s) →
    superseded (log s') = superseded (log s) → builds (log s') = builds (log s) →
    inst_step l s s'
| IReplace :
    build_fails l = false → dispose_fails l = false →
    languageService s' = nextInst s → nextInst s' = S (nextInst s) →
    toClear s' = set_add (languageService s) (toClear s) →
    disposed (log s') = disposed (log s) →
    superseded (log s') = languageService s :: superseded (log s) →
    builds (log s') = nextInst s :: builds (log s) →
    inst_step l s s'
| IReplaceFailed :
    build_fails l = true →
    languageService s' = languageService s → nextInst s' = nextInst s →
    toClear s' = set_add (languageService s) (toClear s) →
    disposed (log s') = disposed (log s) →
    superseded (log s') = languageService s :: superseded (log s) →
    builds (log s') = builds (log s) →
    inst_step l s s'
| IDispose :
    build_fails l = false → dispose_fails l = false → runningApis s' = 0 →
    languageService s' = languageService s → nextInst s' = nextInst s →
    toClear s' = [] →
    disposed (log s') = reverse (toClear s) ++ disposed (log s) →
    superseded (log s') = superseded (log s) → builds (log s') = builds (log s) →
    inst_step l s s'
| IDisposeFailed (n : nat) :
    dispose_fails l = true → runningApis s' = 0 → (n < length (toClear s))%nat →
    languageService s' = languageService s → nextInst s' = nextInst s →
    toClear s' = toClear s →
    disposed (log s') = reverse (take (S n) (toClear s)) ++ disposed (log s) →
    superseded (log s') = superseded (log s) → builds (log s') = builds (log s) →
    inst_step l s s'.

(** What the events of call [i] look like, given where it is suspended. *)
Definition pc_hist (h : bool) (i : callid) (p : pc) (hs : list event) : Prop :=
  match p with
  | AwaitDirect k => h = false ∧ hs = [EvInvoke i k; EvBegin i]
  | AwaitOld => h = true ∧ hs = [EvBegin i]
  | AwaitOp old k => h = true ∧ ∃ tl, hs = EvInvoke i k :: EvRead i old :: tl
  | AwaitNew old r =>
      h = true ∧ ∃ k tl, hs = EvResult i r :: EvInvoke i k :: EvRead i old :: tl
  | Done (Returned r) =>
      if h then
        ∃ v k tl, hs = EvReturn i r :: EvRead i v :: EvResult i r
                         :: EvInvoke i k :: EvRead i v :: tl
      else ∃ k, hs = [EvReturn i r; EvResult i r; EvInvoke i k; EvBegin i]
  | Done (Thrown e) =>
      if h then ∃ tl, hs = EvThrow i e :: tl
      else ∃ k, hs = [EvThrow i e; EvFail i e; EvInvoke i k; EvBegin i]
  end.

Definition hist_inv (h : bool) (s : state) : Prop :=
  ∀ i, match calls s !! i with
       | Some p => pc_hist h i p (hist i (log s))
       | None => hist i (log s) = []
       end.

(** Every engine call in a log went to the instance that was current then. *)
Fixpoint well_invoked (l : list event) : Prop :=
  match l with
  | [] => True
  | EvInvoke _ k :: l' => current_of l' = Some k ∧ well_invoked l'
  | _ :: l' => well_invoked l'
  end.

(** Events that can occur when there is no declaration host. *)
Definition quiet (e : event) : Prop :=
  match e with
  | EvRead _ _ | EvSupersede _ | EvDispose _ | EvRequest _ | EvSettle _ _ => False
  | EvBuild k | EvInvoke _ k => k = 0%nat
  | _ => True
  end.

Record bare_inv (s : state) : Prop := {
  bi_cur : languageService s = 0%nat;
  bi_next : nextInst s = 1%nat;
  bi_clear : toClear s = [];
  bi_run : runningApis s = 0;
  bi_ver : dtsVersion s = 0;
  bi_files : dtsFiles s = ∅;
  bi_reading : reading s = [];
  bi_quiet : Forall quiet (log s);
  bi_calls : ∀ i p, calls s !! i = Some p → in_flight p = false
}.

(** ** A declaration host that counts

    [CdnDtsHost.getVersion] answers with the number of registered files
    once all of them have settled.  [agrees] selects the schedules in which
    every version read is such an answer. *)
Definition version_ok (s : state) (l : label) : bool :=
  match l with
  | LVersion _ v | LBuildFail _ v _ | LDisposeFail _ v _ _ =>
      bool_decide (v = Z.of_nat (size (dtsFiles s))) && bool_decide (reading s = [])
  | LVersionFail _ _ | LSettleFail _ => false
  | _ => true
  end.

Fixpoint agrees (s : state) (ls : list label) : bool :=
  match ls with
  | [] => true
  | l :: ls' =>
      version_ok s l &&
      match step true s l with
      | Some s' => agrees s' ls'
      | None => false
      end
  end.

(** ** Two schedules *)

(** Two overlapping calls.  Both read version 0 and run the operation on
    instance 0; the operation makes the engine ask for a declaration file,
    which settles; both then read version 1, call 0 first. *)
Definition overlap : list label :=
  [ LCall 0%nat; LCall 1%nat; LVersion 0%nat 0; LVersion 1%nat 0;
    LReadDts "/node_modules/foo/index.d.ts";
    LResult 0%nat 10%nat; LResult 1%nat 11%nat;
    LSettle "/node_modules/foo/index.d.ts" (Some "export declare const x: number;");
    LVersion 0%nat 1 ].

(** Call 0 is slow: its operation makes the engine ask for a declaration
    file and is still running when the file settles.  Call 1 begins after
    that and completes. *)
Definition late_call : list label :=
  [ LCall 0%nat; LVersion 0%nat 0;
    LReadDts "/node_modules/foo/index.d.ts";
    LSettle "/node_modules/foo/index.d.ts" (Some "export declare const x: number;");
    LCall 1%nat; LVersion 1%nat 1; LResult 1%nat 11%nat; LVersion 1%nat 1 ].

(** The same with a failing first call instead of a slow one. *)
Definition after_failure : list label :=
  [ LCall 0%nat; LVersion 0%nat 0;
    LReadDts "/node_modules/foo/index.d.ts";
    LError 0%nat 7%nat;
    LSettle "/node_modules/foo/index.d.ts" (Some "export declare const x: number;");
    LCall 1%nat; LVersion 1%nat 1; LResult 1%nat 11%nat; LVersion 1%nat 1 ].

(** ** The two claims that the code does not satisfy as they are worded *)

(** In log [l] (newest first) instance [k] was built, later a declaration
    settled, and later still call [i] began. *)
Definition stale_for (l : list event) (i : callid) (k : inst) : Prop :=
  ∃ f text l3 l2 l1 l0,
    l = l3 ++ EvBegin i :: l2 ++ EvSettle f text :: l1 ++ EvBuild k :: l0.

(** The result a call returns comes from an execution bracketed by two
    equal version reads. *)
Definition bracketed (s : state) (i : callid) (r : value) (k : inst) : Prop :=
  ∃ v tl, hist i (log s) =
          EvReturn i r :: EvRead i v :: EvResult i r :: EvInvoke i k :: EvRead i v :: tl.

(** Freshness as worded: bracketed, and on an instance that is not older
    than the last declaration settled before the call began.  The claim is
    taken over the schedules of a counting declaration host only. *)
Definition fresh_results : Prop :=
  ∀ ls s i r,
    agrees init ls = true → run true init ls = Some s →
    calls s !! i = Some (Done (Returned r)) →
    ∃ k, bracketed s i r k ∧ ¬ stale_for (log s) i k.

(** The retry loop as worded: whenever the version just read differs from
    the one observed before, the instance is superseded and replaced before
    the operation runs again. *)
Definition always_rebuilds : Prop :=
  ∀ ls s i old r v s',
    agrees init ls = true → run true init ls = Some s →
    calls s !! i = Some (AwaitNew old r) → v ≠ old →
    step true s (LVersion i v) = Some s' →
    languageService s ∈ toClear s' ∧
    languageService s' = nextInst s ∧
    calls s' !! i = Some (AwaitOp v (languageService s')).

Definition wi_inv (s : state) : Prop := inst_inv s ∧ well_invoked (log s).

(** [overlap] continued until both calls have returned. *)
Definition overlap_done : list label :=
  overlap ++ [LVersion 1%nat 1; LResult 0%nat 20%nat; LResult 1%nat 21%nat;
              LVersion 0%nat 1; LVersion 1%nat 1].

(** The blocks that exist only with a declaration host. *)
Definition needs_host (l : label) : bool :=
  match l with
  | LVersion _ _ | LVersionFail _ _ | LSettle _ _ | LSettleFail _
  | LBuildFail _ _ _ | LDisposeFail _ _ _ _ => true
  | _ => false
  end.

(** Two calls without a declaration host: one returns, one fails. *)
Definition bare_calls : list label :=
  [ LCall 0%nat; LReadDts "/node_modules/foo/index.d.ts"; LCall 1%nat;
    LResult 0%nat 10%nat; LError 1%nat 7%nat ].

(** The engine fails the wrapper twice.  In [dispose_throws] call 0
    replaces instance 0 and, when it leaves, [dispose] throws; call 1 then
    completes.  In [factory_throws] the replacement itself throws in call 0;
    call 1 then completes. *)
Definition dispose_throws : list label :=
  [ LCall 0%nat; LVersion 0%nat 0;
    LReadDts "/node_modules/foo/index.d.ts"; LResult 0%nat 10%nat;
    LSettle "/node_modules/foo/index.d.ts" (Some "export declare const x: number;");
    LVersion 0%nat 1; LResult 0%nat 20%nat; LDisposeFail 0%nat 1 0%nat 7%nat;
    LCall 1%nat; LVersion 1%nat 1; LResult 1%nat 11%nat; LVersion 1%nat 1 ].

Definition factory_throws : list label :=
  [ LCall 0%nat; LVersion 0%nat 0;
    LReadDts "/node_modules/foo/index.d.ts"; LResult 0%nat 10%nat;
    LSettle "/node_modules/foo/index.d.ts" (Some "export declare const x: number;");
    LBuildFail 0%nat 1 7%nat;
    LCall 1%nat; LVersion 1%nat 1; LResult 1%nat 11%nat; LVersion 1%nat 1 ].

(** Disposal safety as worded: on every trace no instance is disposed
    twice, the current instance is not disposed, only superseded instances
    are, and only when the in-flight counter is zero. *)
Definition disposal_as_worded : Prop :=
  ∀ h ls s, run h init ls = Some s →
    NoDup (disposed (log s)) ∧
    (languageService s ∉ disposed (log s)) ∧
    (∀ k, k ∈ disposed (log s) → k ∈ superseded (log s)) ∧
    (∀ l s', step h s l = Some s' → disposed (log s') ≠ disposed (log s) →
             runningApis s' = 0).

(** Every version read in the schedule is [v]. *)
Definition constant_versions (v : Z) (ls : list label) : Prop :=
  ∀ l w, l ∈ ls → label_version l = Some w → w = v.

Definition stable_pc (v : Z) (i : callid) (p : pc) (hs : list event) : Prop :=
  match p with
  | AwaitDirect _ => False
  | AwaitOld => hs = [EvBegin i]
  | AwaitOp old k =>
      old = v ∧ k = 0%nat ∧ hs = [EvInvoke i 0%nat; EvRead i v; EvBegin i]
  | AwaitNew old r =>
      old = v ∧ hs = [EvResult i r; EvInvoke i 0%nat; EvRead i v; EvBegin i]
  | Done (Returned r) =>
      hs = [EvReturn i r; EvRead i v; EvResult i r; EvInvoke i 0%nat; EvRead i v;
            EvBegin i]
  | Done (Thrown e) => (invocations i hs ≤ 1)%nat
  end.

Record stable_inv (v : Z) (s : state) : Prop := {
  st_cur : languageService s = 0%nat;
  st_clear : toClear s = [];
  st_ver : dtsVersion s = 0;
  st_built : builds (log s) = [0%nat];
  st_disposed : disposed (log s) = [];
  st_calls : ∀ i, match calls s !! i with
                  | Some p => stable_pc v i p (hist i (log s))
                  | None => hist i (log s) = []
                  end
}.

(** Two overlapping calls in a world that stays at version 5. *)
Definition steady : list label :=
  [ LCall 0%nat; LCall 1%nat; LVersion 0%nat 5; LVersion 1%nat 5;
    LResult 1%nat 11%nat; LResult 0%nat 10%nat; LVersion 0%nat 5; LVersion 1%nat 5 ].

(** The files [readDtsFile] has asked the host for, and the values
    [readDtsFileAsync] has stored, newest first. *)
Definition requests (l : list event) : list string :=
  omap (λ e, match e with EvRequest f => Some f | _ => None end) l.

Definition settles (l : list event) : list (string * option string) :=
  omap (λ e, match e with EvSettle f t => Some (f, t) | _ => None end) l.

Record dts_inv (s : state) : Prop := {
  dt_nodup : NoDup (requests (log s));
  dt_dom : ∀ f, f ∈ requests (log s) ↔ is_Some (dtsFiles s !! f);
  dt_reading : NoDup (reading s);
  dt_pending : ∀ f, f ∈ reading s →
                 dtsFiles s !! f = Some None ∧ f ∉ (settles (log s)).*1;
  dt_once : NoDup (settles (log s)).*1;
  dt_set : ∀ f t, (f, t) ∈ settles (log s) → dtsFiles s !! f = Some t ∧ f ∉ reading s;
  dt_text : ∀ f t, dtsFiles s !! f = Some (Some t) → (f, Some t) ∈ settles (log s)
}.

End Proxy.

Module Str.
Local Open Scope nat_scope.

(** JavaScript strings are sequences of UTF-16 code units; the embedding
    uses [string], sequences of 8-bit characters.  All strings the host
    builds itself are ASCII, where the two coincide; a text that comes from
    outside is held as its UTF-8 encoding. *)

(** [s.startsWith(p)] *)
Fixpoint startsWith (s p : string) {struct p} : bool :=
  match p, s with
  | EmptyString, _ => true
  | String c p', String d s' => Ascii.eqb c d && startsWith s' p'
  | String _ _, EmptyString => false
  end.

(** [s.slice(n)] for [0 <= n] *)
Fixpoint slice (n : nat) (s : string) : string :=
  match n, s with
  | O, _ => s
  | S n', String _ s' => slice n' s'
  | S _, EmptyString => EmptyString
  end.

(** [s.endsWith(suf)] *)
Definition endsWith (s suf : string) : bool :=
  (String.length suf <=? String.length s)%nat &&
  String.eqb (slice (String.length s - String.length suf) s) suf.

(** [s.split(sep)] for a separator of one character: the first segment and
    the others. *)
Fixpoint split1 (sep : ascii) (s : string) : string * list string :=
  match s with
  | EmptyString => (EmptyString, [])
  | String c s' =>
      let '(a, r) := split1 sep s' in
      if Ascii.eqb c sep then (EmptyString, a :: r) else (String c a, r)
  end.

Definition split (sep : ascii) (s : string) : list string :=
  let '(a, r) := split1 sep s in a :: r.

(** The first occurrence of [pat] in [s]: what precedes and what follows. *)
Fixpoint find (pat s : string) : option (string * string) :=
  if startsWith s pat then Some (EmptyString, slice (String.length pat) s)
  else
    match s with
    | EmptyString => None
    | String c s' =>
        match find pat s' with
        | Some (b, a) => Some (String c b, a)
        | None => None
        end
    end.

(** [s.indexOf(pat) >= 0] *)
Definition contains (s pat : string) : bool :=
  match find pat s with Some _ => true | None => false end.

(** GetSubstitution of ECMAScript for a pattern that is a string: there
    are no captures, so [$1] ... [$99] and [$<] stand for themselves. *)
Fixpoint getSubstitution (matched before after rep : string) : string :=
  match rep with
  | EmptyString => EmptyString
  | String c rest =>
      if Ascii.eqb c "$" then
        match rest with
        | String d rest' =>
            if Ascii.eqb d "$" then String "$" (getSubstitution matched before after rest')
            else if Ascii.eqb d "&" then matched +:+ getSubstitution matched before after rest'
            else if Ascii.eqb d "`" then before +:+ getSubstitution matched before after rest'
            else if Ascii.eqb d "'" then after +:+ getSubstitution matched before after rest'
            else String c (getSubstitution matched before after rest)
        | EmptyString => String c EmptyString
        end
      else String c (getSubstitution matched before after rest)
  end.

(** [s.replace(pat, rep)] for a pattern that is a string: the first
    occurrence only. *)
Definition replace (s pat rep : string) : string :=
  match find pat s with
  | Some (b, a) => b +:+ getSubstitution pat b a rep +:+ a
  | None => s
  end.

(** [c] does not occur in [s]. *)
Fixpoint free_of (c : ascii) (s : string) : bool :=
  match s with
  | EmptyString => true
  | String d s' => negb (Ascii.eqb d c) && free_of c s'
  end.

(** [s.length], the number of UTF-16 code units of the text that [s]
    encodes: a byte below 128 and the first byte of a sequence of two or
    three bytes stand for one code unit, the first byte of a sequence of
    four bytes for two (a surrogate pair), a continuation byte for none. *)
Definition units (c : ascii) : nat :=
  let n := nat_of_ascii c in
  if n <? 128 then 1 else if n <? 192 then 0 else if n <? 240 then 1 else 2.

Fixpoint length16 (s : string) : nat :=
  match s with
  | EmptyString => 0
  | String c s' => units c + length16 s'
  end.

(** [String(x)] for [x : string | undefined], as in ['/' + x]. *)
Definition ofUndefined (x : option string) : string :=
  match x with Some s => s | None => "undefined" end.

(** Truthiness of a [string | undefined]. *)
Definition truthy (x : option string) : bool :=
  match x with
  | Some EmptyString | None => false
  | Some _ => true
  end.

End Str.

Module Cdn.
Import Str.
Local Open Scope nat_scope.

(** ** Data *)

Abbreviation pid := nat (only parsing).

Inductive error :=
| SyntaxError             (* thrown by JSON.parse *)
| TypeError               (* a property read on null or undefined *)
| Foreign (n : nat).      (* a rejection of the flat callback *)

Inductive value :=
| VText (t : option string)     (* string | undefined *)
| VList (l : list string)       (* string[] *)
| VNum (n : nat).

Inductive pstate :=
| Pending
| Fulfilled (v : value)
| Rejected (e : error).

(** Which call created a promise. *)
Inductive origin :=
| OFetchFile (fileName : string)            (* this.fetchFile(fileName) *)
| OFetchText (self : nat) (fileName url : string)
    (* fetchText(url) at line 340, in the invocation of fetchFile(fileName)
       whose own promise is [self] *)
| OFlat (pkg : string)                       (* this.flat(pkg, this.versions[pkg]) *)
| OGetVersion.                              (* this.getVersion() *)

(** What [JSON.parse] makes of a text, as far as lines 315-316 look at it:
    it throws, it returns [null], or it returns a value whose [types] and
    [typings] properties are truthy or not. *)
Inductive parsed :=
| ParseError
| PNull
| PValue (types typings : bool).

(** The constructor arguments (line 261), and [JSON.parse]. *)
Record host := mkHost {
  cdn : string;
  versions : list (string * string);    (* in the order of Object.entries *)
  hasFlat : bool;
  JSON_parse : string → parsed
}.

(** Where a suspended [fetchFile] or [getVersion] continues. *)
Inductive cont :=
| KManifest (fileName pkgName originalPkgName : string)   (* line 313 *)
| KIndex (fileName pkgName originalPkgName : string)      (* line 319 *)
| KFlat (fileName pkgName : string)                       (* line 330 *)
| KText (fileName : string)                               (* line 340 *)
| KDrain (newFileSize : nat).                             (* line 271 *)

Record state := mkState {
  files : list (string * pid);          (* a Map, in insertion order *)
  flatResult : list (string * pid);     (* a Map, in insertion order *)
  lastUpdateFilesSize : nat;
  promises : list (origin * pstate);    (* promise p is entry number p *)
  tasks : gmap pid (list pid * cont);   (* own promise ↦ awaited promises, continuation *)
  returned : list nat                   (* values getVersion has returned, newest first *)
}.

Definition init : state :=
  {| files := []; flatResult := []; lastUpdateFilesSize := 0;
     promises := []; tasks := ∅; returned := [] |}.

(** ** Maps with insertion order *)

Fixpoint map_get {A} (k : string) (m : list (string * A)) : option A :=
  match m with
  | [] => None
  | (k', v) :: m' => if String.eqb k' k then Some v else map_get k m'
  end.

Fixpoint map_set {A} (k : string) (v : A) (m : list (string * A)) : list (string * A) :=
  match m with
  | [] => [(k, v)]
  | (k', v') :: m' =>
      if String.eqb k' k then (k', v) :: m' else (k', v') :: map_set k v m'
  end.

(** ** Pure parts of [CdnDtsHost] *)

(** Lines 343-351. *)
Fixpoint resolveRequestFileName (entries : list (string * string)) (fileName : string) : string :=
  match entries with
  | [] => fileName
  | (key, version) :: rest =>
      if startsWith fileName ("/node_modules/" +:+ key +:+ "/") then
        replace fileName ("/node_modules/" +:+ key +:+ "/")
                ("/node_modules/" +:+ key +:+ "@" +:+ version +:+ "/")
      else resolveRequestFileName rest fileName
  end.

(** Lines 337-338. *)
Definition requestUrl (H : host) (fileName : string) : string :=
  cdn H +:+ slice (String.length "/node_modules/")
                  (resolveRequestFileName (versions H) fileName).

(** Lines 280-284. *)
Definition eligible (fileName : string) : bool :=
  startsWith fileName "/node_modules/" &&
  (endsWith fileName ".d.ts" || endsWith fileName "/package.json").

(** Lines 295-298; [None] when [fileName.split('/')[2]] is undefined, so
    that line 296 throws. *)
Definition pkgNameOf (fileName : string) : option string :=
  let segs := split "/" fileName in
  match segs !! 2%nat with
  | Some seg2 =>
      if startsWith seg2 "@" then Some (seg2 +:+ "/" +:+ ofUndefined (segs !! 3%nat))
      else Some seg2
  | None => None
  end.

(** Lines 309-312. *)
Definition originalOf (pkgName : string) : string :=
  let originalPkgName := slice (String.length "@types/") pkgName in
  if contains originalPkgName "__" then "@" +:+ replace originalPkgName "__" "/"
  else originalPkgName.

Definition manifestOf (originalPkgName : string) : string :=
  "/node_modules/" +:+ originalPkgName +:+ "/package.json".

Definition indexOf (originalPkgName : string) : string :=
  "/node_modules/" +:+ originalPkgName +:+ "/index.d.ts".

(** ** The promise store and the suspended computations *)

Definition set_promises (ps : list (origin * pstate)) (s : state) : state :=
  {| files := files s; flatResult := flatResult s;
     lastUpdateFilesSize := lastUpdateFilesSize s;
     promises := ps; tasks := tasks s; returned := returned s |}.

Definition set_files (fs : list (string * pid)) (s : state) : state :=
  {| files := fs; flatResult := flatResult s;
     lastUpdateFilesSize := lastUpdateFilesSize s;
     promises := promises s; tasks := tasks s; returned := returned s |}.

Definition set_flatResult (fr : list (string * pid)) (s : state) : state :=
  {| files := files s; flatResult := fr;
     lastUpdateFilesSize := lastUpdateFilesSize s;
     promises := promises s; tasks := tasks s; returned := returned s |}.

Definition set_last (n : nat) (s : state) : state :=
  {| files := files s; flatResult := flatResult s;
     lastUpdateFilesSize := n;
     promises := promises s; tasks := tasks s; returned := returned s |}.

Definition set_tasks (ts : gmap pid (list pid * cont)) (s : state) : state :=
  {| files := files s; flatResult := flatResult s;
     lastUpdateFilesSize := lastUpdateFilesSize s;
     promises := promises s; tasks := ts; returned := returned s |}.

Definition push_returned (n : nat) (s : state) : state :=
  {| files := files s; flatResult := flatResult s;
     lastUpdateFilesSize := lastUpdateFilesSize s;
     promises := promises s; tasks := tasks s; returned := n :: returned s |}.

(** A call that returns a new pending promise. *)
Definition alloc (o : origin) (s : state) : state * pid :=
  (set_promises (promises s ++ [(o, Pending)]) s, length (promises s)).

(** Promise [p] settles. *)
Definition settle (p : pid) (r : pstate) (s : state) : state :=
  set_promises (alter (λ e, (e.1, r)) p (promises s)) s.

(** The computation owning promise [self] suspends at [k], awaiting [ws]. *)
Definition suspend (self : pid) (ws : list pid) (k : cont) (s : state) : state :=
  set_tasks (<[self := (ws, k)]> (tasks s)) s.

Definition state_of (s : state) (p : pid) : pstate :=
  match promises s !! p with
  | Some (_, r) => r
  | None => Pending
  end.

(** [await x] for [x] a promise or [undefined]. *)
Definition wait_on (r : option pid) : list pid :=
  match r with Some p => [p] | None => [] end.

(** The values of the awaited promises, if all are fulfilled. *)
Definition all_fulfilled (s : state) (ws : list pid) : option (list value) :=
  mapM (λ p, match state_of s p with Fulfilled v => Some v | _ => None end) ws.

(** The value an [await] of a [string | undefined] delivers. *)
Definition text_of (vs : list value) : option (option string) :=
  match vs with
  | [] => Some None
  | [VText t] => Some t
  | _ => None
  end.

(** ** [fetchFile], block by block *)

(** Lines 337-340 up to the [await]. *)
Definition fetch_stage (H : host) (self : pid) (fileName : string) (s : state) : state :=
  let '(s1, p) := alloc (OFetchText self fileName (requestUrl H fileName)) s in
  suspend self [p] (KText fileName) s1.

(** Lines 326-330 up to the [await].  [flat] is taken to return its
    promise, as an async function does (the callback of
    [createJsDelivrDtsHost] is one). *)
Definition flat_stage (H : host) (self : pid) (fileName pkgName : string) (s : state) : state :=
  let '(s1, p) :=
    match map_get pkgName (flatResult s) with
    | Some p => (s, p)
    | None =>
        let '(s1, p) := alloc (OFlat pkgName) s in
        (set_flatResult (map_set pkgName p (flatResult s1)) s1, p)
    end in
  suspend self [p] (KFlat fileName pkgName) s1.

(** Lines 279-291, for a given way [fetch] to run [this.fetchFile] up to
    its first suspension. *)
Definition readFile_with (fetch : state → string → option (state * pid))
    (s : state) (fileName : string) : option (state * option pid) :=
  if eligible fileName then
    match map_get fileName (files s) with
    | Some _ => Some (s, map_get fileName (files s))
    | None =>
        match fetch s fileName with
        | Some (s1, p) =>
            let s2 := set_files (map_set fileName p (files s1)) s1 in
            Some (s2, map_get fileName (files s2))
        | None => None
        end
    end
  else Some (s, None).

(** Lines 293-313 and 326-340: [fetchFile] from its call to its first
    suspension or its return.  The call at line 313 re-enters [readFile]
    and through it [fetchFile]; [n] bounds the depth of that nesting. *)
Fixpoint fetchFile_go (H : host) (n : nat) (s : state) (fileName : string)
    : option (state * pid) :=
  match n with
  | O => None
  | S n' =>
      let '(s0, self) := alloc (OFetchFile fileName) s in
      if hasFlat H then
        match pkgNameOf fileName with
        | None => Some (settle self (Rejected TypeError) s0, self)
        | Some pkgName =>
            if endsWith pkgName ".d.ts" || endsWith pkgName "/node_modules" then
              Some (settle self (Fulfilled (VText None)) s0, self)
            else if startsWith pkgName "@typescript/"
                    || startsWith pkgName "@types/typescript__" then
              Some (settle self (Fulfilled (VText None)) s0, self)
            else if startsWith pkgName "@types/" then
              let originalPkgName := originalOf pkgName in
              match readFile_with (fetchFile_go H n') s0 (manifestOf originalPkgName) with
              | Some (s1, r) =>
                  Some (suspend self (wait_on r)
                          (KManifest fileName pkgName originalPkgName) s1, self)
              | None => None
              end
            else Some (flat_stage H self fileName pkgName s0, self)
        end
      else Some (fetch_stage H self fileName s0, self)
  end.

(** A bound on the nesting of [fetchFile] started from [fileName]: the
    nested call is for the manifest of the package named by the segment
    after [@types]; it nests again only if that segment was [@types]
    itself or began with [types__]. *)
Definition nesting (fileName : string) : nat :=
  match pkgNameOf fileName with
  | Some pkgName =>
      if startsWith pkgName "@types/" then
        let seg := slice (String.length "@types/") pkgName in
        S (2 * String.length seg + (if String.eqb seg "@types" then 13 else 0))
      else 0
  | None => 0
  end.

Definition fetchFile (H : host) (s : state) (fileName : string) : option (state * pid) :=
  fetchFile_go H (S (nesting fileName)) s fileName.

Definition readFile (H : host) (s : state) (fileName : string) : option (state * option pid) :=
  readFile_with (fetchFile H) s fileName.

(** Lines 268-277 from the loop test to the next suspension or the return. *)
Definition getVersion_loop (self : pid) (s : state) : state :=
  if bool_decide (length (files s) ≠ lastUpdateFilesSize s) then
    suspend self (files s).*2 (KDrain (length (files s))) s
  else
    push_returned (length (files s))
      (settle self (Fulfilled (VNum (length (files s)))) s).

(** The continuation [k] of the computation owning [self] runs with the
    values [vs] of the promises it awaited, up to the next suspension or
    the return. *)
Definition resume (H : host) (self : pid) (k : cont) (vs : list value) (s : state)
    : option state :=
  match k with
  | KManifest fileName pkgName originalPkgName =>
      match text_of vs with
      | Some packageJson =>
          if truthy packageJson then
            match JSON_parse H (ofUndefined packageJson) with
            | ParseError => Some (settle self (Rejected SyntaxError) s)
            | PNull => Some (settle self (Rejected TypeError) s)
            | PValue types typings =>
                if types || typings then Some (settle self (Fulfilled (VText None)) s)
                else
                  match readFile H s (indexOf originalPkgName) with
                  | Some (s1, r) =>
                      Some (suspend self (wait_on r)
                              (KIndex fileName pkgName originalPkgName) s1)
                  | None => None
                  end
            end
          else Some (flat_stage H self fileName pkgName s)
      | None => None
      end
  | KIndex fileName pkgName originalPkgName =>
      match text_of vs with
      | Some indexDts =>
          if truthy indexDts then Some (settle self (Fulfilled (VText None)) s)
          else Some (flat_stage H self fileName pkgName s)
      | None => None
      end
  | KFlat fileName pkgName =>
      match vs with
      | [VList flat] =>
          if bool_decide (slice (String.length ("/node_modules/" +:+ pkgName)) fileName ∈ flat)
          then Some (fetch_stage H self fileName s)
          else Some (settle self (Fulfilled (VText None)) s)
      | _ => None
      end
  | KText fileName =>
      match vs with
      | [VText t] => Some (settle self (Fulfilled (VText t)) s)
      | _ => None
      end
  | KDrain newFileSize =>
      Some (getVersion_loop self
              (if bool_decide (lastUpdateFilesSize s < newFileSize)%nat
               then set_last newFileSize s else s))
  end.

(** ** The transition system *)

Inductive label :=
| LRead (fileName : string)             (* a client calls readFile(fileName) *)
| LGetVersion                           (* a client calls getVersion() *)
| LFetched (p : pid) (text : option string)   (* fetchText settles: a text, or undefined *)
| LListed (p : pid) (l : list string)   (* the flat callback's promise fulfils *)
| LListFail (p : pid) (e : nat)         (* ... rejects *)
| LResume (self : pid)                  (* all promises awaited by [self] are fulfilled *)
| LThrow (self : pid) (p : pid).
    (* the await of [self] throws the reason of the rejected promise [p],
       one of those it awaits; where several of them are rejected
       JavaScript takes the one rejected first, the label leaves it open *)

Definition step (H : host) (s : state) (l : label) : option state :=
  match l with
  | LRead fileName => fst <$> readFile H s fileName
  | LGetVersion =>
      let '(s0, self) := alloc OGetVersion s in Some (getVersion_loop self s0)
  | LFetched p text =>
      match promises s !! p with
      | Some (OFetchText _ _ _, Pending) => Some (settle p (Fulfilled (VText text)) s)
      | _ => None
      end
  | LListed p l =>
      match promises s !! p with
      | Some (OFlat _, Pending) => Some (settle p (Fulfilled (VList l)) s)
      | _ => None
      end
  | LListFail p e =>
      match promises s !! p with
      | Some (OFlat _, Pending) => Some (settle p (Rejected (Foreign e)) s)
      | _ => None
      end
  | LResume self =>
      match tasks s !! self with
      | Some (ws, k) =>
          match all_fulfilled s ws with
          | Some vs => resume H self k vs (set_tasks (delete self (tasks s)) s)
          | None => None
          end
      | None => None
      end
  | LThrow self p =>
      match tasks s !! self with
      | Some (ws, k) =>
          if bool_decide (p ∈ ws) then
            match state_of s p with
            | Rejected e =>
                Some (settle self (Rejected e) (set_tasks (delete self (tasks s)) s))
            | _ => None
            end
          else None
      | None => None
      end
  end.

Fixpoint run (H : host) (s : state) (ls : list label) : option state :=
  match ls with
  | [] => Some s
  | l :: ls' =>
      match step H s l with
      | Some s' => run H s' ls'
      | None => None
      end
  end.

(** ** A sample host

    [sample_parse] agrees with [JSON.parse] on the four texts it knows and
    is used only to run examples. *)

Definition dq : string := String (ascii_of_nat 34) EmptyString.

Definition typed_manifest : string :=
  "{" +:+ dq +:+ "types" +:+ dq +:+ ": " +:+ dq +:+ "index.d.ts" +:+ dq +:+ "}".

Definition sample_parse (t : string) : parsed :=
  if String.eqb t typed_manifest then PValue true false
  else if String.eqb t "{}" then PValue false false
  else if String.eqb t "null" then PNull
  else ParseError.

Definition jsdelivr (flat : bool) : host :=
  mkHost "https://cdn.jsdelivr.net/npm/" [("lodash", "4.17.21")] flat sample_parse.

(** ** Relations between states, and invariants

    [ext]: promises settle once, [files] only grows at its end. *)

Record ext (s s' : state) : Prop := {
  ext_files : ∃ fs, files s' = files s ++ fs;
  ext_last : lastUpdateFilesSize s ≤ lastUpdateFilesSize s';
  ext_prom : ∀ p o r, promises s !! p = Some (o, r) →
               ∃ r', promises s' !! p = Some (o, r') ∧ (r ≠ Pending → r' = r);
  ext_ret : ∃ new, returned s' = new ++ returned s
}.

Definition korigin (k : cont) : origin :=
  match k with
  | KManifest f _ _ | KIndex f _ _ | KFlat f _ | KText f => OFetchFile f
  | KDrain _ => OGetVersion
  end.

Definition new_task (H : host) (s' : state) (self : pid) (ws : list pid) (k : cont) : Prop :=
  promises s' !! self = Some (korigin k, Pending) ∧
  match k with
  | KManifest f pkg orig =>
      hasFlat H = true ∧ pkgNameOf f = Some pkg ∧ startsWith pkg "@types/" = true ∧
      orig = originalOf pkg ∧
      ∃ m, map_get (manifestOf orig) (files s') = Some m ∧ ws = [m]
  | KFlat f pkg =>
      hasFlat H = true ∧ pkgNameOf f = Some pkg ∧ startsWith pkg "@types/" = false
  | KText f => hasFlat H = false ∧ ws = [S self]
  | _ => False
  end.

Definition new_promise (H : host) (base : nat) (pend : option (string * pid))
    (s' : state) (p : pid) (o : origin) (r : pstate) : Prop :=
  match o with
  | OFetchFile f =>
      (map_get f (files s') = Some p ∨ pend = Some (f, p)) ∧
      (r = Pending ∧ is_Some (tasks s' !! p)
       ∨ r = Fulfilled (VText None)
       ∨ r = Rejected TypeError ∧ hasFlat H = true ∧ pkgNameOf f = None)
  | OFetchText self f u =>
      r = Pending ∧ hasFlat H = false ∧ p = S self ∧ base ≤ self ∧
      tasks s' !! self = Some ([p], KText f) ∧ u = requestUrl H f
  | OFlat _ => r = Pending
  | OGetVersion => False
  end.

Record grows (H : host) (bound : nat) (pend : option (string * pid))
    (s s' : state) : Prop := {
  gr_ext : ext s s';
  gr_files : ∃ fs, files s' = files s ++ fs ∧ ∀ g, g ∈ fs.*1 → nesting g < bound;
  gr_last : lastUpdateFilesSize s' = lastUpdateFilesSize s;
  gr_ret : returned s' = returned s;
  gr_old_proms : ∀ p, p < length (promises s) → promises s' !! p = promises s !! p;
  gr_old_tasks : ∀ self, self < length (promises s) → tasks s' !! self = tasks s !! self;
  gr_new_tasks : ∀ self ws k, length (promises s) ≤ self →
                   tasks s' !! self = Some (ws, k) → new_task H s' self ws k;
  gr_new_proms : ∀ p o r, length (promises s) ≤ p →
                   promises s' !! p = Some (o, r) →
                   new_promise H (length (promises s)) pend s' p o r
}.

Definition fresh (s : state) : Prop :=
  ∀ self, length (promises s) ≤ self → tasks s !! self = None.

Definition fetch_spec (H : host) (fetch : state → string → option (state * pid)) : Prop :=
  ∀ s f s1 p, fresh s → map_get f (files s) = None → fetch s f = Some (s1, p) →
    p = length (promises s) ∧ grows H (nesting f) (Some (f, p)) s s1.

Record wfA (H : host) (own : option pid) (s : state) : Prop := {
  a_task : ∀ self ws k, tasks s !! self = Some (ws, k) →
             promises s !! self = Some (korigin k, Pending) ∧ own ≠ Some self;
  a_owned : ∀ p f, promises s !! p = Some (OFetchFile f, Pending) →
              is_Some (tasks s !! p) ∨ own = Some p;
  a_reg : ∀ p f r, promises s !! p = Some (OFetchFile f, r) →
            map_get f (files s) = Some p;
  a_text : ∀ q self f u r, promises s !! q = Some (OFetchText self f u, r) →
             u = requestUrl H f ∧
             (∃ r', promises s !! self = Some (OFetchFile f, r')) ∧
             (state_of s self = Pending → tasks s !! self = Some ([q], KText f));
  a_uniq : ∀ q q' self f u r f' u' r',
             promises s !! q = Some (OFetchText self f u, r) →
             promises s !! q' = Some (OFetchText self f' u', r') → q = q';
  a_own : ∀ p, own = Some p → p < length (promises s)
}.

Definition not_text (k : cont) : Prop := ∀ f, k ≠ KText f.

Definition env_origin (o : origin) : Prop :=
  match o with OFetchText _ _ _ | OFlat _ => True | _ => False end.

Record quiet (s s' : state) : Prop := {
  q_ext : ext s s';
  q_last : lastUpdateFilesSize s' = lastUpdateFilesSize s;
  q_ret : returned s' = returned s;
  q_drain : ∀ self ws n, tasks s' !! self = Some (ws, KDrain n) →
              tasks s !! self = Some (ws, KDrain n)
}.

Definition drains (s : state) (l : label) : Prop :=
  match l with
  | LGetVersion => True
  | LResume self => ∃ ws n, tasks s !! self = Some (ws, KDrain n)
  | _ => False
  end.

Record wfB (s : state) : Prop := {
  b_drained : ∀ i, i < lastUpdateFilesSize s →
                ∃ f p v, files s !! i = Some (f, p) ∧ state_of s p = Fulfilled v;
  b_drain : ∀ self ws n, tasks s !! self = Some (ws, KDrain n) →
              ws = (take n (files s)).*2 ∧ n ≤ length (files s);
  b_returned : ∀ m, m ∈ returned s → m ≤ length (files s);
  b_sorted : ∀ i j m n, returned s !! i = Some m → returned s !! j = Some n →
               i ≤ j → n ≤ m
}.

(** ** What the redundancy check of [fetchFile] has seen

    [index_clear]: the await at line 319 threw or delivered a falsy value. *)

Definition index_clear (s : state) (orig : string) : Prop :=
  ∃ x, map_get (indexOf orig) (files s) = Some x ∧
       match state_of s x with
       | Rejected _ => True
       | Fulfilled (VText t) => truthy t = false
       | _ => False
       end.

(** The await at line 313 threw or delivered a falsy value, or lines
    315-316 threw, or neither field was truthy and [index_clear]. *)
Definition manifest_clear (H : host) (s : state) (orig : string) : Prop :=
  ∃ m, map_get (manifestOf orig) (files s) = Some m ∧
       match state_of s m with
       | Rejected _ => True
       | Fulfilled (VText t) =>
           truthy t = false ∨
           match JSON_parse H (ofUndefined t) with
           | PValue ty tg => ty || tg = false ∧ index_clear s orig
           | _ => True
           end
       | _ => False
       end.

(** With a listing callback, a [fetchFile(f)] for a shim's file gets past
    line 324 only with [manifest_clear]. *)
Definition evidence (H : host) (s : state) (f : string) : Prop :=
  hasFlat H = true →
  ∀ pkg, pkgNameOf f = Some pkg → startsWith pkg "@types/" = true →
         manifest_clear H s (originalOf pkg).

(** The opposite: the state shows that the original package of the shim
    file [f] ships its own types. *)
Definition redundant (H : host) (s : state) (f : string) : Prop :=
  hasFlat H = true ∧
  ∃ pkg m text ty tg,
    pkgNameOf f = Some pkg ∧ startsWith pkg "@types/" = true ∧
    map_get (manifestOf (originalOf pkg)) (files s) = Some m ∧
    state_of s m = Fulfilled (VText (Some text)) ∧ text ≠ "" ∧
    JSON_parse H text = PValue ty tg ∧
    (ty || tg = true ∨
     ∃ x t, map_get (indexOf (originalOf pkg)) (files s) = Some x ∧
            state_of s x = Fulfilled (VText (Some t)) ∧ t ≠ "").

(** What must hold of a suspended computation and of a promise. *)
Definition task_ok (H : host) (s : state) (ws : list pid) (k : cont) : Prop :=
  match k with
  | KManifest f pkg orig =>
      hasFlat H = true ∧ pkgNameOf f = Some pkg ∧ startsWith pkg "@types/" = true ∧
      orig = originalOf pkg ∧
      ∃ m, map_get (manifestOf orig) (files s) = Some m ∧ ws = [m]
  | KIndex f pkg orig =>
      hasFlat H = true ∧ pkgNameOf f = Some pkg ∧ startsWith pkg "@types/" = true ∧
      orig = originalOf pkg ∧
      (∃ m text ty tg, map_get (manifestOf orig) (files s) = Some m ∧
                 state_of s m = Fulfilled (VText (Some text)) ∧ text ≠ "" ∧
                 JSON_parse H text = PValue ty tg ∧ ty || tg = false) ∧
      ∃ x, map_get (indexOf orig) (files s) = Some x ∧ ws = [x]
  | KFlat f _ | KText f => evidence H s f
  | KDrain _ => True
  end.

Definition promise_ok (H : host) (s : state) (o : origin) (r : pstate) : Prop :=
  match o with
  | OFetchFile f => r = Pending ∨ r = Fulfilled (VText None) ∨ evidence H s f
  | OFetchText _ f _ => evidence H s f
  | _ => True
  end.

Record wfC (H : host) (s : state) : Prop := {
  c_task : ∀ self ws k, tasks s !! self = Some (ws, k) → task_ok H s ws k;
  c_prom : ∀ p o r, promises s !! p = Some (o, r) → promise_ok H s o r
}.

(** Promises keep their origin. *)
Definition keeps (s s' : state) : Prop :=
  ∀ p o r, promises s !! p = Some (o, r) → ∃ r', promises s' !! p = Some (o, r').

(** Every entry of [files] is the promise of its own [fetchFile]. *)
Definition files_point (s : state) : Prop :=
  ∀ f p, (f, p) ∈ files s → ∃ r, promises s !! p = Some (OFetchFile f, r).

Definition fetch_point (fetch : state → string → option (state * pid)) : Prop :=
  ∀ s f s1 p, files_point s → fetch s f = Some (s1, p) →
    files_point s1 ∧ keeps s s1 ∧ ∃ r, promises s1 !! p = Some (OFetchFile f, r).

(** A request for [f] itself has been issued at line 340. *)
Definition fetched (s : state) (f : string) : Prop :=
  ∃ q self u r, promises s !! q = Some (OFetchText self f u, r).

(** The cache knows that package [orig] has its own types: its manifest
    has a truthy [types] or [typings], or its [index.d.ts] has a text. *)
Definition ships_types (H : host) (s : state) (orig : string) : Prop :=
  (∃ m text ty tg, map_get (manifestOf orig) (files s) = Some m ∧
     state_of s m = Fulfilled (VText (Some text)) ∧
     JSON_parse H text = PValue ty tg ∧ ty || tg = true)
  ∨ (∃ x t, map_get (indexOf orig) (files s) = Some x ∧
     state_of s x = Fulfilled (VText (Some t)) ∧ t ≠ "").

(** The law for any package with own types: a first read of a file of its
    shim, made once the cache knows, never requests that file and never
    delivers a text. *)
Definition shim_never_fetched (H : host) : Prop :=
  ∀ ls s f pkg ls' s',
    run H init ls = Some s →
    pkgNameOf f = Some pkg → startsWith pkg "@types/" = true →
    ships_types H s (originalOf pkg) →
    map_get f (files s) = None →
    run H s (LRead f :: ls') = Some s' →
    ¬ fetched s' f ∧
    (∀ p v, map_get f (files s') = Some p → state_of s' p = Fulfilled v → v = VText None).

(** ** Sample schedules *)

Definition shim_file : string := "/node_modules/@types/foo/index.d.ts".

(** Without a listing callback: the manifest of [foo] arrives and declares
    [types]. *)
Definition manifest_known : list label :=
  [LRead "/node_modules/foo/package.json"; LFetched 1 (Some typed_manifest); LResume 0].

(** With the listing callback: the same. *)
Definition types_known : list label :=
  [LRead "/node_modules/foo/package.json"; LListed 1 ["/package.json"; "/index.d.ts"];
   LResume 0; LFetched 2 (Some typed_manifest); LResume 0].

(** With the listing callback: [index.d.ts] of [foo] arrives. *)
Definition index_known : list label :=
  [LRead "/node_modules/foo/index.d.ts"; LListed 1 ["/package.json"; "/index.d.ts"];
   LResume 0; LFetched 2 (Some "export {};"); LResume 0].

(** After a read of [shim_file] in the state [index_known] leads to: the
    request for the manifest of [foo] fails, the shim's listing arrives. *)
Definition manifest_lost : list label :=
  [LResume 4; LFetched 5 None; LResume 4; LResume 3; LListed 6 ["/index.d.ts"]; LResume 3].

(** What lines 315-316 throw. *)
Definition parse_error (r : parsed) : option error :=
  match r with
  | ParseError => Some SyntaxError
  | PNull => Some TypeError
  | PValue _ _ => None
  end.

(** Some entry of [files] is a rejected promise. *)
Definition poisoned (s : state) : Prop :=
  ∃ i f p e, files s !! i = Some (f, p) ∧ state_of s p = Rejected e.

(** From [s] to [s'], [getVersion] has returned nothing. *)
Record silent (s s' : state) : Prop := {
  si_ret : returned s' = returned s;
  si_prom : ∀ g v, promises s' !! g = Some (OGetVersion, Fulfilled v) →
              promises s !! g = Some (OGetVersion, Fulfilled v)
}.

(** The manifest of [foo] arrives as an unfinished text, then a file of
    the shim is read. *)
Definition malformed_known : list label :=
  [LRead "/node_modules/foo/package.json"; LListed 1 ["/package.json"; "/index.d.ts"];
   LResume 0; LFetched 2 (Some "{"); LResume 0; LRead shim_file].

(** A request is issued only by a [fetchFile] that has not settled. *)
Definition born (s s' : state) : Prop :=
  ∀ q owner f u r, promises s' !! q = Some (OFetchText owner f u, r) →
    (∃ r0, promises s !! q = Some (OFetchText owner f u, r0)) ∨ state_of s owner = Pending.

Definition lodash_manifest : string := "/node_modules/lodash/package.json".

(** The pin rewrite as worded: whenever the pin map has an entry for a
    package, the URL of a path under that package is [cdn] followed by
    [pkg@version] and the rest of the path. *)
Definition pin_rewrites : Prop :=
  ∀ H pkg ver rest, map_get pkg (versions H) = Some ver →
    requestUrl H ("/node_modules/" +:+ pkg +:+ "/" +:+ rest)
    = cdn H +:+ pkg +:+ "@" +:+ ver +:+ "/" +:+ rest.

(** A pin whose version holds a replacement pattern of
    [String.prototype.replace], and a pin map in which the directory of an
    earlier key begins the paths of a later one. *)
Definition dollar_pin : host :=
  mkHost "https://cdn.jsdelivr.net/npm/" [("lodash", "1$&")] false sample_parse.

Definition nested_pins : host :=
  mkHost "https://cdn.jsdelivr.net/npm/" [("@babel", "7"); ("@babel/core", "7.24.0")]
         false sample_parse.

(** Two reads of one file before anything settles. *)
Definition read_twice : list label := [LRead lodash_manifest; LRead lodash_manifest].

(** Two calls of [getVersion], each draining one read. *)
Definition two_versions : list label :=
  [LRead lodash_manifest; LGetVersion; LFetched 1 (Some "{}"); LResume 0; LResume 2;
   LRead "/node_modules/lodash/index.d.ts"; LGetVersion; LFetched 4 None; LResume 3;
   LResume 5].

(** Lines 299-305: the package names [fetchFile] answers at once. *)
Definition invalid (pkgName : string) : bool :=
  (endsWith pkgName ".d.ts" || endsWith pkgName "/node_modules") ||
  (startsWith pkgName "@typescript/" || startsWith pkgName "@types/typescript__").

(** Line 331: the listing of [f]'s package has arrived and includes [f]. *)
Definition listed (s : state) (f : string) : Prop :=
  ∃ pkg q l, pkgNameOf f = Some pkg ∧ map_get pkg (flatResult s) = Some q ∧
    state_of s q = Fulfilled (VList l) ∧
    slice (String.length ("/node_modules/" +:+ pkg)) f ∈ l.

Definition task_shape (H : host) (s : state) (self : pid) (ws : list pid) (k : cont) : Prop :=
  match k with
  | KManifest f pkg _ | KIndex f pkg _ => invalid pkg = false
  | KFlat f pkg =>
      pkgNameOf f = Some pkg ∧ invalid pkg = false ∧
      ∃ q, ws = [q] ∧ map_get pkg (flatResult s) = Some q
  | KText f => ∃ q u r, ws = [q] ∧ promises s !! q = Some (OFetchText self f u, r)
  | KDrain _ => True
  end.

Definition promise_shape (H : host) (s : state) (p : pid) (o : origin) (r : pstate) : Prop :=
  match o with
  | OFetchFile f =>
      (∀ t, r = Fulfilled (VText (Some t)) →
         ∃ q u, promises s !! q = Some (OFetchText p f u, Fulfilled (VText (Some t)))) ∧
      (∀ v, r = Fulfilled v → ∃ t, v = VText t) ∧
      (hasFlat H = true → ∀ pkg, pkgNameOf f = Some pkg → invalid pkg = true →
         r = Fulfilled (VText None))
  | OFetchText self f u =>
      (r = Pending ∨ ∃ t, r = Fulfilled (VText t)) ∧ (hasFlat H = true → listed s f)
  | OFlat pkg =>
      hasFlat H = true ∧ map_get pkg (flatResult s) = Some p ∧ invalid pkg = false
  | OGetVersion => True
  end.

Record wfD (H : host) (s : state) : Prop := {
  d_elig : ∀ f p, (f, p) ∈ files s → eligible f = true;
  d_back : ∀ pkg q, map_get pkg (flatResult s) = Some q →
             ∃ r, promises s !! q = Some (OFlat pkg, r);
  d_task : ∀ self ws k, tasks s !! self = Some (ws, k) → task_shape H s self ws k;
  d_prom : ∀ p o r, promises s !! p = Some (o, r) → promise_shape H s p o r
}.

(** The entries of [flatResult] stay. *)
Definition ext_flat (s s' : state) : Prop :=
  ∀ pkg q, map_get pkg (flatResult s) = Some q → map_get pkg (flatResult s') = Some q.

Definition fetch_D (H : host) (fetch : state → string → option (state * pid)) : Prop :=
  ∀ s f s1 p, wfD H s → fetch s f = Some (s1, p) → wfD H s1.

(** Two files of one package are read. *)
Definition same_package : list label :=
  [LRead "/node_modules/foo/package.json"; LRead "/node_modules/foo/index.d.ts"].

(** No promise is rejected. *)
Definition unrejected (s : state) : Prop :=
  ∀ p o r, promises s !! p = Some (o, r) → r = Pending ∨ ∃ v, r = Fulfilled v.

(** The listing of [foo] fails while [index.d.ts] of [foo] waits for it. *)
Definition listing_fails : list label :=
  [LRead "/node_modules/foo/index.d.ts"; LListFail 1 7; LThrow 0 1].

End Cdn.

Module Host.
Import Str.
Local Open Scope Z_scope.

(** ** The language service host (lines 101-195)

    A mirror model is a mutable object of the editor: [mid] is the identity
    of the object, which is what the [Map] and the [WeakMap] of the host
    compare; the other fields are what the object answers at the moment of
    a call.  [getMirrorModels()] is the environment's: every function takes
    the list it returns. *)
Record model := mkModel {
  mid : nat;
  fsPath : string;      (* model.uri.fsPath *)
  version : Z;          (* model.version *)
  getValue : string     (* model.getValue() *)
}.

(** The snapshot objects of lines 146-150 and 158-162 are closures over one
    string.  [getText] and [getLength] count positions in the characters of
    the embedding, which are the code units for ASCII text. *)
Record snapshot := mkSnapshot { text : string }.

Definition clamp (len : nat) (x : Z) : nat :=
  Z.to_nat (Z.min (Z.max x 0) (Z.of_nat len)).

(** [s.substring(a, b)] for integers [a] and [b]. *)
Definition substring (s : string) (a b : Z) : string :=
  let a' := clamp (String.length s) a in
  let b' := clamp (String.length s) b in
  String.substring (Nat.min a' b') (Nat.max a' b' - Nat.min a' b') s.

Definition getText (sn : snapshot) (start stop : Z) : string :=
  substring (text sn) start stop.

Definition getLength (sn : snapshot) : Z := Z.of_nat (String.length (text sn)).

(** The variables of [createLanguageServiceHost], and in [px] those of
    [createLanguageService] that [readDtsFile] uses. *)
Record state := mkState {
  projectVersion : Z;
  modelVersions : gmap nat Z;                 (* Map<IMirrorModel, number> *)
  modelSnapshot : gmap nat (Z * snapshot);    (* WeakMap<IMirrorModel, [number, snapshot]> *)
  dtsFileSnapshot : gmap string snapshot;
  px : Proxy.state
}.

Definition init : state :=
  {| projectVersion := 0; modelVersions := ∅; modelSnapshot := ∅;
     dtsFileSnapshot := ∅; px := Proxy.init |}.

Definition set_px (p : Proxy.state) (st : state) : state :=
  {| projectVersion := projectVersion st; modelVersions := modelVersions st;
     modelSnapshot := modelSnapshot st; dtsFileSnapshot := dtsFileSnapshot st;
     px := p |}.

(** [models.find(model => model.uri.fsPath === fileName)] *)
Definition find_model (fileName : string) (models : list model) : option model :=
  List.find (λ m, String.eqb (fsPath m) fileName) models.

(** Lines 117-119. *)
Definition record_versions (models : list model) : gmap nat Z :=
  foldl (λ acc m, <[mid m := version m]> acc) ∅ models.

(** Lines 111-112. *)
Definition up_to_date (models : list model) (st : state) : bool :=
  bool_decide (size (modelVersions st) = length models) &&
  forallb (λ m, bool_decide (modelVersions st !! mid m = Some (version m))) models.

(** Lines 109-122. *)
Definition getProjectVersion (models : list model) (st : state) : state * string :=
  if up_to_date models st then (st, pretty (projectVersion st))
  else
    ({| projectVersion := projectVersion st + 1;
        modelVersions := record_versions models;
        modelSnapshot := modelSnapshot st; dtsFileSnapshot := dtsFileSnapshot st;
        px := px st |},
     pretty (projectVersion st + 1)).

(** Lines 123-126. *)
Definition getScriptFileNames (models : list model) : list string :=
  fsPath <$> models.

(** Lines 197-203 with the value they return. *)
Definition readDtsFile (h : bool) (fileName : string) (st : state)
    : state * option string :=
  let p := Proxy.readDtsFile h fileName (px st) in
  (set_px p st, mjoin (Proxy.dtsFiles p !! fileName)).

(** Lines 127-137. *)
Definition getScriptVersion (h : bool) (models : list model) (fileName : string)
    (st : state) : state * string :=
  match find_model fileName models with
  | Some m => (st, pretty (version m))
  | None =>
      let '(st1, dts) := readDtsFile h fileName st in
      (st1, if truthy dts
            then pretty (Z.of_nat (length16 (ofUndefined dts)))
            else "")
  end.

(** Lines 138-165. *)
Definition getScriptSnapshot (h : bool) (models : list model) (fileName : string)
    (st : state) : state * option snapshot :=
  match find_model fileName models with
  | Some m =>
      let fresh :=
        ({| projectVersion := projectVersion st; modelVersions := modelVersions st;
            modelSnapshot :=
              <[mid m := (version m, mkSnapshot (getValue m))]> (modelSnapshot st);
            dtsFileSnapshot := dtsFileSnapshot st; px := px st |},
         Some (mkSnapshot (getValue m))) in
      match modelSnapshot st !! mid m with
      | Some (v, sn) => if bool_decide (v = version m) then (st, Some sn) else fresh
      | None => fresh
      end
  | None =>
      match dtsFileSnapshot st !! fileName with
      | Some sn => (st, Some sn)
      | None =>
          let '(st1, dtsFileText) := readDtsFile h fileName st in
          match dtsFileText with
          | Some t =>
              ({| projectVersion := projectVersion st1;
                  modelVersions := modelVersions st1;
                  modelSnapshot := modelSnapshot st1;
                  dtsFileSnapshot := <[fileName := mkSnapshot t]> (dtsFileSnapshot st1);
                  px := px st1 |},
               Some (mkSnapshot t))
          | None => (st1, None)
          end
      end
  end.

(** Lines 172-177; [lib] is what [ts.getDefaultLibFileName(options)]
    answers, [None] when no TypeScript module was given. *)
Definition getDefaultLibFileName (lib : option string) : string :=
  match lib with
  | Some name => "/node_modules/typescript/lib/" +:+ name
  | None => ""
  end.

(** Lines 178-184. *)
Definition readFile (h : bool) (models : list model) (fileName : string)
    (st : state) : state * option string :=
  match find_model fileName models with
  | Some m => (st, Some (getValue m))
  | None => readDtsFile h fileName st
  end.

(** Lines 185-191. *)
Definition fileExists (h : bool) (models : list model) (fileName : string)
    (st : state) : state * bool :=
  match find_model fileName models with
  | Some m => (st, true)
  | None =>
      let '(st1, dts) := readDtsFile h fileName st in
      (st1, bool_decide (is_Some dts))
  end.

(** What can happen to the host: the engine calls one of its functions
    while the editor has the models [models], or the worker takes a step of
    its own. *)
Inductive label :=
| HProject (models : list model)
| HVersion (models : list model) (fileName : string)
| HSnapshot (models : list model) (fileName : string)
| HRead (models : list model) (fileName : string)
| HExists (models : list model) (fileName : string)
| HWorker (l : Proxy.label).

Definition step (h : bool) (st : state) (l : label) : option state :=
  match l with
  | HProject models => Some (getProjectVersion models st).1
  | HVersion models f => Some (getScriptVersion h models f st).1
  | HSnapshot models f => Some (getScriptSnapshot h models f st).1
  | HRead models f => Some (readFile h models f st).1
  | HExists models f => Some (fileExists h models f st).1
  | HWorker l => (λ p, set_px p st) <$> Proxy.step h (px st) l
  end.

Fixpoint run (h : bool) (st : state) (ls : list label) : option state :=
  match ls with
  | [] => Some st
  | l :: ls' =>
      match step h st l with
      | Some st' => run h st' ls'
      | None => None
      end
  end.

(** The cached declaration snapshots agree with the side table. *)
Definition coherent (st : state) : Prop :=
  ∀ f sn, dtsFileSnapshot st !! f = Some sn →
          Proxy.dtsFiles (px st) !! f = Some (Some (text sn)).

(** Two models, and the same editor after an edit of the first. *)
Definition two_models : list model :=
  [mkModel 0 "/a.ts" 1 "let a"; mkModel 1 "/b.ts" 1 "let b"].

Definition two_models_edited : list model :=
  [mkModel 0 "/a.ts" 2 "let a = 1"; mkModel 1 "/b.ts" 1 "let b"].

(** A declaration host that pins two packages. *)
Definition two_pins : Cdn.host :=
  Cdn.mkHost "https://cdn.jsdelivr.net/npm/"
    [("lodash", "4.17.21"); ("typescript", "5.4.5")] true Cdn.sample_parse.

(** The UTF-8 encoding of the one character U+4E2D. *)
Definition one_cjk : string :=
  String (ascii_of_nat 228) (String (ascii_of_nat 184) (String (ascii_of_nat 173) "")).

(** The engine asks for the snapshot of a declaration before and after the
    text has arrived. *)
Definition snapshot_asked_twice : list label :=
  [HSnapshot [] "/node_modules/foo/index.d.ts";
   HWorker (Proxy.LSettle "/node_modules/foo/index.d.ts" (Some "export {};"));
   HSnapshot [] "/node_modules/foo/index.d.ts"].

End Host.

Module Net.
Import Str.

(** ** [fetchText], [fetchJson] and the listing callback of jsDelivr
       (lines 220-248 and 354-374) *)

(** What [fetch(url)] and the reading of the body come to: [fetch] rejects,
    or there is a response with a status whose body can be read ([Some])
    or cannot ([None]: [res.text()] or [res.json()] rejects). *)
Inductive response (B : Type) :=
| Failed
| Status (code : Z) (body : option B).
Arguments Failed {B}.
Arguments Status {B} code body.

(** Lines 354-363 and 365-374: the two functions differ in the kind of
    body only. *)
Definition fetchBody {B} (r : response B) : option B :=
  match r with
  | Failed => None
  | Status code body => if (code =? 200)%Z then body else None
  end.

(** An element of the array [files]: [null] or [undefined], on which
    [file.name] throws, or any other value, with its property [name] when
    that is a string. *)
Inductive entry :=
| ENull
| EValue (name : option string).

(** A JSON value as far as lines 230-244 look at it: a falsy value, or a
    truthy one with
    - [version]: the text that [data.version] contributes to the URL of
      line 239, when [data.version] is truthy;
    - [files]: the elements of [flat.files], when that is an array (on
      anything else [flat.files.map] throws). *)
Inductive json :=
| JFalsy
| JObject (version : option string) (files : option (list entry)).

Definition fetchJson (r : response json) : option json := fetchBody r.
Definition fetchText (r : response string) : option string := fetchBody r.

Definition resolveUrl (pkg : string) : string :=
  "https://data.jsdelivr.com/v1/package/resolve/npm/" +:+ pkg +:+ "@latest".

Definition flatUrl (pkg version : string) : string :=
  "https://data.jsdelivr.com/v1/package/npm/" +:+ pkg +:+ "@" +:+ version +:+ "/flat".

(** How the promise of the callback settles: with the array of line 244,
    whose elements are the names (those that are strings), or with the
    TypeError of that line. *)
Inductive outcome :=
| Returned (files : list (option string))
| Threw.

(** [data?.version], when truthy. *)
Definition version_of (data : option json) : option string :=
  match data with
  | Some (JObject v _) => v
  | _ => None
  end.

(** [files.map(file => file.name)]: [None] when it throws. *)
Definition names (files : list entry) : option (list (option string)) :=
  mapM (λ e, match e with ENull => None | EValue n => Some n end) files.

(** Lines 227-245.  [net] is what the network answers for a URL; the result
    is the list of URLs requested, in order, and the outcome. *)
Definition jsdelivr_flat (net : string → response json) (pkg : string)
    (version : option string) : list string * outcome :=
  let '(asked, resolved) :=
    if truthy version then ([], version)
    else ([resolveUrl pkg], version_of (fetchJson (net (resolveUrl pkg)))) in
  match resolved with
  | Some v =>
      (asked ++ [flatUrl pkg v],
       match fetchJson (net (flatUrl pkg v)) with
       | Some (JObject _ (Some files)) =>
           match names files with
           | Some l => Returned l
           | None => Threw
           end
       | Some (JObject _ None) => Threw
       | _ => Returned []
       end)
  | None => (asked, Returned [])
  end.

(** How [CdnDtsHost] sees the outcome: [includes] at line 331 compares with
    a string, which only the elements that are strings can equal. *)
Definition settled (o : outcome) : Cdn.pstate :=
  match o with
  | Returned l => Cdn.Fulfilled (Cdn.VList (omap id l))
  | Threw => Cdn.Rejected Cdn.TypeError
  end.

(** A network on which only [lodash] at version 4.17.21 is known. *)
Definition lodash_net (url : string) : response json :=
  if String.eqb url (resolveUrl "lodash") then Status 200 (Some (JObject (Some "4.17.21") None))
  else if String.eqb url (flatUrl "lodash" "4.17.21") then
    Status 200 (Some (JObject None
                        (Some [EValue (Some "/package.json"); EValue (Some "/lodash.js")])))
  else Status 404 None.


End Net.

(* ================================================================== *)
(** * Part II: properties *)
(* ================================================================== *)

Module ProxyFacts.
Import Proxy.

(** ** Bookkeeping on logs *)

Lemma hist_cons_eq i e l :
  event_call e = Some i → hist i (e :: l) = e :: hist i l.
Proof. intros H. unfold hist. rewrite filter_cons, decide_True; done. Qed.

Lemma hist_cons_ne i e l :
  event_call e ≠ Some i → hist i (e :: l) = hist i l.
Proof. intros H. unfold hist. rewrite filter_cons, decide_False; done. Qed.

Lemma hist_app i l1 l2 : hist i (l1 ++ l2) = hist i l1 ++ hist i l2.
Proof. apply filter_app. Qed.

Lemma omap_dispose {B} (g : event → option B) (tc : list inst) :
  (∀ k, g (EvDispose k) = None) → omap g (reverse (EvDispose <$> tc)) = [].
Proof.
  intros Hg. induction tc as [|k tc IH]; [done|].
  rewrite fmap_cons, reverse_cons, omap_app, IH. simpl. by rewrite Hg.
Qed.

Lemma hist_dispose i tc : hist i (reverse (EvDispose <$> tc)) = [].
Proof.
  unfold hist. induction tc as [|k tc IH]; [done|].
  rewrite fmap_cons, reverse_cons, filter_app, IH. simpl.
  rewrite filter_cons, decide_False; done.
Qed.

Lemma disposed_dispose tc : disposed (reverse (EvDispose <$> tc)) = reverse tc.
Proof.
  unfold disposed. induction tc as [|k tc IH]; [done|].
  rewrite fmap_cons, !reverse_cons, omap_app, IH. done.
Qed.

Lemma invocations_cons i e l :
  invocations i (e :: l) =
  ((if is_invoke i e then 1 else 0) + invocations i l)%nat.
Proof.
  unfold invocations. rewrite filter_cons.
  destruct (is_invoke i e) eqn:He.
  - rewrite decide_True by done. done.
  - rewrite decide_False by congruence. done.
Qed.

(** ** Runs *)

Lemma run_app h s ls1 ls2 :
  run h s (ls1 ++ ls2) = run h s ls1 ≫= λ s', run h s' ls2.
Proof.
  revert s. induction ls1 as [|l ls1 IH]; intros s; simpl; [done|].
  destruct (step h s l); simpl; [apply IH|done].
Qed.

Lemma run_invariant h (P : state → Prop) :
  (∀ s l s', P s → step h s l = Some s' → P s') →
  ∀ ls s s', P s → run h s ls = Some s' → P s'.
Proof.
  intros Hstep ls. induction ls as [|l ls IH]; intros s s' HP Hrun; simpl in Hrun.
  - by simplify_eq.
  - destruct (step h s l) as [s1|] eqn:H1; [|done]. eauto.
Qed.

(** ** The bookkeeping of the in-flight counter *)

Lemma flying_insert m i p :
  (flying (<[i := p]> m) + weight (m !! i) = flying m + weight (Some p))%nat.
Proof.
  unfold flying, weight. rewrite map_filter_insert.
  destruct (decide _) as [Hp|Hp]; simpl in Hp.
  - rewrite Hp, map_size_insert, map_lookup_filter.
    destruct (m !! i) as [q|] eqn:Hq; simpl; [|lia].
    destruct (in_flight q) eqn:Hf.
    + rewrite option_guard_True by done. simpl. done.
    + rewrite option_guard_False by (simpl; congruence). simpl. lia.
  - apply not_true_is_false in Hp.
    rewrite Hp, map_filter_delete, map_size_delete, map_lookup_filter.
    destruct (m !! i) as [q|] eqn:Hq; simpl; [|lia].
    destruct (in_flight q) eqn:Hf.
    + rewrite option_guard_True by done. simpl.
      assert (size (filter (λ kv : callid * pc, in_flight kv.2 = true) m) ≠ 0%nat).
      { intros H0. apply map_size_empty_inv in H0.
        assert (filter (λ kv : callid * pc, in_flight kv.2 = true) m !! i = Some q) as H1
          by (apply map_lookup_filter_Some; done).
        rewrite H0, lookup_empty in H1. done. }
      lia.
    + rewrite option_guard_False by (simpl; congruence). simpl. lia.
Qed.

Lemma flying_zero m i p : flying m = 0%nat → m !! i = Some p → in_flight p = false.
Proof.
  unfold flying. intros H0 Hi. apply map_size_empty_inv in H0.
  destruct (in_flight p) eqn:Hp; [|done].
  assert (filter (λ kv : callid * pc, in_flight kv.2 = true) m !! i = Some p) as H1
    by (apply map_lookup_filter_Some; done).
  rewrite H0, lookup_empty in H1. done.
Qed.

Lemma count_step h s l s' : count_inv s → step h s l = Some s' → count_inv s'.
Proof.
  unfold count_inv. intros Hc Hstep.
  destruct l as [i|i v|i e|i r|i e|f|f text|f|i v e|i v n e]; simpl in Hstep.
  - destruct (calls s !! i) as [p|] eqn:Hi; [done|].
    destruct h; simplify_eq; simpl;
      pose proof (flying_insert (calls s) i AwaitOld) as H1;
      pose proof (flying_insert (calls s) i (AwaitDirect (languageService s))) as H2;
      rewrite Hi in H1, H2; simpl in H1, H2; lia.
  - destruct (calls s !! i) as [[| |old k|old r|o]|] eqn:Hi; try done.
    + simplify_eq. simpl.
      pose proof (flying_insert (calls s) i (AwaitOp v (languageService s))) as H1.
      rewrite Hi in H1. simpl in H1. lia.
    + case_bool_decide; simplify_eq.
      * unfold leave_ok, dispose_pending. simpl.
        pose proof (flying_insert (calls s) i (Done (Returned r))) as H1.
        rewrite Hi in H1. simpl in H1.
        destruct (_ && _); simpl; lia.
      * unfold invoke, rebuild. simpl. case_bool_decide; simpl.
        -- pose proof (flying_insert (calls s) i (AwaitOp v (languageService s))) as H1.
           rewrite Hi in H1. simpl in H1. lia.
        -- pose proof (flying_insert (calls s) i (AwaitOp v (nextInst s))) as H1.
           rewrite Hi in H1. simpl in H1. lia.
  - destruct (calls s !! i) as [[| |old k|old r|o]|] eqn:Hi; try done;
      simplify_eq; simpl;
      pose proof (flying_insert (calls s) i (Done (Thrown e))) as H1;
      rewrite Hi in H1; simpl in H1; lia.
  - destruct (calls s !! i) as [[k| |old k|old r'|o]|] eqn:Hi; try done;
      simplify_eq; simpl.
    + pose proof (flying_insert (calls s) i (Done (Returned r))) as H1.
      rewrite Hi in H1; simpl in H1; lia.
    + pose proof (flying_insert (calls s) i (AwaitNew old r)) as H1.
      rewrite Hi in H1; simpl in H1; lia.
  - destruct (calls s !! i) as [[k| |old k|old r'|o]|] eqn:Hi; try done;
      simplify_eq; simpl;
      pose proof (flying_insert (calls s) i (Done (Thrown e))) as H1;
      rewrite Hi in H1; simpl in H1; lia.
  - simplify_eq. unfold readDtsFile. destruct (_ && _); done.
  - case_bool_decide; simplify_eq. done.
  - case_bool_decide; simplify_eq. done.
  - destruct (calls s !! i) as [[| |old k|old r|o]|] eqn:Hi; try done.
    destruct (_ || _); [done|]. simplify_eq. simpl.
    pose proof (flying_insert (calls s) i (Done (Thrown e))) as H1.
    rewrite Hi in H1. simpl in H1. lia.
  - destruct (calls s !! i) as [[| |old k|old r|o]|] eqn:Hi; try done.
    destruct (_ && _); [|done]. simplify_eq. simpl.
    pose proof (flying_insert (calls s) i (Done (Thrown e))) as H1.
    rewrite Hi in H1. simpl in H1. lia.
Qed.

(** ** Engine instances *)

Lemma elem_of_set_add (k x : inst) l : k ∈ set_add x l ↔ k = x ∨ k ∈ l.
Proof.
  unfold set_add. case_bool_decide as Hx.
  - split; [auto|]. by intros [->|?].
  - rewrite elem_of_app, list_elem_of_singleton. tauto.
Qed.

Lemma set_add_fresh (x : inst) l : x ∉ l → set_add x l = l ++ [x].
Proof. intros Hx. unfold set_add. by rewrite bool_decide_eq_false_2. Qed.

Lemma take_elem {A} (x : A) n (l : list A) : x ∈ take n l → x ∈ l.
Proof. intros (i & Hi & _)%elem_of_take. by eapply list_elem_of_lookup_2. Qed.

Lemma disposed_dispose_app tc l :
  disposed (reverse (EvDispose <$> tc) ++ l) = reverse tc ++ disposed l.
Proof.
  unfold disposed. rewrite omap_app.
  fold (disposed (reverse (EvDispose <$> tc))). by rewrite disposed_dispose.
Qed.

Lemma superseded_dispose_app tc l :
  superseded (reverse (EvDispose <$> tc) ++ l) = superseded l.
Proof. unfold superseded. by rewrite omap_app, omap_dispose. Qed.

Lemma builds_dispose_app tc l :
  builds (reverse (EvDispose <$> tc) ++ l) = builds l.
Proof. unfold builds. by rewrite omap_app, omap_dispose. Qed.

(** Every block is of one of the five kinds. *)
Lemma step_inst h s l s' : step h s l = Some s' → inst_step l s s'.
Proof.
  intros Hstep.
  destruct l as [i|i v|i e|i r|i e|f|f text|f|i v e|i v n e]; simpl in Hstep.
  - destruct (calls s !! i) as [p|]; [done|]. destruct h; simplify_eq; by apply IKeep.
  - destruct (calls s !! i) as [[| |old k|old r|o]|]; try done.
    { simplify_eq. by apply IKeep. }
    case_bool_decide; simplify_eq.
    + unfold leave_ok, dispose_pending. simpl.
      destruct (bool_decide (runningApis s - 1 = 0)) eqn:H0; simpl; [|by apply IKeep].
      destruct (bool_decide (toClear s = [])) eqn:Hc; simpl; [by apply IKeep|].
      apply bool_decide_eq_true_1 in H0.
      apply IDispose; simpl; try done.
      * apply (disposed_dispose_app (toClear s) (EvRead i old :: log s)).
      * apply (superseded_dispose_app (toClear s) (EvRead i old :: log s)).
      * apply (builds_dispose_app (toClear s) (EvRead i old :: log s)).
    + unfold invoke, rebuild. simpl.
      case_bool_decide; simpl; [by apply IKeep|by apply IReplace].
  - destruct (calls s !! i) as [[| |old k|old r|o]|]; try done;
      simplify_eq; by apply IKeep.
  - destruct (calls s !! i) as [[k| |old k|old r'|o]|]; try done;
      simplify_eq; by apply IKeep.
  - destruct (calls s !! i) as [[k| |old k|old r'|o]|]; try done;
      simplify_eq; by apply IKeep.
  - simplify_eq. unfold readDtsFile. destruct (_ && _); by apply IKeep.
  - case_bool_decide; simplify_eq. by apply IKeep.
  - case_bool_decide; simplify_eq. by apply IKeep.
  - destruct (calls s !! i) as [[| |old k|old r|o]|]; try done.
    destruct (_ || _); [done|]. simplify_eq. by apply IReplaceFailed.
  - destruct (calls s !! i) as [[| |old k|old r|o]|]; try done.
    destruct (bool_decide (v = old) && bool_decide (runningApis s - 1 = 0)
              && bool_decide (n < length (toClear s))%nat) eqn:Hc; [|done].
    simplify_eq.
    apply andb_true_iff in Hc as [Hc Hn]. apply andb_true_iff in Hc as [_ H0].
    apply bool_decide_eq_true_1 in Hn, H0.
    apply (IDisposeFailed _ _ _ n); simpl; try done.
    + apply (disposed_dispose_app (take (S n) (toClear s)) (EvRead i v :: log s)).
    + apply (superseded_dispose_app (take (S n) (toClear s)) (EvRead i v :: log s)).
    + apply (builds_dispose_app (take (S n) (toClear s)) (EvRead i v :: log s)).
Qed.

Lemma ii_init : inst_inv init.
Proof.
  constructor; simpl; try done.
  - lia.
  - intros k Hk. by apply elem_of_nil in Hk.
  - intros k Hk. by apply elem_of_nil in Hk.
  - intros k Hk. apply list_elem_of_singleton in Hk as ->. split; [lia|by left].
  - apply NoDup_singleton.
Qed.

Lemma ii_inst_step l s s' : inst_inv s → inst_step l s s' → inst_inv s'.
Proof.
  intros [H1 H2 H3 H4 H5 H6] Hstep.
  assert (languageService s ∈ builds (log s)) as Hcur.
  { assert (∀ bs : list inst, head bs = Some (languageService s) →
                                languageService s ∈ bs) as Hhd.
    { intros [|k0 bs] Hh; simplify_eq/=. by left. }
    apply Hhd. exact H1. }
  assert (∀ k, k ∈ disposed (log s) → (k ≤ languageService s)%nat ∧ k ∈ superseded (log s))
    as H3d by (intros k Hk; apply H3, elem_of_app; by left).
  assert (∀ k, k ∈ toClear s → (k ≤ languageService s)%nat ∧ k ∈ superseded (log s))
    as H3c by (intros k Hk; apply H3, elem_of_app; by right).
  destruct Hstep as [E1 E2 E3 E4 E5 E6|_ _ E1 E2 E3 E4 E5 E6|_ E1 E2 E3 E4 E5 E6
                    |_ _ _ E1 E2 E3 E4 E5 E6|n _ _ Hn E1 E2 E3 E4 E5 E6];
    constructor; unfold current_of; fold (builds (log s'));
    rewrite ?E1, ?E2, ?E3, ?E4, ?E5, ?E6.
  - done.
  - done.
  - done.
  - done.
  - done.
  - done.
  - done.
  - lia.
  - intros k Hk. apply elem_of_app in Hk as [Hk|Hk].
    + destruct (H3d k Hk). split; [lia|by right].
    + apply elem_of_set_add in Hk as [->|Hk]; [split; [lia|by left]|].
      destruct (H3c k Hk). split; [lia|by right].
  - intros k Hk. apply elem_of_cons in Hk as [->|Hk].
    + split; [by right|]. left. apply elem_of_set_add. by left.
    + destruct (H4 k Hk) as [Hb [Hc|Hd]]; (split; [by right|]); [left|by right].
      apply elem_of_set_add. by right.
  - intros k Hk. apply elem_of_cons in Hk as [->|Hk]; [split; [lia|by left]|].
    destruct (H5 k Hk) as [Hlt [->|[Hc|Hd]]]; (split; [lia|]); right.
    + left. apply elem_of_set_add. by left.
    + left. apply elem_of_set_add. by right.
    + by right.
  - apply NoDup_cons. split; [|done]. intros Hin. apply H5 in Hin as [Hlt _]. lia.
  - done.
  - done.
  - intros k Hk. apply elem_of_app in Hk as [Hk|Hk].
    + destruct (H3d k Hk). split; [done|by right].
    + apply elem_of_set_add in Hk as [->|Hk]; [split; [lia|by left]|].
      destruct (H3c k Hk). split; [done|by right].
  - intros k Hk. apply elem_of_cons in Hk as [->|Hk].
    + split; [done|]. left. apply elem_of_set_add. by left.
    + destruct (H4 k Hk) as [Hb [Hc|Hd]]; (split; [done|]); [left|by right].
      apply elem_of_set_add. by right.
  - intros k Hk. destruct (H5 k Hk) as [Hlt [->|[Hc|Hd]]]; (split; [done|]).
    + by left.
    + right. left. apply elem_of_set_add. by right.
    + right. by right.
  - done.
  - done.
  - done.
  - intros k Hk. rewrite app_nil_r in Hk. apply elem_of_app in Hk as [Hk|Hk].
    + rewrite elem_of_reverse in Hk. by apply H3c.
    + by apply H3d.
  - intros k Hk. destruct (H4 k Hk) as [Hb [Hc|Hd]]; (split; [done|]); right;
      apply elem_of_app; [left; by rewrite elem_of_reverse|by right].
  - intros k Hk. destruct (H5 k Hk) as [Hlt [->|[Hc|Hd]]]; (split; [done|]).
    + by left.
    + right. right. apply elem_of_app. left. by rewrite elem_of_reverse.
    + right. right. apply elem_of_app. by right.
  - done.
  - done.
  - done.
  - intros k Hk. apply elem_of_app in Hk as [Hk|Hk]; [|by apply H3c].
    apply elem_of_app in Hk as [Hk|Hk]; [|by apply H3d].
    rewrite elem_of_reverse in Hk. apply H3c. by eapply take_elem.
  - intros k Hk. destruct (H4 k Hk) as [Hb [Hc|Hd]]; (split; [done|]); [by left|].
    right. apply elem_of_app. by right.
  - intros k Hk. destruct (H5 k Hk) as [Hlt [->|[Hc|Hd]]]; (split; [done|]).
    + by left.
    + right. by left.
    + right. right. apply elem_of_app. by right.
  - done.
Qed.

Lemma ii_step h s l s' : inst_inv s → step h s l = Some s' → inst_inv s'.
Proof. intros Hinv Hstep. eapply ii_inst_step; [done|by eapply step_inst]. Qed.

(** While the factory does not throw, what is disposed or pending disposal
    is older than the current instance. *)
Lemma older_step h s l s' :
  inst_inv s → older s → build_fails l = false → step h s l = Some s' → older s'.
Proof.
  intros Hii Hold Hl Hstep k Hk.
  destruct (step_inst _ _ _ _ Hstep)
    as [E1 E2 E3 E4 E5 E6|_ _ E1 E2 E3 E4 E5 E6|Hb E1 E2 E3 E4 E5 E6
       |_ _ _ E1 E2 E3 E4 E5 E6|n _ _ Hn E1 E2 E3 E4 E5 E6];
    rewrite ?E1, ?E3, ?E4 in *.
  - by apply Hold.
  - pose proof (ii_fresh _ Hii). apply elem_of_app in Hk as [Hk|Hk].
    + assert (k < languageService s)%nat; [|lia]. apply Hold, elem_of_app. by left.
    + apply elem_of_set_add in Hk as [->|Hk]; [done|].
      assert (k < languageService s)%nat; [|lia]. apply Hold, elem_of_app. by right.
  - congruence.
  - apply Hold. rewrite app_nil_r in Hk. apply elem_of_app in Hk as [Hk|Hk];
      apply elem_of_app; [right; by rewrite elem_of_reverse in Hk|by left].
  - apply Hold. apply elem_of_app in Hk as [Hk|Hk]; [|apply elem_of_app; by right].
    apply elem_of_app in Hk as [Hk|Hk]; apply elem_of_app; [right|by left].
    rewrite elem_of_reverse in Hk. by eapply take_elem.
Qed.

(** While neither the factory nor [dispose] throws, the accounting of the
    instances is exact. *)
Lemma exact_step h s l s' :
  older s → exact s → build_fails l = false → dispose_fails l = false →
  step h s l = Some s' → exact s'.
Proof.
  intros Hold [X1 X2] Hb Hd Hstep.
  destruct (step_inst _ _ _ _ Hstep)
    as [E1 E2 E3 E4 E5 E6|_ _ E1 E2 E3 E4 E5 E6|Hb' E1 E2 E3 E4 E5 E6
       |_ _ _ E1 E2 E3 E4 E5 E6|n Hd' _ Hn E1 E2 E3 E4 E5 E6];
    try congruence; constructor; rewrite ?E1, ?E3, ?E4, ?E5, ?E6.
  - done.
  - done.
  - rewrite set_add_fresh.
    2:{ intros Hin. assert (languageService s < languageService s)%nat; [|lia].
        apply Hold, elem_of_app. by right. }
    rewrite X1. f_equiv. rewrite <-app_assoc. simpl. by rewrite <-Permutation_middle.
  - rewrite set_add_fresh.
    2:{ intros Hin. assert (languageService s < languageService s)%nat; [|lia].
        apply Hold, elem_of_app. by right. }
    rewrite X2, <-app_assoc. simpl. by rewrite <-Permutation_middle.
  - rewrite X1. simpl. f_equiv. by rewrite reverse_Permutation.
  - rewrite X2. simpl. by rewrite reverse_Permutation.
Qed.

Lemma run_invariant_on h (Q : label → Prop) (P : state → Prop) :
  (∀ s l s', Q l → P s → step h s l = Some s' → P s') →
  ∀ ls s s', Forall Q ls → P s → run h s ls = Some s' → P s'.
Proof.
  intros Hstep ls. induction ls as [|l ls IH]; intros s s' HQ HP Hrun; simpl in Hrun.
  - by simplify_eq.
  - destruct (step h s l) as [s1|] eqn:H1; [|done].
    apply Forall_cons in HQ as [Hl HQ]. eauto.
Qed.

Lemma older_run h ls s :
  Forall (λ l, build_fails l = false) ls → run h init ls = Some s →
  inst_inv s ∧ older s.
Proof.
  intros Hb Hrun.
  eapply (run_invariant_on h (λ l, build_fails l = false) (λ s, inst_inv s ∧ older s));
    [|done| |done].
  - intros s0 l s1 Hl [Hii Hold] Hstep. split; [by eapply ii_step|by eapply older_step].
  - split; [apply ii_init|]. intros k Hk. by apply elem_of_nil in Hk.
Qed.

Lemma exact_run h ls s :
  Forall (λ l, build_fails l = false) ls → Forall (λ l, dispose_fails l = false) ls →
  run h init ls = Some s → inst_inv s ∧ older s ∧ exact s.
Proof.
  intros Hb Hd Hrun.
  eapply (run_invariant_on h (λ l, build_fails l = false ∧ dispose_fails l = false)
            (λ s, inst_inv s ∧ older s ∧ exact s)); [| | |done].
  - intros s0 l s1 [Hl1 Hl2] (Hii & Hold & Hex) Hstep.
    split_and!; [by eapply ii_step|by eapply older_step|by eapply exact_step].
  - apply Forall_and. done.
  - split_and!; [apply ii_init| |by constructor].
    intros k Hk. by apply elem_of_nil in Hk.
Qed.

(** ** The history of one call *)

Lemma hist_rebuild j v s : hist j (log (rebuild v s)) = hist j (log s).
Proof. unfold rebuild. case_bool_decide; [done|]. simpl. by rewrite !hist_cons_ne. Qed.

Lemma hist_dispose_pending j s : hist j (log (dispose_pending s)) = hist j (log s).
Proof.
  unfold dispose_pending. destruct (_ && _); [|done]. simpl.
  by rewrite hist_app, hist_dispose.
Qed.

Lemma calls_rebuild v s : calls (rebuild v s) = calls s.
Proof. unfold rebuild. by case_bool_decide. Qed.

Lemma calls_dispose_pending s : calls (dispose_pending s) = calls s.
Proof. unfold dispose_pending. by destruct (_ && _). Qed.

Lemma hist_dispose_fail j n s : hist j (log (dispose_fail n s)) = hist j (log s).
Proof. unfold dispose_fail. cbn [log]. by rewrite hist_app, hist_dispose. Qed.

Ltac hist_simpl :=
  unfold invoke, leave_ok, leave_err; simpl;
  rewrite ?hist_rebuild, ?hist_dispose_pending, ?calls_rebuild, ?calls_dispose_pending;
  simpl.

Lemma step_other h s l s' j :
  step h s l = Some s' → label_call l ≠ Some j →
  calls s' !! j = calls s !! j ∧ hist j (log s') = hist j (log s).
Proof.
  intros Hstep Hj.
  destruct l as [i|i v|i e|i r|i e|f|f text|f|i v e|i v n e]; simpl in Hstep, Hj.
  - destruct (calls s !! i) as [p|] eqn:Hi; [done|].
    destruct h; simplify_eq; simpl;
      (split; [apply lookup_insert_ne; congruence|]);
      rewrite ?hist_cons_ne by (simpl; congruence); done.
  - destruct (calls s !! i) as [[| |old k|old r|o]|] eqn:Hi; try done.
    + simplify_eq. hist_simpl.
      (split; [apply lookup_insert_ne; congruence|]);
      rewrite ?hist_cons_ne by (simpl; congruence); done.
    + case_bool_decide; simplify_eq; hist_simpl.
      * (split; [apply lookup_insert_ne; congruence|]).
        rewrite hist_cons_ne by (simpl; congruence). hist_simpl.
        rewrite ?hist_cons_ne by (simpl; congruence); done.
      * (split; [apply lookup_insert_ne; congruence|]).
        rewrite hist_cons_ne by (simpl; congruence). hist_simpl.
        rewrite ?hist_cons_ne by (simpl; congruence); done.
  - destruct (calls s !! i) as [[| |old k|old r|o]|] eqn:Hi; try done;
      simplify_eq; hist_simpl;
      (split; [apply lookup_insert_ne; congruence|]);
      rewrite ?hist_cons_ne by (simpl; congruence); done.
  - destruct (calls s !! i) as [[k| |old k|old r'|o]|] eqn:Hi; try done;
      simplify_eq; hist_simpl;
      (split; [apply lookup_insert_ne; congruence|]);
      rewrite ?hist_cons_ne by (simpl; congruence); done.
  - destruct (calls s !! i) as [[k| |old k|old r'|o]|] eqn:Hi; try done;
      simplify_eq; hist_simpl;
      (split; [apply lookup_insert_ne; congruence|]);
      rewrite ?hist_cons_ne by (simpl; congruence); done.
  - simplify_eq. unfold readDtsFile. destruct (_ && _); [|done]. simpl.
    by rewrite hist_cons_ne.
  - case_bool_decide; simplify_eq. simpl. by rewrite hist_cons_ne.
  - case_bool_decide; simplify_eq. done.
  - destruct (calls s !! i) as [[| |old k|old r|o]|] eqn:Hi; try done.
    destruct (_ || _); [done|]. simplify_eq. hist_simpl.
    (split; [apply lookup_insert_ne; congruence|]);
    rewrite ?hist_cons_ne by (simpl; congruence); done.
  - destruct (calls s !! i) as [[| |old k|old r|o]|] eqn:Hi; try done.
    destruct (_ && _); [|done]. simplify_eq. cbn [calls log set_call emit].
    split; [apply lookup_insert_ne; congruence|].
    rewrite hist_cons_ne by (simpl; congruence). rewrite hist_dispose_fail.
    cbn [log set_running emit]. by rewrite hist_cons_ne by (simpl; congruence).
Qed.

Lemma hist_step h s l s' : hist_inv h s → step h s l = Some s' → hist_inv h s'.
Proof.
  intros Hinv Hstep j.
  destruct (decide (label_call l = Some j)) as [Hl|Hl].
  2:{ destruct (step_other _ _ _ _ j Hstep Hl) as [-> ->]. apply Hinv. }
  specialize (Hinv j).
  destruct l as [i|i v|i e|i r|i e|f|f text|f|i v e|i v n e]; simpl in Hstep, Hl; simplify_eq.
  - destruct (calls s !! j) as [p|] eqn:Hi; [done|].
    destruct h; simplify_eq; simpl; rewrite lookup_insert_eq; simpl;
      rewrite !hist_cons_eq, Hinv by done; done.
  - destruct (calls s !! j) as [[| |old k|old r|o]|] eqn:Hi; try done.
    + simplify_eq. hist_simpl. rewrite lookup_insert_eq. simpl.
      destruct Hinv as [-> Hh]. rewrite !hist_cons_eq, Hh by done. eauto.
    + destruct Hinv as [-> (k & tl & Hh)].
      case_bool_decide; simplify_eq; hist_simpl; rewrite lookup_insert_eq; simpl.
      * rewrite hist_cons_eq by done. hist_simpl.
        rewrite hist_cons_eq, Hh by done. eauto.
      * rewrite hist_cons_eq by done. hist_simpl.
        rewrite hist_cons_eq, Hh by done. eauto.
  - destruct (calls s !! j) as [[| |old k|old r|o]|] eqn:Hi; try done;
      destruct Hinv as [-> Hh];
      simplify_eq; hist_simpl; rewrite lookup_insert_eq; simpl;
      rewrite hist_cons_eq by done; eauto.
  - destruct (calls s !! j) as [[k| |old k|old r'|o]|] eqn:Hi; try done;
      simplify_eq; hist_simpl; rewrite lookup_insert_eq; simpl.
    + destruct Hinv as [-> Hh]. rewrite !hist_cons_eq, Hh by done. eauto.
    + destruct Hinv as [-> (tl & Hh)]. rewrite !hist_cons_eq, Hh by done. eauto.
  - destruct (calls s !! j) as [[k| |old k|old r'|o]|] eqn:Hi; try done;
      simplify_eq; hist_simpl; rewrite lookup_insert_eq; simpl.
    + destruct Hinv as [-> Hh]. rewrite !hist_cons_eq, Hh by done. eauto.
    + destruct Hinv as [-> (tl & Hh)]. rewrite !hist_cons_eq by done. eauto.
  - destruct (calls s !! j) as [[| |old k|old r|o]|] eqn:Hi; try done.
    destruct Hinv as [-> Hh]. destruct (_ || _); [done|]. simplify_eq. hist_simpl.
    rewrite lookup_insert_eq. simpl. rewrite hist_cons_eq by done. eauto.
  - destruct (calls s !! j) as [[| |old k|old r|o]|] eqn:Hi; try done.
    destruct Hinv as [-> Hh]. destruct (_ && _); [|done]. simplify_eq.
    cbn [calls log set_call emit]. rewrite lookup_insert_eq. simpl.
    rewrite hist_cons_eq by done. eauto.
Qed.

Lemma hist_init h : hist_inv h init.
Proof. intros i. simpl. rewrite lookup_empty. by rewrite hist_cons_ne. Qed.

(** ** Reachable states *)

Lemma well_invoked_dispose tc l :
  well_invoked l → well_invoked (reverse (EvDispose <$> tc) ++ l).
Proof.
  intros Hl. induction tc as [|k tc IH] using rev_ind; [done|].
  rewrite fmap_app, reverse_app. simpl. done.
Qed.

Lemma wi_step h s l s' : wi_inv s → step h s l = Some s' → wi_inv s'.
Proof.
  intros [Hii Hwi] Hstep. split; [by eapply ii_step|].
  pose proof (ii_cur _ Hii) as Hcur.
  destruct l as [i|i v|i e|i r|i e|f|f text|f|i v e|i v n e]; simpl in Hstep.
  - destruct (calls s !! i) as [p|] eqn:Hi; [done|].
    destruct h; simplify_eq; simpl; done.
  - destruct (calls s !! i) as [[| |old k|old r|o]|] eqn:Hi; try done.
    + simplify_eq. simpl. done.
    + case_bool_decide; simplify_eq.
      * unfold leave_ok, dispose_pending. simpl.
        destruct (_ && _); simpl; [|done]. by apply well_invoked_dispose.
      * unfold invoke, rebuild. simpl. case_bool_decide; simpl; done.
  - destruct (calls s !! i) as [[| |old k|old r|o]|] eqn:Hi; try done;
      simplify_eq; simpl; done.
  - destruct (calls s !! i) as [[k| |old k|old r'|o]|] eqn:Hi; try done;
      simplify_eq; simpl; done.
  - destruct (calls s !! i) as [[k| |old k|old r'|o]|] eqn:Hi; try done;
      simplify_eq; simpl; done.
  - simplify_eq. unfold readDtsFile. destruct (_ && _); done.
  - case_bool_decide; simplify_eq. done.
  - case_bool_decide; simplify_eq. done.
  - destruct (calls s !! i) as [[| |old k|old r|o]|] eqn:Hi; try done.
    destruct (_ || _); [done|]. simplify_eq. simpl. done.
  - destruct (calls s !! i) as [[| |old k|old r|o]|] eqn:Hi; try done.
    destruct (_ && _); [|done]. simplify_eq.
    apply (well_invoked_dispose (take (S n) (toClear s)) (EvRead i v :: log s)). done.
Qed.

Lemma well_invoked_split l1 i k l2 :
  well_invoked (l1 ++ EvInvoke i k :: l2) → current_of l2 = Some k.
Proof.
  induction l1 as [|e l1 IH]; simpl.
  - by intros [H _].
  - destruct e; try done. intros [_ H]. by apply IH.
Qed.

Lemma reachable_inv h ls s :
  run h init ls = Some s →
  inst_inv s ∧ well_invoked (log s) ∧ count_inv s ∧ hist_inv h s.
Proof.
  intros Hrun.
  assert (wi_inv s) as [??].
  { eapply (run_invariant h wi_inv); [apply wi_step| |done].
    split; [apply ii_init|done]. }
  split_and!; try done.
  - eapply (run_invariant h count_inv); [apply count_step| |done]. done.
  - eapply (run_invariant h (hist_inv h)); [apply hist_step| |done]. apply hist_init.
Qed.

(** C1 (as amended).  Whatever the schedule and whatever the declaration
    host answers, the result a wrapped operation returns was produced by an
    engine call that this invocation made right after reading some world
    version [v], on the instance that was current at that moment, and the
    version read right after that engine call completed was [v] again. *)
Theorem returned_result_is_bracketed ls s i r :
  run true init ls = Some s →
  calls s !! i = Some (Done (Returned r)) →
  ∃ k, bracketed s i r k ∧
       ∀ l1 l2, log s = l1 ++ EvInvoke i k :: l2 → current_of l2 = Some k.
Proof.
  intros Hrun Hi. apply reachable_inv in Hrun as (_ & Hwi & _ & Hh).
  specialize (Hh i). rewrite Hi in Hh. simpl in Hh.
  destruct Hh as (v & k & tl & Hh). exists k. split; [by exists v, tl|].
  intros l1 l2 Hl. rewrite Hl in Hwi. by eapply well_invoked_split.
Qed.

Lemma returned_result_is_bracketed_witness :
  ∃ k, bracketed (default init (run true init late_call)) 1%nat 11%nat k ∧
       ∀ l1 l2, log (default init (run true init late_call)) = l1 ++ EvInvoke 1%nat k :: l2 →
                current_of l2 = Some k.
Proof.
  apply (returned_result_is_bracketed late_call); vm_compute; reflexivity.
Defined.

(** C1 (as worded) fails: in the schedule [late_call] the second call
    begins after a declaration has settled, finds the world version
    unchanged across its only engine call, and returns a result computed by
    instance 0, which was built before that declaration settled. *)
Lemma stale_result_returned : ¬ fresh_results.
Proof.
  intros Hclaim.
  destruct (Hclaim late_call (default init (run true init late_call)) 1%nat 11%nat)
    as (k & (v & tl & Hb) & Hfresh); try (vm_compute; reflexivity).
  vm_compute in Hb. assert (k = 0%nat) as -> by congruence.
  apply Hfresh.
  exists "/node_modules/foo/index.d.ts", (Some "export declare const x: number;"),
    [EvReturn 1%nat 11%nat; EvRead 1%nat 1; EvResult 1%nat 11%nat;
     EvInvoke 1%nat 0%nat; EvRead 1%nat 1], [],
    [EvRequest "/node_modules/foo/index.d.ts"; EvInvoke 0%nat 0%nat;
     EvRead 0%nat 0; EvBegin 0%nat], [].
  vm_compute. reflexivity.
Qed.

(** The same happens without any overlap when the first call fails after
    its operation made the engine ask for the declaration. *)
Example stale_result_after_failure :
  ∃ s, run true init after_failure = Some s ∧ agrees init after_failure = true ∧
       bracketed s 1%nat 11%nat 0%nat ∧ stale_for (log s) 1%nat 0%nat.
Proof.
  eexists. split; [vm_compute; reflexivity|]. split; [vm_compute; reflexivity|]. split.
  - exists 1, [EvBegin 1%nat]. vm_compute. reflexivity.
  - exists "/node_modules/foo/index.d.ts", (Some "export declare const x: number;"),
      [EvReturn 1%nat 11%nat; EvRead 1%nat 1; EvResult 1%nat 11%nat;
       EvInvoke 1%nat 0%nat; EvRead 1%nat 1], [],
      [EvThrow 0%nat 7%nat; EvFail 0%nat 7%nat;
       EvRequest "/node_modules/foo/index.d.ts"; EvInvoke 0%nat 0%nat;
       EvRead 0%nat 0; EvBegin 0%nat], [].
    vm_compute. reflexivity.
Qed.

(** C2 (as worded) fails: after [overlap], call 1 reads version 1, which
    differs from the 0 it observed before, but call 0 has already replaced
    the instance for version 1, so line 66 skips the replacement and the
    operation runs again on the instance that is current. *)
Lemma retry_without_rebuild : ¬ always_rebuilds.
Proof.
  intros Hclaim.
  destruct (Hclaim overlap (default init (run true init overlap)) 1%nat 0 11%nat 1
              (default init (run true init (overlap ++ [LVersion 1%nat 1]))))
    as (_ & Hnew & _); try (vm_compute; reflexivity); [done|].
  vm_compute in Hnew. discriminate.
Qed.

(** C2 (as amended).  In an iteration of the retry loop, that is when the
    version just read differs from the one observed before: if it also
    differs from the version the current instance was built for, the
    current instance joins the pending-disposal set, a new instance is
    built, becomes current and receives the re-executed operation;
    otherwise nothing is replaced and the operation is re-executed on the
    current instance.  In both cases the version just read becomes the
    observed one.  (The pending-disposal set is a set: the current instance
    is a new member of it unless an earlier replacement threw in
    [_createLanguageService] and left it there.) *)
Theorem retry_iteration ls s i old r v s' :
  run true init ls = Some s →
  calls s !! i = Some (AwaitNew old r) → v ≠ old →
  step true s (LVersion i v) = Some s' →
  calls s' = <[i := AwaitOp v (languageService s')]> (calls s) ∧
  if bool_decide (v = dtsVersion s) then
    languageService s' = languageService s ∧ toClear s' = toClear s ∧
    nextInst s' = nextInst s ∧ dtsVersion s' = dtsVersion s ∧
    log s' = EvInvoke i (languageService s) :: EvRead i v :: log s
  else
    languageService s' = nextInst s ∧ languageService s' ≠ languageService s ∧
    toClear s' = set_add (languageService s) (toClear s) ∧
    languageService s ∈ toClear s' ∧
    (Forall (λ l, build_fails l = false) ls →
     toClear s' = toClear s ++ [languageService s]) ∧
    nextInst s' = S (nextInst s) ∧ dtsVersion s' = v ∧
    log s' = EvInvoke i (nextInst s) :: EvBuild (nextInst s)
               :: EvSupersede (languageService s) :: EvRead i v :: log s.
Proof.
  intros Hrun Hi Hv Hstep. pose proof (reachable_inv _ _ _ Hrun) as (Hii & _).
  simpl in Hstep. rewrite Hi in Hstep.
  rewrite bool_decide_eq_false_2 in Hstep by done. simplify_eq.
  unfold invoke, rebuild. simpl. case_bool_decide; simpl; [done|].
  split; [done|]. split_and!; try done.
  - pose proof (ii_fresh _ Hii). lia.
  - apply elem_of_set_add. by left.
  - intros Hb. apply set_add_fresh. intros Hin.
    destruct (older_run _ _ _ Hb Hrun) as [_ Hold].
    assert (languageService s < languageService s)%nat; [|lia].
    apply Hold, elem_of_app. by right.
Qed.

Lemma retry_iteration_witness :
  ∃ s', step true (default init (run true init (removelast overlap))) (LVersion 0%nat 1) = Some s' ∧
        languageService s' = 1%nat ∧ toClear s' = [0%nat].
Proof.
  eexists. split; [vm_compute; reflexivity|].
  pose proof (retry_iteration (removelast overlap) _ 0%nat 0 10%nat 1 _
                ltac:(vm_compute; reflexivity) ltac:(vm_compute; reflexivity)
                ltac:(done) ltac:(vm_compute; reflexivity)) as [_ H].
  vm_compute in H. destruct H as (H1 & _ & H2 & _). split; [exact H1|exact H2].
Defined.

(** ** Disposal *)

Lemma run_snoc h s0 ls s l s1 :
  run h s0 ls = Some s → step h s l = Some s1 → run h s0 (ls ++ [l]) = Some s1.
Proof. intros H1 H2. rewrite run_app, H1. simpl. by rewrite H2. Qed.

(** A step that disposes anything ends with the counter at zero. *)
Lemma dispose_only_at_zero h s l s' :
  step h s l = Some s' → disposed (log s') ≠ disposed (log s) → runningApis s' = 0.
Proof.
  intros Hstep Hd.
  destruct (step_inst _ _ _ _ Hstep)
    as [E1 E2 E3 E4 E5 E6|_ _ E1 E2 E3 E4 E5 E6|Hb E1 E2 E3 E4 E5 E6
       |_ _ H0 E1 E2 E3 E4 E5 E6|n _ H0 Hn E1 E2 E3 E4 E5 E6]; done.
Qed.

(** C3 (as amended).  On every trace, whatever the engine does: an
    instance is disposed only after it was handed to [toClear.add], and a
    step that disposes anything ends with the in-flight counter at zero and
    no invocation of the wrapper between its increment and its decrement.
    While [_createLanguageService] has not thrown in the retry loop, the
    current instance is neither disposed nor pending disposal.  While
    neither [_createLanguageService] nor [dispose] has thrown, no instance
    is disposed twice. *)
Theorem disposal_safety h ls s :
  run h init ls = Some s →
  (∀ k, k ∈ disposed (log s) → k ∈ superseded (log s)) ∧
  (∀ l s', step h s l = Some s' → disposed (log s') ≠ disposed (log s) →
           runningApis s' = 0 ∧ (∀ j p, calls s' !! j = Some p → in_flight p = false)) ∧
  (Forall (λ l, build_fails l = false) ls →
   (languageService s ∉ disposed (log s)) ∧ (languageService s ∉ toClear s)) ∧
  (Forall (λ l, build_fails l = false) ls →
   Forall (λ l, dispose_fails l = false) ls →
   NoDup (disposed (log s))).
Proof.
  intros Hrun. pose proof (reachable_inv _ _ _ Hrun) as (Hii & _ & Hc & _).
  split_and!.
  - intros k Hk. apply (ii_old _ Hii), elem_of_app. by left.
  - intros l s' Hstep Hd.
    pose proof (run_snoc _ _ _ _ _ _ Hrun Hstep) as Hrun'.
    apply reachable_inv in Hrun' as (_ & _ & Hc' & _).
    pose proof (dispose_only_at_zero _ _ _ _ Hstep Hd) as H0. split; [done|].
    intros j p Hj. eapply flying_zero; [|done].
    unfold count_inv in Hc'. lia.
  - intros Hb. destruct (older_run _ _ _ Hb Hrun) as [_ Hold].
    split; intros Hin; apply (Nat.lt_irrefl (languageService s)), Hold, elem_of_app;
      auto.
  - intros Hb Hd. destruct (exact_run _ _ _ Hb Hd Hrun) as (Hi & _ & [X1 _]).
    pose proof (ii_nodup _ Hi) as Hnd. rewrite X1 in Hnd.
    apply NoDup_cons in Hnd as [_ Hnd]. by apply NoDup_app in Hnd as (_ & _ & ?).
Qed.

Lemma disposal_safety_witness :
  NoDup (disposed (log (default init (run true init overlap_done)))) ∧
  disposed (log (default init (run true init overlap_done))) = [0%nat].
Proof.
  split; [|vm_compute; reflexivity].
  refine (proj2 (proj2 (proj2 (disposal_safety true overlap_done _ _))) _ _).
  - vm_compute. reflexivity.
  - vm_compute. repeat constructor.
  - vm_compute. repeat constructor.
Defined.

(** C3 (as worded) fails: in the schedule [dispose_throws] the [dispose] of
    instance 0 throws at line 90, so [toClear.clear()] is not reached and
    the next call that leaves with the counter at zero disposes instance 0
    again. *)
Lemma instance_disposed_twice : ¬ disposal_as_worded.
Proof.
  intros Hclaim.
  destruct (Hclaim true dispose_throws (default init (run true init dispose_throws)))
    as [Hnd _]; [vm_compute; reflexivity|].
  vm_compute in Hnd. apply NoDup_cons in Hnd as [Hnot _]. apply Hnot. by left.
Qed.

(** It also fails in the schedule [factory_throws]: line 68 has put the
    current instance into [toClear] when line 69 throws, the instance stays
    current, and the next call that leaves with the counter at zero
    disposes it. *)
Example current_instance_disposed :
  ∃ s, run true init factory_throws = Some s ∧
       languageService s = 0%nat ∧ disposed (log s) = [0%nat].
Proof. eexists. split; [vm_compute; reflexivity|]. split; vm_compute; reflexivity. Qed.

(** ** Engine errors *)

Lemma invocations_hist i l : invocations i (hist i l) = invocations i l.
Proof.
  induction l as [|e l IH]; [done|].
  rewrite invocations_cons.
  destruct (decide (event_call e = Some i)) as [He|He].
  - rewrite hist_cons_eq, invocations_cons by done. by rewrite IH.
  - rewrite hist_cons_ne by done. rewrite IH.
    destruct e; simpl in *; try done.
    rewrite bool_decide_eq_false_2; [done|congruence].
Qed.

Lemma done_is_final h s l s' i o :
  calls s !! i = Some (Done o) → step h s l = Some s' →
  calls s' !! i = Some (Done o) ∧ invocations i (log s') = invocations i (log s).
Proof.
  intros Hi Hstep.
  destruct (decide (label_call l = Some i)) as [Hl|Hl].
  - destruct l; simpl in Hl; simplify_eq; simpl in Hstep; rewrite Hi in Hstep; done.
  - destruct (step_other _ _ _ _ i Hstep Hl) as [H1 H2]. split; [congruence|].
    by rewrite <-invocations_hist, H2, invocations_hist.
Qed.

Lemma done_stays h ls : ∀ s s' i o,
  calls s !! i = Some (Done o) → run h s ls = Some s' →
  calls s' !! i = Some (Done o) ∧ invocations i (log s') = invocations i (log s).
Proof.
  induction ls as [|l ls IH]; intros s s' i o Hi Hrun; simpl in Hrun.
  - by simplify_eq.
  - destruct (step h s l) as [s1|] eqn:H1; [|done].
    destruct (done_is_final _ _ _ _ _ _ Hi H1) as [Hi1 Hn1].
    destruct (IH _ _ _ _ Hi1 Hrun) as [Hi2 Hn2]. split; [done|congruence].
Qed.

(** C4.  When the engine call awaited by an invocation of the wrapper
    throws or rejects with [e] (declaration host present): the in-flight
    counter goes down by one in that very block and stays non-negative, the
    invocation rejects with the same [e], the block makes no engine call
    and disposes nothing, and whatever happens later the invocation stays
    rejected with [e] and makes no further engine call. *)
Theorem engine_error_propagates ls s i e s' :
  run true init ls = Some s →
  step true s (LError i e) = Some s' →
  runningApis s' = runningApis s - 1 ∧ 0 ≤ runningApis s' ∧
  calls s' !! i = Some (Done (Thrown e)) ∧
  log s' = EvThrow i e :: EvFail i e :: log s ∧
  ∀ ls' s'', run true s' ls' = Some s'' →
             calls s'' !! i = Some (Done (Thrown e)) ∧
             invocations i (log s'') = invocations i (log s).
Proof.
  intros Hrun Hstep.
  pose proof (run_snoc _ _ _ _ _ _ Hrun Hstep) as Hrun'.
  apply reachable_inv in Hrun' as (_ & _ & Hc' & _).
  apply reachable_inv in Hrun as (_ & _ & _ & Hh).
  specialize (Hh i). simpl in Hstep.
  destruct (calls s !! i) as [[k| |old k|old r'|o]|] eqn:Hi; try done.
  { by destruct Hh. }
  simplify_eq.
  assert (calls (leave_err i e (emit (EvFail i e) s)) !! i = Some (Done (Thrown e))) as Hd.
  { simpl. by rewrite lookup_insert_eq. }
  split_and!; try done.
  - unfold count_inv in Hc'. lia.
  - intros ls' s'' Hrun''.
    destruct (done_stays _ _ _ _ _ _ Hd Hrun'') as [H1 H2]. split; [done|].
    rewrite H2. simpl. by rewrite !invocations_cons.
Qed.

Lemma engine_error_propagates_witness :
  ∃ s', step true (default init (run true init [LCall 0%nat; LVersion 0%nat 0])) (LError 0%nat 7%nat) = Some s' ∧
        runningApis s' = 0 ∧ calls s' !! 0%nat = Some (Done (Thrown 7%nat)).
Proof.
  eexists. split; [vm_compute; reflexivity|].
  pose proof (engine_error_propagates [LCall 0%nat; LVersion 0%nat 0] _ 0%nat 7%nat _
                ltac:(vm_compute; reflexivity) ltac:(vm_compute; reflexivity))
    as (H1 & _ & H2 & _).
  split; [exact H1|exact H2].
Defined.

(** A rejection of [getVersion()] at line 60, 62 or 81 leaves the wrapper
    the same way: the caller's promise rejects with that error. *)
Lemma version_failure_propagates h s i e s' :
  step h s (LVersionFail i e) = Some s' →
  calls s' !! i = Some (Done (Thrown e)) ∧ head (log s') = Some (EvThrow i e) ∧
  runningApis s' = runningApis s - 1.
Proof.
  simpl. destruct (calls s !! i) as [[k| |old k|old r|o]|]; try done;
    intros [= <-]; simpl; by rewrite lookup_insert_eq.
Qed.

(** ** Without a declaration host *)

Lemma bare_init : bare_inv init.
Proof.
  constructor; try done.
  all: try (by repeat constructor).
Qed.

Lemma bare_step s l s' : bare_inv s → step false s l = Some s' → bare_inv s'.
Proof.
  intros [H1 H2 H3 H4 H5 H6 H7 H8 H9] Hstep.
  destruct l as [i|i v|i e|i r|i e|f|f text|f|i v e|i v n e]; simpl in Hstep.
  - destruct (calls s !! i) as [p|] eqn:Hi; [done|]. simplify_eq.
    constructor; simpl; try done.
    + by repeat constructor.
    + intros j p Hj. destruct (decide (i = j)) as [->|Hne].
      * rewrite lookup_insert_eq in Hj. by simplify_eq.
      * rewrite lookup_insert_ne in Hj by done. eauto.
  - destruct (calls s !! i) as [[| |old k|old r|o]|] eqn:Hi; try done;
      apply H9 in Hi; done.
  - destruct (calls s !! i) as [[| |old k|old r|o]|] eqn:Hi; try done;
      apply H9 in Hi; done.
  - destruct (calls s !! i) as [[k| |old k|old r'|o]|] eqn:Hi; try done.
    2:{ apply H9 in Hi; done. }
    simplify_eq. constructor; simpl; try done.
    + by repeat constructor.
    + intros j p Hj. destruct (decide (i = j)) as [->|Hne].
      * rewrite lookup_insert_eq in Hj. by simplify_eq.
      * rewrite lookup_insert_ne in Hj by done. eauto.
  - destruct (calls s !! i) as [[k| |old k|old r'|o]|] eqn:Hi; try done.
    2:{ apply H9 in Hi; done. }
    simplify_eq. constructor; simpl; try done.
    + by repeat constructor.
    + intros j p Hj. destruct (decide (i = j)) as [->|Hne].
      * rewrite lookup_insert_eq in Hj. by simplify_eq.
      * rewrite lookup_insert_ne in Hj by done. eauto.
  - simplify_eq. unfold readDtsFile. rewrite andb_false_r. by constructor.
  - rewrite H7 in Hstep. done.
  - rewrite H7 in Hstep. done.
  - destruct (calls s !! i) as [[| |old k|old r|o]|] eqn:Hi; try done;
      apply H9 in Hi; done.
  - destruct (calls s !! i) as [[| |old k|old r|o]|] eqn:Hi; try done;
      apply H9 in Hi; done.
Qed.

(** C10.  Without a declaration host the wrapper is the bare engine.  In
    every reachable state the instance built at construction is still
    current, nothing is pending disposal, the counter and [dtsVersion] are
    0, the log has no version read, no supersession, no disposal, no
    declaration request and no build but the first; and every invocation
    made exactly one engine call, on that instance, and settled exactly as
    that engine call did (same value, or same error).  Moreover the
    wrapper does what the engine does: a call of an operation invokes the
    engine in the same block, on that instance; when the engine call
    fulfils with [r] the wrapper's promise fulfils with [r], when it fails
    with [e] the wrapper's promise rejects with [e], both in one block that
    touches nothing else; and no block that reads a version or settles a
    declaration can run. *)
Theorem no_host_is_bare_engine ls s :
  run false init ls = Some s →
  languageService s = 0%nat ∧ nextInst s = 1%nat ∧ toClear s = [] ∧
  runningApis s = 0 ∧ dtsVersion s = 0 ∧ Forall quiet (log s) ∧
  (∀ i p, calls s !! i = Some p →
    invocations i (log s) = 1%nat ∧
    match p with
    | AwaitDirect k => k = 0%nat ∧ hist i (log s) = [EvInvoke i 0%nat; EvBegin i]
    | Done (Returned r) =>
        hist i (log s) = [EvReturn i r; EvResult i r; EvInvoke i 0%nat; EvBegin i]
    | Done (Thrown e) =>
        hist i (log s) = [EvThrow i e; EvFail i e; EvInvoke i 0%nat; EvBegin i]
    | _ => False
    end) ∧
  (∀ i, calls s !! i = None →
     ∃ s1, step false s (LCall i) = Some s1 ∧
           calls s1 = <[i := AwaitDirect 0%nat]> (calls s) ∧
           log s1 = EvInvoke i 0%nat :: EvBegin i :: log s) ∧
  (∀ i k, calls s !! i = Some (AwaitDirect k) →
     (∀ r, ∃ s2, step false s (LResult i r) = Some s2 ∧
                 calls s2 = <[i := Done (Returned r)]> (calls s) ∧
                 log s2 = EvReturn i r :: EvResult i r :: log s) ∧
     (∀ e, ∃ s2, step false s (LError i e) = Some s2 ∧
                 calls s2 = <[i := Done (Thrown e)]> (calls s) ∧
                 log s2 = EvThrow i e :: EvFail i e :: log s)) ∧
  (∀ l, needs_host l = true → step false s l = None).
Proof.
  intros Hrun.
  assert (bare_inv s) as [H1 H2 H3 H4 H5 H6 H7 H8 H9].
  { eapply (run_invariant false bare_inv); [apply bare_step|apply bare_init|done]. }
  apply reachable_inv in Hrun as (_ & _ & _ & Hh).
  split_and!; try done.
  - intros i p Hi. specialize (Hh i). rewrite Hi in Hh.
    assert (∀ k, EvInvoke i k ∈ hist i (log s) → k = 0%nat) as Hk.
    { intros k Hin. unfold hist in Hin. apply list_elem_of_filter in Hin as [_ Hin].
      rewrite Forall_forall in H8. by apply H8 in Hin. }
    rewrite <-invocations_hist.
    destruct p as [k| |old k|old r|[r|e]]; simpl in Hh; try (by destruct Hh).
    + destruct Hh as [_ Hh]. rewrite Hh in *.
      assert (k = 0%nat) as -> by (apply Hk; set_solver).
      split_and!; try done. unfold invocations. simpl.
      rewrite filter_cons, decide_True by (simpl; by rewrite bool_decide_eq_true_2).
      rewrite filter_cons, decide_False by done. done.
    + destruct Hh as [k Hh]. rewrite Hh in *.
      assert (k = 0%nat) as -> by (apply Hk; set_solver).
      split_and!; try done. rewrite !invocations_cons. simpl.
      by rewrite bool_decide_eq_true_2.
    + destruct Hh as [k Hh]. rewrite Hh in *.
      assert (k = 0%nat) as -> by (apply Hk; set_solver).
      split_and!; try done. rewrite !invocations_cons. simpl.
      by rewrite bool_decide_eq_true_2.
  - intros i Hi. simpl. rewrite Hi, H1. eexists. split; [done|]. done.
  - intros i k Hi. split.
    + intros r. simpl. rewrite Hi. eexists. split; [done|]. done.
    + intros e. simpl. rewrite Hi. eexists. split; [done|]. done.
  - intros l Hl. destruct l as [i|i v|i e|i r|i e|f|f text|f|i v e|i v n e];
      simpl in Hl; try done; simpl.
    + destruct (calls s !! i) as [[| |old k|old r|o]|] eqn:Hi; try done;
        apply H9 in Hi; done.
    + destruct (calls s !! i) as [[| |old k|old r|o]|] eqn:Hi; try done;
        apply H9 in Hi; done.
    + by rewrite H7.
    + by rewrite H7.
    + destruct (calls s !! i) as [[| |old k|old r|o]|] eqn:Hi; try done;
        apply H9 in Hi; done.
    + destruct (calls s !! i) as [[| |old k|old r|o]|] eqn:Hi; try done;
        apply H9 in Hi; done.
Qed.

Lemma no_host_is_bare_engine_witness :
  invocations 0%nat (log (default init (run false init bare_calls))) = 1%nat ∧
  hist 0%nat (log (default init (run false init bare_calls)))
  = [EvReturn 0%nat 10%nat; EvResult 0%nat 10%nat; EvInvoke 0%nat 0%nat; EvBegin 0%nat].
Proof.
  refine (proj1 (proj2 (proj2 (proj2 (proj2 (proj2 (proj2
            (no_host_is_bare_engine bare_calls
               (default init (run false init bare_calls)) _)))))))
            0%nat (Done (Returned 10%nat)) _).
  - vm_compute. reflexivity.
  - vm_compute. reflexivity.
Defined.

(** ** The counter and the instances *)

Lemma flying_none (m : gmap callid pc) :
  (∀ i p, m !! i = Some p → in_flight p = false) → flying m = 0%nat.
Proof.
  intros Hall. unfold flying.
  assert (filter (λ kv : callid * pc, in_flight kv.2 = true) m = ∅) as ->.
  { apply map_empty. intros i. apply map_lookup_filter_None.
    right. intros p Hi. simpl. by rewrite (Hall i p Hi). }
  apply map_size_empty.
Qed.

(** X13.  In every state the worker can reach, [runningApis] is the number
    of invocations of the wrapper that are between line 59 and line 85;
    in particular it is zero exactly when no invocation is in flight. *)
Theorem counter_counts_in_flight h ls s :
  run h init ls = Some s →
  runningApis s = Z.of_nat (flying (calls s)) ∧
  (runningApis s = 0 ↔ ∀ i p, calls s !! i = Some p → in_flight p = false).
Proof.
  intros Hrun. destruct (reachable_inv _ _ _ Hrun) as (_ & _ & Hc & _).
  unfold count_inv in Hc. split; [done|]. split.
  - intros Hz i p Hi. eapply (flying_zero (calls s)); [lia|done].
  - intros Hall. rewrite Hc, flying_none; done.
Qed.

Lemma counter_counts_in_flight_witness :
  runningApis (default init (run true init overlap)) = 2.
Proof.
  transitivity (Z.of_nat (flying (calls (default init (run true init overlap))))).
  - apply (counter_counts_in_flight true overlap). vm_compute. reflexivity.
  - vm_compute. reflexivity.
Defined.

(** X14.  No engine instance is lost, whatever the engine does: in every
    reachable state no instance was built twice, the instances ever built
    are the current one, those waiting in [toClear] and those disposed, and
    the instances handed to [toClear.add] are those waiting and those
    disposed.  While neither [_createLanguageService] nor [dispose] has
    thrown the accounting is exact: each instance built is exactly one of
    current, waiting and disposed. *)
Theorem every_instance_accounted h ls s :
  run h init ls = Some s →
  NoDup (builds (log s)) ∧
  (∀ k, k ∈ builds (log s) ↔
        k = languageService s ∨ k ∈ toClear s ∨ k ∈ disposed (log s)) ∧
  (∀ k, k ∈ superseded (log s) ↔ k ∈ toClear s ∨ k ∈ disposed (log s)) ∧
  (Forall (λ l, build_fails l = false) ls →
   Forall (λ l, dispose_fails l = false) ls →
   builds (log s) ≡ₚ languageService s :: toClear s ++ disposed (log s) ∧
   superseded (log s) ≡ₚ toClear s ++ disposed (log s)).
Proof.
  intros Hrun. pose proof (reachable_inv _ _ _ Hrun) as (Hii & _).
  destruct Hii as [H1 H2 H3 H4 H5 H6]. split_and!.
  - done.
  - intros k. split; [intros Hk; by destruct (H5 k Hk)|].
    intros [->|[Hk|Hk]].
    + assert (∀ bs : list inst, head bs = Some (languageService s) →
                                  languageService s ∈ bs) as Hhd.
      { intros [|k0 bs] Hh; simplify_eq/=. by left. }
      apply Hhd. exact H1.
    + apply H4, H3, elem_of_app. by right.
    + apply H4, H3, elem_of_app. by left.
  - intros k. split; [intros Hk; by destruct (H4 k Hk)|].
    intros [Hk|Hk]; apply H3, elem_of_app; auto.
  - intros Hb Hd. by destruct (exact_run _ _ _ Hb Hd Hrun) as (_ & _ & [? ?]).
Qed.

Lemma every_instance_accounted_witness :
  builds (log (default init (run true init overlap_done))) = [1%nat; 0%nat] ∧
  NoDup (builds (log (default init (run true init overlap_done)))).
Proof.
  split; [vm_compute; reflexivity|].
  apply (every_instance_accounted true overlap_done). vm_compute. reflexivity.
Defined.

(** ** A world that does not change *)

Lemma stable_init v : stable_inv v init.
Proof. constructor; try done; intros i; simpl; by rewrite lookup_empty. Qed.

Lemma dispose_pending_nil s : toClear s = [] → dispose_pending s = s.
Proof.
  intros Hc. unfold dispose_pending. rewrite Hc.
  rewrite (bool_decide_eq_true_2 ([] = [])) by done. by rewrite andb_false_r.
Qed.

Ltac count_invocations :=
  rewrite ?invocations_cons; unfold invocations; simpl;
  rewrite ?bool_decide_eq_true_2 by done; simpl; lia.

Lemma stable_step v s l s' :
  stable_inv v s → (∀ w, label_version l = Some w → w = v) →
  step true s l = Some s' → stable_inv v s'.
Proof.
  intros [H1 H2 H3 H4 H5 H6] Hl Hstep.
  assert (∀ j, label_call l ≠ Some j →
            match calls s' !! j with
            | Some p => stable_pc v j p (hist j (log s'))
            | None => hist j (log s') = []
            end) as Hother.
  { intros j Hj. destruct (step_other _ _ _ _ j Hstep Hj) as [-> ->]. apply H6. }
  destruct l as [i|i w|i e|i r|i e|f|f text|f|i w e|i w n e]; simpl in Hstep.
  - destruct (calls s !! i) as [p|] eqn:Hi; [done|]. simplify_eq.
    constructor; simpl; try done.
    intros j. destruct (decide (i = j)) as [<-|Hne]; [|apply Hother; simpl; congruence].
    rewrite lookup_insert_eq. simpl. specialize (H6 i). rewrite Hi in H6.
    by rewrite hist_cons_eq, H6.
  - pose proof (Hl w eq_refl) as ->.
    destruct (calls s !! i) as [[| |old k|old r|o]|] eqn:Hi; try done.
    + simplify_eq. constructor; simpl; try done.
      intros j. destruct (decide (i = j)) as [<-|Hne]; [|apply Hother; simpl; congruence].
      unfold invoke. simpl. rewrite lookup_insert_eq. simpl.
      specialize (H6 i). rewrite Hi in H6. simpl in H6.
      rewrite !hist_cons_eq, H6, H1 by done. done.
    + specialize (H6 i) as H6i. rewrite Hi in H6i. destruct H6i as [-> Hh].
      rewrite bool_decide_eq_true_2 in Hstep by done. simplify_eq.
      unfold leave_ok. rewrite dispose_pending_nil by done.
      constructor; simpl; try done.
      intros j. destruct (decide (i = j)) as [<-|Hne].
      * rewrite lookup_insert_eq. simpl. by rewrite !hist_cons_eq, Hh.
      * rewrite lookup_insert_ne by done. specialize (H6 j).
        rewrite !hist_cons_ne by (simpl; congruence). done.
  - destruct (calls s !! i) as [[| |old k|old r|o]|] eqn:Hi; try done;
      simplify_eq; unfold leave_err; (constructor; simpl; try done);
      intros j; (destruct (decide (i = j)) as [<-|Hne];
                 [|rewrite lookup_insert_ne by done; specialize (H6 j);
                   rewrite !hist_cons_ne by (simpl; congruence); done]);
      rewrite lookup_insert_eq; simpl; specialize (H6 i); rewrite Hi in H6; simpl in H6.
    + rewrite hist_cons_eq, H6 by done. count_invocations.
    + destruct H6 as [_ Hh]. rewrite hist_cons_eq, Hh by done.
      count_invocations.
  - destruct (calls s !! i) as [[k| |old k|old r'|o]|] eqn:Hi; try done.
    { specialize (H6 i). by rewrite Hi in H6. }
    simplify_eq. constructor; simpl; try done.
    intros j. destruct (decide (i = j)) as [<-|Hne].
    + rewrite lookup_insert_eq. simpl. specialize (H6 i). rewrite Hi in H6.
      destruct H6 as (-> & -> & Hh). by rewrite hist_cons_eq, Hh.
    + rewrite lookup_insert_ne by done. specialize (H6 j).
      rewrite !hist_cons_ne by (simpl; congruence). done.
  - destruct (calls s !! i) as [[k| |old k|old r'|o]|] eqn:Hi; try done.
    { specialize (H6 i). by rewrite Hi in H6. }
    simplify_eq. unfold leave_err. constructor; simpl; try done.
    intros j. destruct (decide (i = j)) as [<-|Hne].
    + rewrite lookup_insert_eq. simpl. specialize (H6 i). rewrite Hi in H6.
      destruct H6 as (-> & -> & Hh). rewrite !hist_cons_eq, Hh by done.
      count_invocations.
    + rewrite lookup_insert_ne by done. specialize (H6 j).
      rewrite !hist_cons_ne by (simpl; congruence). done.
  - simplify_eq. unfold readDtsFile.
    destruct (_ && _); constructor; simpl; try done;
      intros j; specialize (H6 j); by rewrite hist_cons_ne.
  - case_bool_decide; simplify_eq. constructor; simpl; try done;
      intros j; specialize (H6 j); by rewrite hist_cons_ne.
  - case_bool_decide; simplify_eq. by constructor.
  - pose proof (Hl w eq_refl) as ->.
    destruct (calls s !! i) as [[| |old k|old r|o]|] eqn:Hi; try done.
    specialize (H6 i). rewrite Hi in H6. destruct H6 as [-> _].
    by rewrite bool_decide_eq_true_2 in Hstep.
  - destruct (calls s !! i) as [[| |old k|old r|o]|] eqn:Hi; try done.
    rewrite H2 in Hstep. simpl in Hstep. by rewrite andb_false_r in Hstep.
Qed.

Lemma stable_run v ls : ∀ s s',
  stable_inv v s → constant_versions v ls → run true s ls = Some s' → stable_inv v s'.
Proof.
  induction ls as [|l ls IH]; intros s s' Hinv Hc Hrun; simpl in Hrun; [by simplify_eq|].
  destruct (step true s l) as [s1|] eqn:Hstep; [|done].
  eapply IH; [|intros l' w Hin; eapply Hc; by right|done].
  eapply stable_step; [done| |done]. intros w Hw. eapply Hc; [by left|done].
Qed.

(** X15.  While the declaration host keeps answering one and the same
    version, whatever that version is, the proxy never replaces or disposes
    an engine instance, and every invocation runs the operation at most
    once: a call that returns [r] has read the version, called the engine
    once on the instance built at construction, received [r], and read the
    version again. *)
Theorem stable_world_runs_once v ls s :
  run true init ls = Some s → constant_versions v ls →
  languageService s = 0%nat ∧ toClear s = [] ∧ dtsVersion s = 0 ∧
  builds (log s) = [0%nat] ∧ disposed (log s) = [] ∧
  ∀ i p, calls s !! i = Some p →
    (invocations i (log s) ≤ 1)%nat ∧
    ∀ r, p = Done (Returned r) →
         hist i (log s) = [EvReturn i r; EvRead i v; EvResult i r; EvInvoke i 0%nat;
                           EvRead i v; EvBegin i].
Proof.
  intros Hrun Hc.
  destruct (stable_run v ls init s (stable_init v) Hc Hrun) as [H1 H2 H3 H4 H5 H6].
  split_and!; try done. intros i p Hi. specialize (H6 i). rewrite Hi in H6.
  split; [|by intros r ->].
  rewrite <-invocations_hist.
  destruct p as [k| |old k|old r|[r|e]]; simpl in H6; try done.
  - rewrite H6. count_invocations.
  - destruct H6 as (_ & _ & ->). count_invocations.
  - destruct H6 as (_ & ->). count_invocations.
  - rewrite H6. count_invocations.
Qed.

Lemma stable_world_runs_once_witness :
  builds (log (default init (run true init steady))) = [0%nat] ∧
  dtsVersion (default init (run true init steady)) = 0.
Proof.
  destruct (stable_world_runs_once 5 steady (default init (run true init steady)))
    as (_ & _ & Hv & Hb & _).
  - vm_compute. reflexivity.
  - intros l w Hin Hw. unfold steady in Hin.
    repeat (apply elem_of_cons in Hin as [->|Hin]; [simpl in Hw; by simplify_eq|]).
    by apply elem_of_nil in Hin.
  - split; [exact Hb|exact Hv].
Defined.

(** ** The declaration side table *)

Lemma requests_rebuild v s : requests (log (rebuild v s)) = requests (log s).
Proof. unfold rebuild. by case_bool_decide. Qed.

Lemma settles_rebuild v s : settles (log (rebuild v s)) = settles (log s).
Proof. unfold rebuild. by case_bool_decide. Qed.

Lemma requests_dispose_pending s : requests (log (dispose_pending s)) = requests (log s).
Proof.
  unfold dispose_pending. destruct (_ && _); [|done]. simpl.
  unfold requests. by rewrite omap_app, omap_dispose.
Qed.

Lemma settles_dispose_pending s : settles (log (dispose_pending s)) = settles (log s).
Proof.
  unfold dispose_pending. destruct (_ && _); [|done]. simpl.
  unfold settles. by rewrite omap_app, omap_dispose.
Qed.

Lemma dtsFiles_rebuild v s : dtsFiles (rebuild v s) = dtsFiles s.
Proof. unfold rebuild. by case_bool_decide. Qed.

Lemma reading_rebuild v s : reading (rebuild v s) = reading s.
Proof. unfold rebuild. by case_bool_decide. Qed.

Lemma dtsFiles_dispose_pending s : dtsFiles (dispose_pending s) = dtsFiles s.
Proof. unfold dispose_pending. by destruct (_ && _). Qed.

Lemma reading_dispose_pending s : reading (dispose_pending s) = reading s.
Proof. unfold dispose_pending. by destruct (_ && _). Qed.

Lemma requests_dispose_fail i e n s :
  requests (log (set_call i (Done (Thrown e)) (emit (EvThrow i e) (dispose_fail n s))))
  = requests (log s).
Proof.
  change (requests (log (dispose_fail n s)) = requests (log s)).
  unfold dispose_fail. cbn [log]. unfold requests. by rewrite omap_app, omap_dispose.
Qed.

Lemma settles_dispose_fail i e n s :
  settles (log (set_call i (Done (Thrown e)) (emit (EvThrow i e) (dispose_fail n s))))
  = settles (log s).
Proof.
  change (settles (log (dispose_fail n s)) = settles (log s)).
  unfold dispose_fail. cbn [log]. unfold settles. by rewrite omap_app, omap_dispose.
Qed.

(** The blocks of the wrapper do not touch the side table. *)
Lemma call_step_dts h s l s' i :
  step h s l = Some s' → label_call l = Some i →
  requests (log s') = requests (log s) ∧ settles (log s') = settles (log s) ∧
  dtsFiles s' = dtsFiles s ∧ reading s' = reading s.
Proof.
  intros Hstep Hl.
  destruct l as [j|j v|j e|j r|j e|f|f text|f|j v e|j v n e]; simpl in Hstep, Hl; try done.
  - destruct (calls s !! j) as [p|]; [done|]. by destruct h; simplify_eq.
  - destruct (calls s !! j) as [[| |old k|old r|o]|]; try done.
    + by simplify_eq.
    + case_bool_decide; simplify_eq; unfold leave_ok, invoke; simpl;
        rewrite ?requests_dispose_pending, ?settles_dispose_pending,
          ?dtsFiles_dispose_pending, ?reading_dispose_pending,
          ?requests_rebuild, ?settles_rebuild, ?dtsFiles_rebuild, ?reading_rebuild;
        done.
  - destruct (calls s !! j) as [[| |old k|old r|o]|]; try done; by simplify_eq.
  - destruct (calls s !! j) as [[k| |old k|old r'|o]|]; try done; by simplify_eq.
  - destruct (calls s !! j) as [[k| |old k|old r'|o]|]; try done; by simplify_eq.
  - destruct (calls s !! j) as [[| |old k|old r|o]|]; try done.
    destruct (_ || _); [done|]. by simplify_eq.
  - destruct (calls s !! j) as [[| |old k|old r|o]|]; try done.
    destruct (_ && _); [|done]. simplify_eq. split_and!; [| |done|done].
    + by rewrite requests_dispose_fail.
    + by rewrite settles_dispose_fail.
Qed.

Lemma dts_step h s l s' : dts_inv s → step h s l = Some s' → dts_inv s'.
Proof.
  intros Hinv Hstep.
  destruct (label_call l) as [i|] eqn:Hl.
  { destruct (call_step_dts _ _ _ _ _ Hstep Hl) as (Hr & Hs & Hd & Hg).
    destruct Hinv as [H1 H2 H3 H4 H5 H6 H7].
    constructor; rewrite ?Hr, ?Hs, ?Hd, ?Hg; done. }
  destruct Hinv as [H1 H2 H3 H4 H5 H6 H7].
  destruct l as [j|j v|j e|j r|j e|f|f text|f|j v e|j v n e]; simpl in Hstep, Hl; try done.
  - simplify_eq. unfold readDtsFile.
    destruct (negb (bool_decide (is_Some (dtsFiles s !! f))) && h) eqn:Hc;
      [|by constructor].
    apply andb_true_iff in Hc as [Hnew _]. apply negb_true_iff in Hnew.
    apply bool_decide_eq_false in Hnew.
    assert (f ∉ requests (log s)) as Hnr by (by rewrite H2).
    assert (f ∉ reading s) as Hnread.
    { intros Hin. apply H4 in Hin as [Hf _]. apply Hnew. by rewrite Hf. }
    constructor; simpl.
    + by apply NoDup_cons.
    + intros g. rewrite elem_of_cons, H2. destruct (decide (g = f)) as [->|Hne].
      * rewrite lookup_insert_eq. split; [eauto|by left].
      * rewrite lookup_insert_ne by done. split; [by intros [?|?]|by right].
    + apply NoDup_app. split_and!; [done| |apply NoDup_singleton].
      intros g Hg Hg'. apply list_elem_of_singleton in Hg' as ->. done.
    + intros g Hg. apply elem_of_app in Hg as [Hg|Hg].
      * destruct (H4 g Hg) as [Hgf Hgs]. split; [|done].
        rewrite lookup_insert_ne; [done|]. by intros <-.
      * apply list_elem_of_singleton in Hg as ->. rewrite lookup_insert_eq. split; [done|].
        intros Hin. apply list_elem_of_fmap in Hin as ([g t] & -> & Hin).
        apply H6 in Hin as [Hgf _]. apply Hnew. simpl. by rewrite Hgf.
    + done.
    + intros g t Hin. destruct (H6 g t Hin) as [Hgf Hgr].
      assert (g ≠ f) as Hne by (intros ->; apply Hnew; by rewrite Hgf). split.
      * by rewrite lookup_insert_ne.
      * intros Hg. apply elem_of_app in Hg as [?|Hg]; [done|].
        by apply list_elem_of_singleton in Hg.
    + intros g t Hg. destruct (decide (g = f)) as [->|Hne].
      * by rewrite lookup_insert_eq in Hg.
      * rewrite lookup_insert_ne in Hg by done. by apply H7.
  - case_bool_decide as Hin; simplify_eq. destruct (H4 f Hin) as [Hf Hns].
    constructor; simpl.
    + done.
    + intros g. rewrite H2. destruct (decide (g = f)) as [->|Hne].
      * rewrite lookup_insert_eq, Hf. split; eauto.
      * by rewrite lookup_insert_ne.
    + by apply NoDup_filter.
    + intros g Hg. apply list_elem_of_filter in Hg as [Hne Hg].
      destruct (H4 g Hg) as [Hgf Hgs]. rewrite lookup_insert_ne by done. split; [done|].
      rewrite not_elem_of_cons. done.
    + by apply NoDup_cons.
    + intros g t Hg. apply elem_of_cons in Hg as [[= -> ->]|Hg].
      * rewrite lookup_insert_eq. split; [done|].
        intros Hg. by apply list_elem_of_filter in Hg as [? _].
      * destruct (H6 g t Hg) as [Hgf Hgr].
        assert (g ≠ f) as Hne by (by intros ->). rewrite lookup_insert_ne by done.
        split; [done|]. intros Hg'. by apply list_elem_of_filter in Hg' as [_ ?].
    + intros g t Hg. destruct (decide (g = f)) as [->|Hne].
      * rewrite lookup_insert_eq in Hg. simplify_eq. by left.
      * rewrite lookup_insert_ne in Hg by done. right. by apply H7.
  - case_bool_decide as Hin; simplify_eq. constructor; simpl; try done.
    + by apply NoDup_filter.
    + intros g Hg. apply list_elem_of_filter in Hg as [_ Hg]. by apply H4.
    + intros g t Hg. destruct (H6 g t Hg) as [Hgf Hgr]. split; [done|].
      intros Hg'. by apply list_elem_of_filter in Hg' as [_ ?].
Qed.

Lemma dts_init : dts_inv init.
Proof.
  constructor; simpl; try done; try apply NoDup_nil_2.
  - intros f. rewrite lookup_empty. split; [by intros ?%elem_of_nil|by intros [? ?]].
  - intros f Hf. by apply elem_of_nil in Hf.
  - intros f t Hf. by apply elem_of_nil in Hf.
Qed.

(** X16.  The side table [dtsFiles].  In every reachable state each file
    has been asked of the declaration host at most once (also after the
    host rejected: a failed read is not retried), the asked files are the
    keys of [dtsFiles], line 207 has stored a value for a file at most
    once, the table holds that value from then on, and a text in the table
    was stored by line 207. *)
Theorem declaration_read_once h ls s :
  run h init ls = Some s →
  NoDup (requests (log s)) ∧ NoDup (settles (log s)).*1 ∧
  (∀ f, f ∈ requests (log s) ↔ is_Some (dtsFiles s !! f)) ∧
  (∀ f t, (f, t) ∈ settles (log s) → dtsFiles s !! f = Some t) ∧
  (∀ f t, dtsFiles s !! f = Some (Some t) → (f, Some t) ∈ settles (log s)).
Proof.
  intros Hrun.
  assert (dts_inv s) as [H1 H2 H3 H4 H5 H6 H7].
  { eapply (run_invariant h dts_inv); [apply dts_step|apply dts_init|done]. }
  split_and!; try done. intros f t Hin. by apply H6.
Qed.

Lemma declaration_read_once_witness :
  requests (log (default init (run true init overlap)))
    = ["/node_modules/foo/index.d.ts"] ∧
  NoDup (requests (log (default init (run true init overlap)))).
Proof.
  split; [vm_compute; reflexivity|].
  apply (declaration_read_once true overlap). vm_compute. reflexivity.
Defined.

End ProxyFacts.

Module StrFacts.
Import Str.
Local Open Scope nat_scope.

(** ** Strings *)

Lemma sapp_cons c (s t : string) : String c s +:+ t = String c (s +:+ t).
Proof. reflexivity. Qed.

Lemma sapp_assoc (a b c : string) : (a +:+ b) +:+ c = a +:+ b +:+ c.
Proof. induction a as [|x a IH]; [done|]. rewrite !sapp_cons. by rewrite IH. Qed.

Lemma sapp_nil_r (a : string) : a +:+ "" = a.
Proof. induction a as [|x a IH]; [done|]. rewrite sapp_cons. by rewrite IH. Qed.

Lemma sapp_length (a b : string) :
  String.length (a +:+ b) = String.length a + String.length b.
Proof. induction a as [|x a IH]; [done|]. rewrite sapp_cons. simpl. by rewrite IH. Qed.

Lemma sapp_inv_head (a b c : string) : a +:+ b = a +:+ c → b = c.
Proof. induction a as [|x a IH]; [done|]. rewrite !sapp_cons. intros [=]. auto. Qed.

Lemma startsWith_nil (s : string) : startsWith s "" = true.
Proof. by destruct s. Qed.

Lemma startsWith_app (p t : string) : startsWith (p +:+ t) p = true.
Proof.
  induction p as [|c p IH]; [apply startsWith_nil|].
  rewrite sapp_cons. simpl. by rewrite Ascii.eqb_refl.
Qed.

Lemma startsWith_inv (s p : string) :
  startsWith s p = true → ∃ t, s = p +:+ t.
Proof.
  revert s. induction p as [|c p IH]; intros s.
  - intros _. by exists s.
  - destruct s as [|d s]; [done|]. simpl.
    intros [Hc Hp]%andb_true_iff. apply Ascii.eqb_eq in Hc as ->.
    destruct (IH _ Hp) as [t ->]. by exists t.
Qed.

Lemma slice_app (p t : string) : slice (String.length p) (p +:+ t) = t.
Proof. induction p as [|c p IH]; [by destruct t|]. rewrite sapp_cons. done. Qed.

Lemma endsWith_app (a suf : string) : endsWith (a +:+ suf) suf = true.
Proof.
  unfold endsWith. rewrite sapp_length.
  replace (String.length a + String.length suf - String.length suf)
    with (String.length a) by lia.
  rewrite slice_app, String.eqb_refl, andb_true_r.
  apply Nat.leb_le. lia.
Qed.

Lemma find_unfold (pat s : string) :
  find pat s =
  if startsWith s pat then Some ("", slice (String.length pat) s)
  else match s with
       | EmptyString => None
       | String c s' =>
           match find pat s' with
           | Some (b, a) => Some (String c b, a)
           | None => None
           end
       end.
Proof. by destruct s. Qed.

Lemma find_prefix (p t : string) : find p (p +:+ t) = Some ("", t).
Proof. by rewrite find_unfold, startsWith_app, slice_app. Qed.

Lemma find_spec (pat s b a : string) :
  find pat s = Some (b, a) → s = b +:+ pat +:+ a.
Proof.
  revert b. induction s as [|c s IH]; intros b; rewrite find_unfold.
  - destruct (startsWith "" pat) eqn:Hp; [|done].
    intros [= <- <-]. apply startsWith_inv in Hp as [t Ht].
    destruct pat; [done|done].
  - destruct (startsWith (String c s) pat) eqn:Hp.
    + intros [= <- <-]. apply startsWith_inv in Hp as [t Ht].
      rewrite Ht at 2. by rewrite slice_app.
    + destruct (find pat s) as [[b' a']|]; [|done].
      intros [= <- <-]. rewrite sapp_cons. f_equal. by apply IH.
Qed.

Lemma free_of_app c (a b : string) :
  free_of c (a +:+ b) = free_of c a && free_of c b.
Proof.
  induction a as [|x a IH]; [done|].
  rewrite sapp_cons. simpl. rewrite IH. by rewrite andb_assoc.
Qed.

(** A replacement text without [$] is inserted as it is. *)
Lemma getSubstitution_plain (m b a rep : string) :
  free_of "$" rep = true → getSubstitution m b a rep = rep.
Proof.
  induction rep as [|c rep IH]; [done|].
  cbn [free_of getSubstitution].
  intros [Hc Hrep]%andb_true_iff. apply negb_true_iff in Hc.
  rewrite Hc. by rewrite IH.
Qed.

Lemma replace_prefix (p t rep : string) :
  free_of "$" rep = true → replace (p +:+ t) p rep = rep +:+ t.
Proof.
  intros Hrep. unfold replace. rewrite find_prefix.
  by rewrite getSubstitution_plain.
Qed.

(** Splitting at a separator. *)

Lemma split1_cons sep c (s : string) :
  split1 sep (String c s) =
  if Ascii.eqb c sep then ("", split sep s)
  else ((String c (split1 sep s).1), (split1 sep s).2).
Proof. unfold split. cbn [split1]. by destruct (split1 sep s), (Ascii.eqb c sep). Qed.

Lemma split_free sep (a : string) :
  free_of sep a = true → split sep a = [a].
Proof.
  unfold split. induction a as [|c a IH]; [done|].
  cbn [free_of]. intros [Hc Ha]%andb_true_iff. apply negb_true_iff in Hc.
  rewrite split1_cons, Hc. specialize (IH Ha).
  destruct (split1 sep a) as [x r]. simpl. by simplify_eq.
Qed.

Lemma split_app sep (a b : string) :
  free_of sep a = true →
  split sep (a +:+ String sep b) = a :: split sep b.
Proof.
  unfold split. induction a as [|c a IH].
  - intros _. change ("" +:+ String sep b) with (String sep b).
    rewrite split1_cons, Ascii.eqb_refl. done.
  - cbn [free_of]. intros [Hc Ha]%andb_true_iff. apply negb_true_iff in Hc.
    rewrite sapp_cons, split1_cons, Hc. specialize (IH Ha).
    destruct (split1 sep (a +:+ String sep b)) as [x r]. simpl.
    destruct (split1 sep b). by simplify_eq.
Qed.

Lemma split_segments sep (s : string) :
  Forall (λ x, free_of sep x = true) (split sep s).
Proof.
  unfold split. induction s as [|c s IH]; [by repeat constructor|].
  rewrite split1_cons. destruct (Ascii.eqb c sep) eqn:Hc.
  - constructor; [done|]. unfold split. by destruct (split1 sep s).
  - destruct (split1 sep s) as [x r]. simpl.
    apply Forall_cons in IH as [Hx Hr]. constructor; [|done].
    simpl. by rewrite Hc, Hx.
Qed.

Lemma app_sep_inj sep (a a' b b' : string) :
  free_of sep a = true → free_of sep a' = true →
  a +:+ String sep b = a' +:+ String sep b' → a = a' ∧ b = b'.
Proof.
  revert a'. induction a as [|c a IH]; intros [|c' a'].
  - intros _ _ [=]. done.
  - cbn [free_of]. intros _ [Hc _]%andb_true_iff. rewrite sapp_cons.
    intros [= <- _]. by rewrite Ascii.eqb_refl in Hc.
  - cbn [free_of]. intros [Hc _]%andb_true_iff _. rewrite sapp_cons.
    intros [= -> _]. by rewrite Ascii.eqb_refl in Hc.
  - cbn [free_of]. intros [_ Ha]%andb_true_iff [_ Ha']%andb_true_iff.
    rewrite !sapp_cons. intros [= -> Heq].
    destruct (IH _ Ha Ha' Heq) as [-> ->]. done.
Qed.

Lemma startsWith_free (s : string) c (p : string) :
  startsWith s (String c p) = true → startsWith s (String c "") = true.
Proof.
  destruct s as [|d s]; [done|]. simpl.
  intros [-> _]%andb_true_iff. done.
Qed.

End StrFacts.

Module CdnFacts.
Import Str Cdn StrFacts.
Local Open Scope nat_scope.

(** ** Package names and the depth of nesting *)

Lemma pkgNameOf_shim f pkg :
  pkgNameOf f = Some pkg → startsWith pkg "@types/" = true →
  ∃ seg, pkg = "@types/" +:+ seg ∧ free_of "/" seg = true.
Proof.
  unfold pkgNameOf. intros Hpkg Hshim.
  pose proof (split_segments "/" f) as Hsegs.
  destruct (split "/" f !! 2) as [seg2|] eqn:H2; [|done].
  assert (free_of "/" seg2 = true) as Hf2.
  { rewrite Forall_lookup in Hsegs. by eapply Hsegs. }
  destruct (startsWith seg2 "@") eqn:Hat; simplify_eq.
  - assert (free_of "/" (ofUndefined (split "/" f !! 3)) = true) as Hf3.
    { destruct (split "/" f !! 3) as [seg3|] eqn:H3; [|done].
      rewrite Forall_lookup in Hsegs. by eapply Hsegs. }
    apply startsWith_inv in Hshim as [t Ht].
    change ("@types/" +:+ t) with ("@types" +:+ String "/" t) in Ht.
    change (seg2 +:+ "/" +:+ ofUndefined (split "/" f !! 3))
      with (seg2 +:+ String "/" (ofUndefined (split "/" f !! 3))) in Ht.
    apply app_sep_inj in Ht as [-> <-]; [|done|done].
    by eexists.
  - apply (startsWith_free _ "@" "types/") in Hshim. congruence.
Qed.

Lemma split_node_modules (x : string) :
  split "/" ("/node_modules/" +:+ x) = "" :: "node_modules" :: split "/" x.
Proof.
  change ("/node_modules/" +:+ x) with ("" +:+ String "/" ("node_modules" +:+ String "/" x)).
  rewrite split_app by done. by rewrite split_app.
Qed.

Lemma pkgNameOf_node_modules_free (a rest : string) :
  free_of "/" a = true →
  pkgNameOf ("/node_modules/" +:+ a +:+ "/" +:+ rest) =
  if startsWith a "@" then Some (a +:+ "/" +:+ ofUndefined (head (split "/" rest)))
  else Some a.
Proof.
  intros Ha. unfold pkgNameOf. rewrite split_node_modules.
  change (a +:+ "/" +:+ rest) with (a +:+ String "/" rest).
  rewrite split_app by done. cbn [lookup list_lookup].
  destruct (startsWith a "@"); [|done].
  unfold split. by destruct (split1 "/" rest).
Qed.

Lemma startsWith_shim_free (a t : string) :
  free_of "/" a = true →
  startsWith (a +:+ "/" +:+ t) "@types/" = true → a = "@types".
Proof.
  intros Ha Hs. apply startsWith_inv in Hs as [u Hu].
  change ("@types/" +:+ u) with ("@types" +:+ String "/" u) in Hu.
  change (a +:+ "/" +:+ t) with (a +:+ String "/" t) in Hu.
  by apply app_sep_inj in Hu as [-> _].
Qed.

Lemma startsWith_free_false (a p : string) c :
  free_of c a = true → startsWith a (p +:+ String c "") = false.
Proof.
  revert a. induction p as [|d p IH]; intros [|x a]; try done.
  - cbn [free_of]. intros [Hx _]%andb_true_iff. apply negb_true_iff in Hx.
    change ("" +:+ String c "") with (String c ""). simpl.
    by rewrite Ascii.eqb_sym, Hx.
  - cbn [free_of]. intros [_ Ha]%andb_true_iff. rewrite sapp_cons. simpl.
    rewrite IH by done. apply andb_false_r.
Qed.

Lemma nesting_shim f seg :
  pkgNameOf f = Some ("@types/" +:+ seg) →
  nesting f = S (2 * String.length seg + (if String.eqb seg "@types" then 13 else 0)).
Proof.
  intros Hpkg. unfold nesting. rewrite Hpkg, startsWith_app.
  change (String.length "@types/") with (String.length "@types/").
  by rewrite slice_app.
Qed.

Lemma nesting_manifest f pkg :
  pkgNameOf f = Some pkg → startsWith pkg "@types/" = true →
  nesting (manifestOf (originalOf pkg)) < nesting f.
Proof.
  intros Hpkg Hshim.
  destruct (pkgNameOf_shim _ _ Hpkg Hshim) as (seg & -> & Hseg).
  rewrite (nesting_shim _ _ Hpkg).
  unfold originalOf. rewrite slice_app. unfold contains, manifestOf.
  destruct (find "__" seg) as [[s1 s2]|] eqn:Hfind.
  - unfold replace. rewrite Hfind.
    change (getSubstitution "__" s1 s2 "/") with "/".
    apply find_spec in Hfind. subst seg.
    rewrite !free_of_app in Hseg.
    apply andb_true_iff in Hseg as [H1 [_ H2]%andb_true_iff].
    replace ("/node_modules/" +:+ ("@" +:+ s1 +:+ "/" +:+ s2) +:+ "/package.json")
      with ("/node_modules/" +:+ ("@" +:+ s1) +:+ "/" +:+ (s2 +:+ String "/" "package.json"))
      by (by rewrite !sapp_assoc).
    unfold nesting. rewrite pkgNameOf_node_modules_free by (by rewrite free_of_app, H1).
    change (startsWith ("@" +:+ s1) "@") with true. cbn iota.
    rewrite split_app by done. cbn [head ofUndefined].
    destruct (startsWith (("@" +:+ s1) +:+ "/" +:+ s2) "@types/") eqn:Hs; [|lia].
    pose proof Hs as Hs'.
    apply startsWith_shim_free in Hs'; [|by rewrite free_of_app, H1].
    assert (s1 = "types") as ->.
    { change ("@" +:+ s1) with (String "@" s1) in Hs'. by injection Hs'. }
    change (("@" +:+ "types") +:+ "/" +:+ s2) with ("@types/" +:+ s2).
    rewrite slice_app, !sapp_length. cbn [String.length].
    repeat match goal with
           | |- context [String.eqb ?a ?b] => destruct (String.eqb a b)
           end; lia.
  - change ("/node_modules/" +:+ seg +:+ "/package.json")
      with ("/node_modules/" +:+ seg +:+ "/" +:+ "package.json").
    unfold nesting. rewrite pkgNameOf_node_modules_free by done.
    destruct (startsWith seg "@") eqn:Hat.
    + change (ofUndefined (head (split "/" "package.json"))) with "package.json".
      destruct (startsWith (seg +:+ "/" +:+ "package.json") "@types/") eqn:Hs; [|lia].
      apply startsWith_shim_free in Hs as ->; [|done]. vm_compute. lia.
    + change "@types/" with ("@types" +:+ String "/" "").
      rewrite startsWith_free_false by done. lia.
Qed.

(** ** The version pin *)

Lemma dir_app (key rest : string) :
  "/node_modules/" +:+ key +:+ "/" +:+ rest = ("/node_modules/" +:+ key +:+ "/") +:+ rest.
Proof. by rewrite !sapp_assoc. Qed.

Lemma resolve_pinned entries pkg ver rest :
  (pkg, ver) ∈ entries →
  (∀ k v, (k, v) ∈ entries →
     startsWith ("/node_modules/" +:+ pkg +:+ "/" +:+ rest)
                ("/node_modules/" +:+ k +:+ "/") = true → k = pkg ∧ v = ver) →
  free_of "$" pkg = true → free_of "$" ver = true →
  resolveRequestFileName entries ("/node_modules/" +:+ pkg +:+ "/" +:+ rest)
  = "/node_modules/" +:+ pkg +:+ "@" +:+ ver +:+ "/" +:+ rest.
Proof.
  intros Hin Honly Hp Hv. induction entries as [|[k v] entries IH].
  - by apply elem_of_nil in Hin.
  - cbn [resolveRequestFileName].
    destruct (startsWith _ ("/node_modules/" +:+ k +:+ "/")) eqn:Hk.
    + destruct (Honly k v) as [-> ->]; [by left|done|].
      rewrite dir_app, replace_prefix.
      * by rewrite !sapp_assoc.
      * rewrite !free_of_app, Hp, Hv. done.
    + apply IH.
      * apply elem_of_cons in Hin as [Heq|Hin]; [|done].
        simplify_eq. by rewrite dir_app, startsWith_app in Hk.
      * intros k' v' Hin'. apply Honly. by right.
Qed.

(** C9 (as amended).  If the pin map has the entry [pkg ↦ ver], [pkg] is the only key
    of the map whose directory [/node_modules/key/] begins the path, and
    neither [pkg] nor [ver] contains the character [$] (which
    [String.prototype.replace] would interpret), then for a path
    [/node_modules/pkg/rest] the request file name is
    [/node_modules/pkg@ver/rest], the URL is [cdn] followed by
    [pkg@ver/rest], and that is the URL [fetchFile] hands to [fetchText]. *)
Theorem pinned_request_url H pkg ver rest self s :
  (pkg, ver) ∈ versions H →
  (∀ k v, (k, v) ∈ versions H →
     startsWith ("/node_modules/" +:+ pkg +:+ "/" +:+ rest)
                ("/node_modules/" +:+ k +:+ "/") = true → k = pkg ∧ v = ver) →
  free_of "$" pkg = true → free_of "$" ver = true →
  resolveRequestFileName (versions H) ("/node_modules/" +:+ pkg +:+ "/" +:+ rest)
    = "/node_modules/" +:+ pkg +:+ "@" +:+ ver +:+ "/" +:+ rest ∧
  requestUrl H ("/node_modules/" +:+ pkg +:+ "/" +:+ rest)
    = cdn H +:+ pkg +:+ "@" +:+ ver +:+ "/" +:+ rest ∧
  promises (fetch_stage H self ("/node_modules/" +:+ pkg +:+ "/" +:+ rest) s)
    = promises s ++
      [(OFetchText self ("/node_modules/" +:+ pkg +:+ "/" +:+ rest)
                   (cdn H +:+ pkg +:+ "@" +:+ ver +:+ "/" +:+ rest), Pending)].
Proof.
  intros Hin Honly Hp Hv.
  pose proof (resolve_pinned _ _ _ _ Hin Honly Hp Hv) as Hres.
  assert (requestUrl H ("/node_modules/" +:+ pkg +:+ "/" +:+ rest)
          = cdn H +:+ pkg +:+ "@" +:+ ver +:+ "/" +:+ rest) as Hurl.
  { unfold requestUrl. rewrite Hres. done. }
  split_and!; [done|done|].
  unfold fetch_stage. simpl. by rewrite Hurl.
Qed.

Lemma pinned_request_url_witness :
  requestUrl (jsdelivr false) "/node_modules/lodash/package.json"
  = "https://cdn.jsdelivr.net/npm/lodash@4.17.21/package.json".
Proof.
  refine (proj1 (proj2 (pinned_request_url (jsdelivr false) "lodash" "4.17.21"
                          "package.json" 0 init _ _ _ _))).
  - by left.
  - intros k v Hin _. apply list_elem_of_singleton in Hin. by simplify_eq.
  - reflexivity.
  - reflexivity.
Defined.

(** C9 (as worded) fails: line 346 passes the new directory to
    [String.prototype.replace] as the replacement, where [$&] stands for
    the matched text; with the pin [lodash ↦ 1$&] the request for
    [/node_modules/lodash/package.json] goes to
    [lodash@1/node_modules/lodash//package.json]. *)
Lemma pin_with_dollar_pattern : ¬ pin_rewrites.
Proof.
  intros Hclaim.
  pose proof (Hclaim dollar_pin "lodash" "1$&" "package.json" eq_refl) as Hu.
  vm_compute in Hu. discriminate.
Qed.

Example dollar_pin_url :
  requestUrl dollar_pin "/node_modules/lodash/package.json"
  = "https://cdn.jsdelivr.net/npm/lodash@1/node_modules/lodash//package.json".
Proof. vm_compute. reflexivity. Qed.

(** It also fails when the directory of an earlier key of the pin map
    begins the path: the loop of lines 344-349 returns at the first key
    that matches. *)
Example nested_pins_url :
  map_get "@babel/core" (versions nested_pins) = Some "7.24.0" ∧
  requestUrl nested_pins "/node_modules/@babel/core/package.json"
  = "https://cdn.jsdelivr.net/npm/@babel@7/core/package.json".
Proof. split; vm_compute; reflexivity. Qed.

(** The scenario of the specification, run: the first read of the manifest
    of a pinned package asks [fetchText] for the pinned URL. *)
Example lodash_is_pinned :
  promises <$> run (jsdelivr false) init [LRead "/node_modules/lodash/package.json"]
  = Some [(OFetchFile "/node_modules/lodash/package.json", Pending);
          (OFetchText 0 "/node_modules/lodash/package.json"
             "https://cdn.jsdelivr.net/npm/lodash@4.17.21/package.json", Pending)].
Proof. vm_compute. reflexivity. Qed.

(** ** Maps with insertion order *)

Lemma map_get_app {A} k (m m' : list (string * A)) :
  map_get k (m ++ m') =
  match map_get k m with Some v => Some v | None => map_get k m' end.
Proof.
  induction m as [|[k' v] m IH]; [done|]. simpl.
  by destruct (String.eqb k' k).
Qed.

Lemma map_get_None {A} k (m : list (string * A)) :
  map_get k m = None ↔ k ∉ m.*1.
Proof.
  induction m as [|[k' v] m IH]; simpl.
  - split; [intros _; apply not_elem_of_nil|done].
  - rewrite not_elem_of_cons. destruct (String.eqb k' k) eqn:Hk.
    + apply String.eqb_eq in Hk. subst k'. split; [done|]. intros [Hne _]. done.
    + apply String.eqb_neq in Hk. rewrite IH.
      split; [intros ?; split; [congruence|done]|by intros [_ ?]].
Qed.

Lemma map_get_Some_elem {A} k (v : A) (m : list (string * A)) :
  map_get k m = Some v → (k, v) ∈ m.
Proof.
  induction m as [|[k' v'] m IH]; [done|]. simpl.
  destruct (String.eqb k' k) eqn:Hk.
  - apply String.eqb_eq in Hk as ->. intros [= ->]. by left.
  - intros Hm. right. by apply IH.
Qed.

Lemma map_set_absent {A} k (v : A) (m : list (string * A)) :
  map_get k m = None → map_set k v m = m ++ [(k, v)].
Proof.
  induction m as [|[k' v'] m IH]; [done|]. simpl.
  destruct (String.eqb k' k); [done|]. intros Hm. by rewrite IH.
Qed.

Lemma map_get_snoc {A} k k' (v : A) (m : list (string * A)) :
  map_get k' (m ++ [(k, v)]) =
  match map_get k' m with
  | Some x => Some x
  | None => if String.eqb k k' then Some v else None
  end.
Proof. by rewrite map_get_app. Qed.

(** ** Promises only settle once, files are only added *)

Lemma ext_refl s : ext s s.
Proof.
  constructor; [by exists []; rewrite app_nil_r|done| |by exists []].
  intros p o r Hp. eauto.
Qed.

Lemma ext_trans s1 s2 s3 : ext s1 s2 → ext s2 s3 → ext s1 s3.
Proof.
  intros [[fs Hf] Hl Hp [n Hr]] [[fs' Hf'] Hl' Hp' [n' Hr']]. constructor.
  - exists (fs ++ fs'). by rewrite Hf', Hf, app_assoc.
  - lia.
  - intros p o r H1. destruct (Hp _ _ _ H1) as (r' & H2 & Hr2).
    destruct (Hp' _ _ _ H2) as (r'' & H3 & Hr3). exists r''. split; [done|].
    intros Hne. rewrite Hr3; [by apply Hr2|]. rewrite Hr2; done.
  - exists (n' ++ n). by rewrite Hr', Hr, app_assoc.
Qed.

Lemma ext_length s s' : ext s s' → length (promises s) ≤ length (promises s').
Proof.
  intros [_ _ Hp _]. destruct (decide (length (promises s) = 0)) as [|Hne]; [lia|].
  destruct (lookup_lt_is_Some_2 (promises s) (length (promises s) - 1)) as [[o r] Hx]; [lia|].
  destruct (Hp _ _ _ Hx) as (r' & Hx' & _). apply lookup_lt_Some in Hx'. lia.
Qed.

Lemma ext_state s s' p : ext s s' → state_of s p ≠ Pending → state_of s' p = state_of s p.
Proof.
  intros [_ _ Hp _] Hne. unfold state_of in *.
  destruct (promises s !! p) as [[o r]|] eqn:Hx; [|done].
  destruct (Hp _ _ _ Hx) as (r' & Hx' & Hr). rewrite Hx'. by apply Hr.
Qed.

Lemma ext_map_get s s' f p :
  ext s s' → map_get f (files s) = Some p → map_get f (files s') = Some p.
Proof. intros [[fs ->] _ _ _] Hf. by rewrite map_get_app, Hf. Qed.

Lemma ext_alloc o s : ext s (alloc o s).1.
Proof.
  constructor; simpl; [by exists []; rewrite app_nil_r|done| |by exists []].
  intros p o' r Hp. exists r. split; [|done]. by apply lookup_app_l_Some.
Qed.

Lemma ext_settle p r s : state_of s p = Pending → ext s (settle p r s).
Proof.
  intros Hp. constructor; simpl; [by exists []; rewrite app_nil_r|done| |by exists []].
  intros q o r' Hq. destruct (decide (p = q)) as [->|Hne].
  - rewrite list_lookup_alter_eq, Hq. simpl. exists r. split; [done|].
    unfold state_of in Hp. rewrite Hq in Hp. by subst.
  - rewrite list_lookup_alter_ne by done. eauto.
Qed.

Lemma ext_tasks ts s : ext s (set_tasks ts s).
Proof.
  constructor; simpl; [by exists []; rewrite app_nil_r|done| |by exists []]. eauto.
Qed.

Lemma ext_flatResult fr s : ext s (set_flatResult fr s).
Proof.
  constructor; simpl; [by exists []; rewrite app_nil_r|done| |by exists []]. eauto.
Qed.

Lemma ext_files_snoc f p s : ext s (set_files (files s ++ [(f, p)]) s).
Proof.
  constructor; simpl; [by eexists|done| |by exists []]. eauto.
Qed.

Lemma state_of_alloc o s : state_of (alloc o s).1 (length (promises s)) = Pending.
Proof. unfold state_of. simpl. by rewrite list_lookup_middle. Qed.

Lemma ext_fetch_stage H self f s : ext s (fetch_stage H self f s).
Proof.
  unfold fetch_stage. simpl. eapply ext_trans; [apply ext_alloc|]. apply ext_tasks.
Qed.

Lemma ext_flat_stage H self f pkg s : ext s (flat_stage H self f pkg s).
Proof.
  unfold flat_stage. destruct (map_get pkg (flatResult s)); simpl.
  - apply ext_tasks.
  - eapply ext_trans; [apply ext_alloc|].
    eapply ext_trans; [apply ext_flatResult|]. apply ext_tasks.
Qed.

(** ** What one call of [readFile] does

    [grows] describes the state [s'] after a call of [readFile] or
    [fetchFile] made in [s]: nothing that existed is disturbed, and
    everything new (promises with number [length (promises s)] or more,
    their suspended computations, the files registered) is accounted for.
    [pend] is the file whose [fetchFile] has returned but which line 286
    has not stored yet. *)

(** ** [readFile] and [fetchFile] grow the state *)

Lemma eligible_manifest orig : eligible (manifestOf orig) = true.
Proof.
  unfold eligible, manifestOf. rewrite startsWith_app. simpl.
  rewrite <-sapp_assoc, endsWith_app. apply orb_true_r.
Qed.

Lemma eligible_index orig : eligible (indexOf orig) = true.
Proof.
  unfold eligible, indexOf. rewrite startsWith_app. simpl.
  change "/index.d.ts" with ("/index" +:+ ".d.ts").
  rewrite <-!sapp_assoc, endsWith_app. done.
Qed.

Lemma grows_fresh H bound pend s s' : fresh s → grows H bound pend s s' → fresh s'.
Proof.
  intros Hf Hg self Hle. pose proof (ext_length _ _ (gr_ext _ _ _ _ _ Hg)) as Hlen.
  destruct (tasks s' !! self) as [[ws k]|] eqn:Ht; [|done].
  apply (gr_new_tasks _ _ _ _ _ Hg) in Ht as [Hp _]; [|lia].
  apply lookup_lt_Some in Hp. lia.
Qed.

Lemma grows_refl H bound s : fresh s → grows H bound None s s.
Proof.
  intros Hfresh. constructor; try done.
  - apply ext_refl.
  - exists []. split; [by rewrite app_nil_r|]. intros g Hg. by apply elem_of_nil in Hg.
  - intros self ws k Hle Ht. rewrite Hfresh in Ht; done.
  - intros p o r Hle Hp. apply lookup_lt_Some in Hp. lia.
Qed.

(** The cases of [fetchFile] that call neither [readFile] nor touch
    [files]. *)
Lemma grows_simple H bound pend s s' news :
  fresh s →
  files s' = files s → lastUpdateFilesSize s' = lastUpdateFilesSize s →
  returned s' = returned s → promises s' = promises s ++ news →
  (∀ self, self ≠ length (promises s) → tasks s' !! self = tasks s !! self) →
  (∀ ws k, tasks s' !! length (promises s) = Some (ws, k) →
           new_task H s' (length (promises s)) ws k) →
  (∀ i o r, news !! i = Some (o, r) →
            new_promise H (length (promises s)) pend s' (length (promises s) + i) o r) →
  grows H bound pend s s'.
Proof.
  intros Hfresh Hfiles Hlast Hret Hproms Htasks Hnew Hnews. constructor; try done.
  - constructor.
    + exists []. by rewrite app_nil_r.
    + lia.
    + intros p o r Hp. exists r. split; [|done]. rewrite Hproms. by apply lookup_app_l_Some.
    + exists []. by rewrite Hret.
  - exists []. split; [by rewrite app_nil_r|]. intros g Hg. by apply elem_of_nil in Hg.
  - intros p Hlt. rewrite Hproms. by apply lookup_app_l.
  - intros self Hlt. apply Htasks. lia.
  - intros self ws k Hle Ht.
    destruct (decide (self = length (promises s))) as [->|Hne]; [by apply Hnew|].
    rewrite Htasks, Hfresh in Ht; [done|lia|done].
  - intros p o r Hle Hp. rewrite Hproms, lookup_app_r in Hp by done.
    replace p with (length (promises s) + (p - length (promises s))) by lia.
    by apply Hnews.
Qed.

Lemma lookup_two {A} (x y : A) i z :
  [x; y] !! i = Some z → i = 0 ∧ z = x ∨ i = 1 ∧ z = y.
Proof. destruct i as [|[|i]]; simpl; intros [=]; auto. Qed.

Lemma lookup_one {A} (x : A) i z : [x] !! i = Some z → i = 0 ∧ z = x.
Proof. destruct i as [|i]; simpl; intros [=]; auto. Qed.

Lemma alter_snoc {A} (g : A → A) (l : list A) x :
  alter g (length l) (l ++ [x]) = l ++ [g x].
Proof. rewrite alter_app_r_alt by lia. by rewrite Nat.sub_diag. Qed.

Lemma grows_settled H bound s f r :
  fresh s →
  (r = Fulfilled (VText None) ∨
   r = Rejected TypeError ∧ hasFlat H = true ∧ pkgNameOf f = None) →
  grows H bound (Some (f, length (promises s))) s
    (settle (length (promises s)) r (alloc (OFetchFile f) s).1).
Proof.
  intros Hfresh Hr.
  apply (grows_simple _ _ _ _ _ [(OFetchFile f, r)]); try done.
  - simpl. by rewrite alter_snoc.
  - simpl. intros ws k Ht. by rewrite Hfresh in Ht.
  - intros i o r' [-> [= -> ->]]%lookup_one. rewrite Nat.add_0_r.
    unfold new_promise. split; [by right|]. right. tauto.
Qed.

Lemma grows_fetch_stage H bound s f :
  fresh s → hasFlat H = false →
  grows H bound (Some (f, length (promises s))) s
    (fetch_stage H (length (promises s)) f (alloc (OFetchFile f) s).1).
Proof.
  intros Hfresh Hflat.
  apply (grows_simple _ _ _ _ _
           [(OFetchFile f, Pending);
            (OFetchText (length (promises s)) f (requestUrl H f), Pending)]); try done.
  - simpl. by rewrite <-app_assoc.
  - simpl. intros self Hne. by rewrite lookup_insert_ne.
  - simpl. rewrite lookup_insert_eq. intros ws k [= <- <-]. split.
    + simpl. rewrite <-app_assoc, lookup_app_r, Nat.sub_diag by lia. done.
    + simpl. rewrite length_app, Nat.add_1_r. done.
  - intros i o r [[-> [= -> ->]]|[-> [= -> ->]]]%lookup_two; unfold new_promise; simpl.
    + rewrite Nat.add_0_r. split; [by right|]. left. split; [done|].
      by rewrite lookup_insert_eq.
    + rewrite length_app, !Nat.add_1_r, lookup_insert_eq. split_and!; done || lia.
Qed.

Lemma grows_flat_stage H bound s f pkg :
  fresh s → hasFlat H = true → pkgNameOf f = Some pkg →
  startsWith pkg "@types/" = false →
  grows H bound (Some (f, length (promises s))) s
    (flat_stage H (length (promises s)) f pkg (alloc (OFetchFile f) s).1).
Proof.
  intros Hfresh Hflat Hpkg Hshim. unfold flat_stage.
  destruct (map_get pkg (flatResult (alloc (OFetchFile f) s).1)) as [p0|] eqn:Hfr.
  - apply (grows_simple _ _ _ _ _ [(OFetchFile f, Pending)]); try done.
    + simpl. intros self Hne. by rewrite lookup_insert_ne.
    + simpl. rewrite lookup_insert_eq. intros ws k [= <- <-]. split; [|done].
      simpl. by rewrite list_lookup_middle.
    + intros i o r [-> [= -> ->]]%lookup_one. rewrite Nat.add_0_r.
      unfold new_promise. simpl.
      split; [by right|]. left. split; [done|]. by rewrite lookup_insert_eq.
  - apply (grows_simple _ _ _ _ _
             [(OFetchFile f, Pending);
              (OFlat pkg, Pending)]); try done.
    + simpl. by rewrite <-app_assoc.
    + simpl. intros self Hne. by rewrite lookup_insert_ne.
    + simpl. rewrite lookup_insert_eq. intros ws k [= <- <-]. split; [|done].
      simpl. rewrite <-app_assoc, lookup_app_r, Nat.sub_diag by lia. done.
    + intros i o r [[-> [= -> ->]]|[-> [= -> ->]]]%lookup_two;
        unfold new_promise; simpl; [|done].
      rewrite Nat.add_0_r. split; [by right|]. left. split; [done|].
      by rewrite lookup_insert_eq.
Qed.

Lemma new_task_mono H s1 s' self ws k :
  promises s' = promises s1 →
  (∀ g m, map_get g (files s1) = Some m → map_get g (files s') = Some m) →
  new_task H s1 self ws k → new_task H s' self ws k.
Proof.
  intros Hp Hf [H1 H2]. split; [by rewrite Hp|].
  destruct k; try done.
  destruct H2 as (? & ? & ? & ? & m & Hm & ?). split_and!; try done.
  exists m. split; [by apply Hf|done].
Qed.

Lemma new_promise_mono H base base' pend pend' s1 s' p o r :
  base' ≤ base → base ≤ p →
  (∀ g m, map_get g (files s1) = Some m → map_get g (files s') = Some m) →
  (∀ g q, pend = Some (g, q) → map_get g (files s') = Some q ∨ pend' = Some (g, q)) →
  (∀ self, base ≤ self → tasks s' !! self = tasks s1 !! self) →
  new_promise H base pend s1 p o r → new_promise H base' pend' s' p o r.
Proof.
  intros Hb Hp Hf Hpend Ht. unfold new_promise. destruct o as [f|self f u| |]; try done.
  - intros [Hreg Hst]. split.
    + destruct Hreg as [Hreg|Hreg]; [left; by apply Hf|by apply Hpend].
    + rewrite Ht by done. done.
  - intros (? & ? & ? & ? & ? & ?). rewrite Ht by done. split_and!; try done. lia.
Qed.

Lemma readFile_with_grows H fetch s f s' r :
  fetch_spec H fetch → fresh s → readFile_with fetch s f = Some (s', r) →
  grows H (S (nesting f)) None s s' ∧
  r = (if eligible f then map_get f (files s') else None) ∧
  (eligible f = true → is_Some r).
Proof.
  intros Hspec Hfresh. unfold readFile_with.
  destruct (eligible f) eqn:Hel.
  2:{ intros [= <- <-]. split; [by apply grows_refl|]. split; [done|]. intros [=]. }
  destruct (map_get f (files s)) as [p0|] eqn:Hget.
  { intros [= <- <-]. split; [by apply grows_refl|]. rewrite Hget. eauto. }
  destruct (fetch s f) as [[s1 p]|] eqn:Hfetch; [|done].
  intros [= <- <-].
  destruct (Hspec _ _ _ _ Hfresh Hget Hfetch) as [-> G].
  destruct (gr_files _ _ _ _ _ G) as (fs & Hfs & Hnest).
  assert (map_get f (files s1) = None) as Hget1.
  { rewrite Hfs, map_get_app, Hget. apply map_get_None. intros Hin.
    apply Hnest in Hin. lia. }
  rewrite (map_set_absent _ _ _ Hget1).
  assert (map_get f (files s1 ++ [(f, length (promises s))]) = Some (length (promises s)))
    as Hget2.
  { by rewrite map_get_snoc, Hget1, String.eqb_refl. }
  assert (∀ g m, map_get g (files s1) = Some m →
                 map_get g (files s1 ++ [(f, length (promises s))]) = Some m) as Hmono.
  { intros g m Hg. by rewrite map_get_app, Hg. }
  split; [|simpl; rewrite Hget2; eauto].
  constructor; simpl.
  - eapply ext_trans; [apply (gr_ext _ _ _ _ _ G)|apply ext_files_snoc].
  - exists (fs ++ [(f, length (promises s))]). split; [by rewrite Hfs, app_assoc|].
    intros g. rewrite fmap_app, elem_of_app. intros [Hg|Hg].
    + apply Hnest in Hg. lia.
    + simpl in Hg. apply list_elem_of_singleton in Hg as ->. lia.
  - apply (gr_last _ _ _ _ _ G).
  - apply (gr_ret _ _ _ _ _ G).
  - apply (gr_old_proms _ _ _ _ _ G).
  - apply (gr_old_tasks _ _ _ _ _ G).
  - intros self ws k Hle Ht.
    eapply new_task_mono; [| |by eapply (gr_new_tasks _ _ _ _ _ G)]; done.
  - intros p o r Hle Hp.
    eapply (new_promise_mono _ _ _ (Some (f, length (promises s))));
      [| | | | |by eapply (gr_new_proms _ _ _ _ _ G)]; try done.
    intros g q [= <- <-]. by left.
Qed.

Lemma fresh_alloc o s : fresh s → fresh (alloc o s).1.
Proof.
  intros Hf self. simpl. rewrite length_app. simpl. intros Hle. apply Hf. lia.
Qed.

Lemma fetchFile_go_grows H n : fetch_spec H (fetchFile_go H n).
Proof.
  induction n as [|n IH]; intros s f s1 p Hfresh Hget; [done|].
  cbn [fetchFile_go].
  destruct (alloc (OFetchFile f) s) as [s0 self] eqn:Halloc.
  assert (self = length (promises s)) as -> by (by injection Halloc).
  assert (s0 = (alloc (OFetchFile f) s).1) as -> by (by rewrite Halloc).
  clear Halloc.
  destruct (hasFlat H) eqn:Hflat.
  2:{ intros [= <- <-]. split; [done|]. by apply grows_fetch_stage. }
  destruct (pkgNameOf f) as [pkg|] eqn:Hpkg.
  2:{ intros [= <- <-]. split; [done|]. apply grows_settled; [done|]. by right. }
  destruct (_ || _).
  { intros [= <- <-]. split; [done|]. apply grows_settled; [done|]. by left. }
  destruct (_ || _).
  { intros [= <- <-]. split; [done|]. apply grows_settled; [done|]. by left. }
  destruct (startsWith pkg "@types/") eqn:Hshim.
  2:{ intros [= <- <-]. split; [done|]. by apply grows_flat_stage. }
  destruct (readFile_with _ _ _) as [[s2 r]|] eqn:Hread; [|done].
  intros [= <- <-]. split; [done|].
  pose proof (fresh_alloc (OFetchFile f) _ Hfresh) as Hfresh0.
  destruct (readFile_with_grows _ _ _ _ _ _ IH Hfresh0 Hread) as (G & Hr & Hsome).
  rewrite eligible_manifest in Hr. specialize (Hsome (eligible_manifest _)).
  destruct Hsome as [m Hm]. subst r.
  pose proof (nesting_manifest _ _ Hpkg Hshim) as Hnest.
  set (s0 := (alloc (OFetchFile f) s).1) in *.
  assert (length (promises s0) = S (length (promises s))) as Hlen0.
  { unfold s0. simpl. rewrite length_app. simpl. lia. }
  assert (promises s2 !! length (promises s) = Some (OFetchFile f, Pending)) as Hself.
  { rewrite (gr_old_proms _ _ _ _ _ G) by lia. unfold s0. simpl.
    by rewrite list_lookup_middle. }
  constructor; simpl.
  - eapply ext_trans; [apply ext_alloc|].
    eapply ext_trans; [apply (gr_ext _ _ _ _ _ G)|apply ext_tasks].
  - destruct (gr_files _ _ _ _ _ G) as (fs & Hfs & Hn). exists fs. split; [done|].
    intros g Hg. apply Hn in Hg. lia.
  - apply (gr_last _ _ _ _ _ G).
  - apply (gr_ret _ _ _ _ _ G).
  - intros q Hlt. rewrite (gr_old_proms _ _ _ _ _ G) by lia.
    unfold s0. simpl. by apply lookup_app_l.
  - intros self Hlt. rewrite lookup_insert_ne by lia.
    rewrite (gr_old_tasks _ _ _ _ _ G) by lia. done.
  - intros self ws k Hle.
    destruct (decide (self = length (promises s))) as [->|Hne].
    + rewrite lookup_insert_eq. intros [= <- <-]. split; [done|].
      split_and!; try done. exists m. by rewrite Hm.
    + rewrite lookup_insert_ne by done. intros Ht.
      eapply new_task_mono; [| |eapply (gr_new_tasks _ _ _ _ _ G); [|done]]; try done.
      lia.
  - intros q o r Hle Hq.
    destruct (decide (q = length (promises s))) as [->|Hne].
    + rewrite Hself in Hq. injection Hq as <- <-. unfold new_promise.
      split; [by right|]. left. split; [done|]. simpl. by rewrite lookup_insert_eq.
    + eapply (new_promise_mono _ (length (promises s0)) _ None);
        [| | | | |eapply (gr_new_proms _ _ _ _ _ G); [|done]]; try done; try lia.
      intros self Hs. simpl. rewrite lookup_insert_ne by lia. done.
Qed.

Lemma readFile_grows H s f s' r :
  fresh s → readFile H s f = Some (s', r) →
  grows H (S (nesting f)) None s s' ∧
  r = (if eligible f then map_get f (files s') else None) ∧
  (eligible f = true → is_Some r).
Proof.
  intros Hfresh Hread. eapply readFile_with_grows; [|done|done].
  intros s0 g s1 p. apply fetchFile_go_grows.
Qed.

(** ** [fetchFile] always comes back *)

Lemma fetchFile_go_total H n : ∀ s f, nesting f < n → is_Some (fetchFile_go H n s f).
Proof.
  induction n as [|n IH]; intros s f Hn; [lia|].
  cbn [fetchFile_go]. destruct (alloc (OFetchFile f) s) as [s0 self].
  destruct (hasFlat H); [|eauto].
  destruct (pkgNameOf f) as [pkg|] eqn:Hpkg; [|eauto].
  destruct (_ || _); [eauto|]. destruct (_ || _); [eauto|].
  destruct (startsWith pkg "@types/") eqn:Hshim; [|eauto].
  unfold readFile_with. rewrite eligible_manifest.
  destruct (map_get _ (files s0)); [eauto|].
  pose proof (nesting_manifest _ _ Hpkg Hshim) as Hnest.
  destruct (IH s0 (manifestOf (originalOf pkg))) as [[s1 p] ->]; [lia|]. eauto.
Qed.

Lemma readFile_total H s f : is_Some (readFile H s f).
Proof.
  unfold readFile, readFile_with. destruct (eligible f); [|eauto].
  destruct (map_get f (files s)); [eauto|].
  destruct (fetchFile_go_total H (S (nesting f)) s f) as [[s1 p] Hs]; [lia|].
  unfold fetchFile. rewrite Hs. eauto.
Qed.

(** ** Bookkeeping of promises and suspended computations

    [own] is the computation that is running, if any: its promise is
    pending and it has no entry in [tasks]. *)

Lemma wfA_init H : wfA H None init.
Proof. constructor; simpl; intros; simplify_eq; done. Qed.

Lemma wfA_fresh H own s : wfA H own s → fresh s.
Proof.
  intros W self Hle. destruct (tasks s !! self) as [[ws k]|] eqn:Ht; [|done].
  apply (a_task _ _ _ W) in Ht as [Hp _]. apply lookup_lt_Some in Hp. lia.
Qed.

Lemma state_of_lookup s p o r : promises s !! p = Some (o, r) → state_of s p = r.
Proof. unfold state_of. by intros ->. Qed.

(** The computation of [self] is taken off [tasks] to run. *)
Lemma A_delete H s self ws k :
  wfA H None s → tasks s !! self = Some (ws, k) → not_text k →
  wfA H (Some self) (set_tasks (delete self (tasks s)) s).
Proof.
  intros W Hself Hk. constructor; simpl.
  - intros self' ws' k' Ht. apply lookup_delete_Some in Ht as [Hne Ht].
    apply (a_task _ _ _ W) in Ht as [Hp _]. split; [done|congruence].
  - intros p f Hp. destruct (decide (p = self)) as [->|Hne]; [by right|].
    left. rewrite lookup_delete_ne by done.
    destruct (a_owned _ _ _ W _ _ Hp); done.
  - apply (a_reg _ _ _ W).
  - intros q self' f u r Hq. destruct (a_text _ _ _ W _ _ _ _ _ Hq) as (Hu & Hp & Ht).
    split_and!; try done. intros Hpend. specialize (Ht Hpend).
    destruct (decide (self' = self)) as [->|Hne].
    + rewrite Hself in Ht. injection Ht as _ ->. by destruct (Hk f).
    + by rewrite lookup_delete_ne.
  - apply (a_uniq _ _ _ W).
  - intros p [= <-]. apply (a_task _ _ _ W) in Hself as [Hp _]. by eapply lookup_lt_Some.
Qed.

(** The running computation suspends. *)
Lemma A_suspend H s self ws k :
  wfA H (Some self) s → promises s !! self = Some (korigin k, Pending) → not_text k →
  wfA H None (suspend self ws k s).
Proof.
  intros W Hself Hk. constructor; simpl.
  - intros self' ws' k' Ht. apply lookup_insert_Some in Ht as [[<- [= <- <-]]|[Hne Ht]].
    + done.
    + apply (a_task _ _ _ W) in Ht as [Hp _]. done.
  - intros p f Hp. left. destruct (decide (self = p)) as [->|Hne].
    + rewrite lookup_insert_eq. eauto.
    + rewrite lookup_insert_ne by done.
      destruct (a_owned _ _ _ W _ _ Hp) as [?|?]; [done|congruence].
  - apply (a_reg _ _ _ W).
  - intros q self' f u r Hq. destruct (a_text _ _ _ W _ _ _ _ _ Hq) as (Hu & Hp & Ht).
    split_and!; try done. intros Hpend. specialize (Ht Hpend).
    destruct (decide (self' = self)) as [->|Hne].
    + apply (a_task _ _ _ W) in Ht as [_ ?]. done.
    + by rewrite lookup_insert_ne.
  - apply (a_uniq _ _ _ W).
  - done.
Qed.

(** The running computation returns or throws. *)
Lemma A_settle_owner H s self r :
  wfA H (Some self) s → r ≠ Pending → wfA H None (settle self r s).
Proof.
  intros W Hr. constructor; simpl.
  - intros self' ws' k' Ht. apply (a_task _ _ _ W) in Ht as [Hp Hne].
    rewrite list_lookup_alter_ne by congruence. done.
  - intros p f Hp. destruct (decide (self = p)) as [->|Hne].
    + rewrite list_lookup_alter_eq in Hp.
      destruct (promises s !! p) as [[??]|]; simpl in Hp; congruence.
    + rewrite list_lookup_alter_ne in Hp by done.
      destruct (a_owned _ _ _ W _ _ Hp) as [?|?]; [by left|congruence].
  - intros p f r' Hp. destruct (decide (self = p)) as [->|Hne].
    + rewrite list_lookup_alter_eq in Hp.
      destruct (promises s !! p) as [[o r0]|] eqn:Hp0; simpl in Hp; [|done].
      injection Hp as -> _. by eapply (a_reg _ _ _ W).
    + rewrite list_lookup_alter_ne in Hp by done. by eapply (a_reg _ _ _ W).
  - intros q self' f u r' Hq.
    assert (∃ r0, promises s !! q = Some (OFetchText self' f u, r0)) as [r0 Hq0].
    { destruct (decide (self = q)) as [->|Hne].
      - rewrite list_lookup_alter_eq in Hq.
        destruct (promises s !! q) as [[o r0]|] eqn:Hp0; simpl in Hq; [|done].
        injection Hq as -> _. eauto.
      - rewrite list_lookup_alter_ne in Hq by done. eauto. }
    destruct (a_text _ _ _ W _ _ _ _ _ Hq0) as (Hu & [r1 Hp] & Ht).
    split_and!; [done| |].
    + destruct (decide (self = self')) as [->|Hne].
      * rewrite list_lookup_alter_eq, Hp. simpl. eauto.
      * rewrite list_lookup_alter_ne by done. eauto.
    + unfold state_of. simpl. destruct (decide (self = self')) as [->|Hne].
      * rewrite list_lookup_alter_eq, Hp. simpl. done.
      * rewrite list_lookup_alter_ne by done. intros Hpend. apply Ht.
        unfold state_of. done.
  - intros q q' self' f u r1 f' u' r2 Hq Hq'.
    assert (∀ x o r', alter (λ e, (e.1, r)) self (promises s) !! x = Some (o, r') →
                      ∃ r0, promises s !! x = Some (o, r0)) as Hback.
    { intros x o r' Hx. destruct (decide (self = x)) as [->|Hne].
      - rewrite list_lookup_alter_eq in Hx.
        destruct (promises s !! x) as [[o0 r0]|] eqn:Hp0; simpl in Hx; [|done].
        injection Hx as -> _. eauto.
      - rewrite list_lookup_alter_ne in Hx by done. eauto. }
    apply Hback in Hq as [? Hq]. apply Hback in Hq' as [? Hq'].
    by eapply (a_uniq _ _ _ W).
  - done.
Qed.

Lemma state_of_settle_ne p r s x : p ≠ x → state_of (settle p r s) x = state_of s x.
Proof. intros Hne. unfold state_of. simpl. by rewrite list_lookup_alter_ne. Qed.

Lemma state_of_settle_eq p r s o r0 :
  promises s !! p = Some (o, r0) → state_of (settle p r s) p = r.
Proof. intros Hp. unfold state_of. simpl. by rewrite list_lookup_alter_eq, Hp. Qed.

Lemma lookup_settle p r s x o r' :
  promises (settle p r s) !! x = Some (o, r') ↔
  ∃ r0, promises s !! x = Some (o, r0) ∧ r' = (if decide (p = x) then r else r0).
Proof.
  simpl. destruct (decide (p = x)) as [->|Hne].
  - rewrite list_lookup_alter_eq.
    destruct (promises s !! x) as [[o0 r0]|]; simpl.
    + split; [intros [= -> ->]; eauto|intros (r1 & [= -> ->] & ->); done].
    + split; [done|by intros (? & [=] & _)].
  - rewrite list_lookup_alter_ne by done. split; [eauto|].
    by intros (r0 & -> & ->).
Qed.

(** The computation suspended at line 340 returns, or any computation
    throws because an awaited promise is rejected. *)
Lemma A_settle_text H s self ws f r :
  wfA H None s → tasks s !! self = Some (ws, KText f) → r ≠ Pending →
  wfA H None (settle self r (set_tasks (delete self (tasks s)) s)).
Proof.
  intros W Hself Hr.
  destruct (a_task _ _ _ W _ _ _ Hself) as [Hps _]. simpl in Hps.
  constructor.
  - intros self' ws' k' Ht. simpl in Ht. apply lookup_delete_Some in Ht as [Hne Ht].
    apply (a_task _ _ _ W) in Ht as [Hp _]. split; [|done].
    apply lookup_settle. exists Pending. by rewrite decide_False.
  - intros p f' Hp. apply lookup_settle in Hp as (r0 & Hp & Hr0). left.
    destruct (decide (self = p)) as [->|Hne]; [congruence|]. subst r0.
    simpl. rewrite lookup_delete_ne by done.
    destruct (a_owned _ _ _ W _ _ Hp); done.
  - intros p f' r' Hp. apply lookup_settle in Hp as (r0 & Hp & _).
    by eapply (a_reg _ _ _ W).
  - intros q self' f' u r' Hq. apply lookup_settle in Hq as (r0 & Hq & _).
    destruct (a_text _ _ _ W _ _ _ _ _ Hq) as (Hu & [r1 Hp] & Ht).
    split_and!; [done| |].
    + eexists. apply lookup_settle. eauto.
    + intros Hpend. destruct (decide (self = self')) as [->|Hne].
      * exfalso. erewrite state_of_settle_eq in Hpend by done. done.
      * rewrite state_of_settle_ne in Hpend by done.
        simpl. rewrite lookup_delete_ne by done. by apply Ht.
  - intros q q' self' f1 u r1 f' u' r2 Hq Hq'.
    apply lookup_settle in Hq as (? & Hq & _). apply lookup_settle in Hq' as (? & Hq' & _).
    by eapply (a_uniq _ _ _ W).
  - done.
Qed.

(** A promise of the environment settles. *)
Lemma A_settle_env H own s p o r :
  wfA H own s → promises s !! p = Some (o, Pending) → env_origin o →
  wfA H own (settle p r s).
Proof.
  intros W Hp Ho. constructor.
  - intros self ws k Ht. simpl in Ht. apply (a_task _ _ _ W) in Ht as [Hs Hown].
    split; [|done]. apply lookup_settle. exists Pending. split; [done|].
    destruct (decide (p = self)) as [->|]; [|done].
    rewrite Hp in Hs. injection Hs as ->. by destruct k.
  - intros q f Hq. apply lookup_settle in Hq as (r0 & Hq & Hr0). simpl.
    destruct (decide (p = q)) as [->|]; [|subst; by eapply (a_owned _ _ _ W)].
    rewrite Hp in Hq. injection Hq as -> _. done.
  - intros q f r' Hq. apply lookup_settle in Hq as (r0 & Hq & _). by eapply (a_reg _ _ _ W).
  - intros q self f u r' Hq. apply lookup_settle in Hq as (r0 & Hq & _).
    destruct (a_text _ _ _ W _ _ _ _ _ Hq) as (Hu & [r1 Hs] & Ht).
    split_and!; [done| |].
    + eexists. apply lookup_settle. eauto.
    + intros Hpend. apply Ht. rewrite state_of_settle_ne in Hpend; [done|].
      intros ->. rewrite Hp in Hs. injection Hs as ->. done.
  - intros q q' self' f1 u r1 f' u' r2 Hq Hq'.
    apply lookup_settle in Hq as (? & Hq & _). apply lookup_settle in Hq' as (? & Hq' & _).
    by eapply (a_uniq _ _ _ W).
  - intros q Hq. simpl. rewrite length_alter. by apply (a_own _ _ _ W).
Qed.

Lemma lookup_alloc o s x o' r :
  promises (alloc o s).1 !! x = Some (o', r) ↔
  promises s !! x = Some (o', r) ∨ x = length (promises s) ∧ o' = o ∧ r = Pending.
Proof.
  simpl. rewrite lookup_snoc_Some. split.
  - intros [[_ ?]|[-> [= -> ->]]]; auto.
  - intros [Hx|(-> & -> & ->)]; [|by right].
    left. split; [by eapply lookup_lt_Some|done].
Qed.

Lemma state_of_alloc_old o s x :
  x < length (promises s) → state_of (alloc o s).1 x = state_of s x.
Proof. intros Hx. unfold state_of. simpl. by rewrite lookup_app_l. Qed.

(** A call that returns a promise of the environment, or [getVersion]. *)
Lemma A_alloc H own s o :
  wfA H own s → (∀ f, o ≠ OFetchFile f) → (∀ self f u, o ≠ OFetchText self f u) →
  wfA H own (alloc o s).1.
Proof.
  intros W Ho1 Ho2. constructor.
  - intros self ws k Ht. simpl in Ht. apply (a_task _ _ _ W) in Ht as [Hs Hown].
    split; [|done]. apply lookup_alloc. by left.
  - intros q f Hq. apply lookup_alloc in Hq as [Hq|(_ & ? & _)]; [|by destruct (Ho1 f)].
    by eapply (a_owned _ _ _ W).
  - intros q f r Hq. apply lookup_alloc in Hq as [Hq|(_ & ? & _)]; [|by destruct (Ho1 f)].
    by eapply (a_reg _ _ _ W).
  - intros q self f u r Hq.
    apply lookup_alloc in Hq as [Hq|(_ & ? & _)]; [|by destruct (Ho2 self f u)].
    destruct (a_text _ _ _ W _ _ _ _ _ Hq) as (Hu & [r1 Hs] & Ht).
    split_and!; [done| |].
    + eexists. apply lookup_alloc. eauto.
    + rewrite state_of_alloc_old by (by eapply lookup_lt_Some). done.
  - intros q q' self' f1 u r1 f' u' r2 Hq Hq'.
    apply lookup_alloc in Hq as [Hq|(_ & ? & _)]; [|by destruct (Ho2 self' f1 u)].
    apply lookup_alloc in Hq' as [Hq'|(_ & ? & _)]; [|by destruct (Ho2 self' f' u')].
    by eapply (a_uniq _ _ _ W).
  - intros q Hq. simpl. rewrite length_app. apply (a_own _ _ _ W) in Hq. lia.
Qed.

Lemma A_set_flatResult H own s fr : wfA H own s → wfA H own (set_flatResult fr s).
Proof. intros [? ? ? ? ? ?]. by constructor. Qed.

Lemma A_set_last H own s n : wfA H own s → wfA H own (set_last n s).
Proof. intros [? ? ? ? ? ?]. by constructor. Qed.

Lemma A_push_returned H own s n : wfA H own s → wfA H own (push_returned n s).
Proof. intros [? ? ? ? ? ?]. by constructor. Qed.

(** Lines 326-330 in the running computation. *)
Lemma A_flat_stage H s self f pkg :
  wfA H (Some self) s → promises s !! self = Some (OFetchFile f, Pending) →
  wfA H None (flat_stage H self f pkg s).
Proof.
  intros W Hself. unfold flat_stage.
  destruct (map_get pkg (flatResult s)) as [p0|].
  - apply A_suspend; [done|done|by intros ?].
  - apply A_suspend; [| |by intros ?].
    + apply A_set_flatResult, A_alloc; done.
    + apply lookup_alloc. by left.
Qed.

(** Lines 337-340 in the running computation. *)
Lemma A_fetch_stage H s self f :
  wfA H (Some self) s → promises s !! self = Some (OFetchFile f, Pending) →
  wfA H None (fetch_stage H self f s).
Proof.
  intros W Hself. unfold fetch_stage.
  assert (∀ q f' u r, promises s !! q ≠ Some (OFetchText self f' u, r)) as Hnone.
  { intros q f' u r Hq. destruct (a_text _ _ _ W _ _ _ _ _ Hq) as (_ & _ & Ht).
    destruct (a_task _ _ _ W _ _ _ (Ht (state_of_lookup _ _ _ _ Hself))) as [_ ?]. done. }
  constructor.
  - intros self' ws k Ht. simpl in Ht.
    apply lookup_insert_Some in Ht as [[<- [= <- <-]]|[Hne Ht]].
    + split; [|done]. apply lookup_alloc. by left.
    + apply (a_task _ _ _ W) in Ht as [Hs _]. split; [|done]. apply lookup_alloc. by left.
  - intros q f' Hq. left. simpl.
    apply lookup_alloc in Hq as [Hq|(_ & ? & _)]; [|done].
    destruct (decide (self = q)) as [->|Hne]; [rewrite lookup_insert_eq; eauto|].
    rewrite lookup_insert_ne by done.
    destruct (a_owned _ _ _ W _ _ Hq) as [?|?]; [done|congruence].
  - intros q f' r Hq. apply lookup_alloc in Hq as [Hq|(_ & ? & _)]; [|done].
    by eapply (a_reg _ _ _ W).
  - intros q self' f' u r Hq. apply lookup_alloc in Hq as [Hq|(-> & [= -> -> ->] & ->)].
    + destruct (a_text _ _ _ W _ _ _ _ _ Hq) as (Hu & [r1 Hs] & Ht).
      split_and!; [done| |].
      * eexists. apply lookup_alloc. eauto.
      * assert (self' ≠ self) as Hne.
        { intros ->. by eapply Hnone. }
        simpl. rewrite lookup_insert_ne by done.
        intros Hpend. apply Ht.
        rewrite <-(state_of_alloc_old (OFetchText self f (requestUrl H f)));
          [done|by eapply lookup_lt_Some].
    + split_and!; [done| |].
      * eexists. apply lookup_alloc. eauto.
      * intros _. simpl. by rewrite lookup_insert_eq.
  - intros q q' self' f1 u r1 f' u' r2 Hq Hq'.
    apply lookup_alloc in Hq as [Hq|(-> & Heq & _)];
      apply lookup_alloc in Hq' as [Hq'|(-> & Heq' & _)].
    + by eapply (a_uniq _ _ _ W).
    + injection Heq' as -> _ _. by destruct (Hnone _ _ _ _ Hq).
    + injection Heq as -> _ _. by destruct (Hnone _ _ _ _ Hq').
    + done.
  - done.
Qed.

(** A call of [readFile]. *)
Lemma A_grows H own s s' bound :
  wfA H own s → grows H bound None s s' → wfA H own s'.
Proof.
  intros W G. pose proof (ext_length _ _ (gr_ext _ _ _ _ _ G)) as Hlen.
  assert (∀ p o r, promises s' !! p = Some (o, r) → p < length (promises s) →
                   promises s !! p = Some (o, r)) as Hold.
  { intros p o r Hp Hlt. by rewrite <-(gr_old_proms _ _ _ _ _ G). }
  constructor.
  - intros self ws k Ht.
    destruct (decide (self < length (promises s))) as [Hlt|Hge].
    + rewrite (gr_old_tasks _ _ _ _ _ G) in Ht by done.
      apply (a_task _ _ _ W) in Ht as [Hp Hown]. split; [|done].
      by rewrite (gr_old_proms _ _ _ _ _ G).
    + destruct (gr_new_tasks _ _ _ _ _ G self ws k) as [Hp _]; [lia|done|].
      split; [done|]. intros ->. pose proof (a_own _ _ _ W _ eq_refl). lia.
  - intros p f Hp. destruct (decide (p < length (promises s))) as [Hlt|Hge].
    + rewrite (gr_old_tasks _ _ _ _ _ G) by done.
      by eapply (a_owned _ _ _ W), Hold.
    + destruct (gr_new_proms _ _ _ _ _ G p _ _ ltac:(lia) Hp)
        as [_ [[_ ?]|[?|[? _]]]]; [by left|done|done].
  - intros p f r Hp. destruct (decide (p < length (promises s))) as [Hlt|Hge].
    + eapply ext_map_get; [apply (gr_ext _ _ _ _ _ G)|].
      by eapply (a_reg _ _ _ W), Hold.
    + destruct (gr_new_proms _ _ _ _ _ G p _ _ ltac:(lia) Hp) as [[?|?] _]; done.
  - intros q self f u r Hq. destruct (decide (q < length (promises s))) as [Hlt|Hge].
    + apply Hold in Hq; [|done].
      destruct (a_text _ _ _ W _ _ _ _ _ Hq) as (Hu & [r1 Hs] & Ht).
      pose proof (lookup_lt_Some _ _ _ Hs) as Hslt.
      split_and!; [done| |].
      * exists r1. by rewrite (gr_old_proms _ _ _ _ _ G).
      * unfold state_of. rewrite (gr_old_proms _ _ _ _ _ G) by done.
        rewrite (gr_old_tasks _ _ _ _ _ G) by done. done.
    + destruct (gr_new_proms _ _ _ _ _ G q _ _ ltac:(lia) Hq)
        as (-> & _ & -> & Hle & Ht & ->).
      destruct (gr_new_tasks _ _ _ _ _ G self _ _ Hle Ht) as [Hp _].
      split_and!; [done|eauto|by intros _].
  - intros q q' self f u r f' u' r' Hq Hq'.
    destruct (decide (q < length (promises s))) as [Hlt|Hge];
      destruct (decide (q' < length (promises s))) as [Hlt'|Hge'].
    + eapply (a_uniq _ _ _ W); by eapply Hold.
    + apply Hold in Hq; [|done].
      destruct (a_text _ _ _ W _ _ _ _ _ Hq) as (_ & [r1 Hs] & _).
      apply lookup_lt_Some in Hs.
      destruct (gr_new_proms _ _ _ _ _ G q' _ _ ltac:(lia) Hq') as (_ & _ & _ & Hle & _). lia.
    + apply Hold in Hq'; [|done].
      destruct (a_text _ _ _ W _ _ _ _ _ Hq') as (_ & [r1 Hs] & _).
      apply lookup_lt_Some in Hs.
      destruct (gr_new_proms _ _ _ _ _ G q _ _ ltac:(lia) Hq) as (_ & _ & _ & Hle & _). lia.
    + destruct (gr_new_proms _ _ _ _ _ G q _ _ ltac:(lia) Hq) as (_ & _ & -> & _).
      destruct (gr_new_proms _ _ _ _ _ G q' _ _ ltac:(lia) Hq') as (_ & _ & -> & _). done.
  - intros p Hp. apply (a_own _ _ _ W) in Hp. lia.
Qed.

(** Lines 269-276 in the running computation. *)
Lemma A_getVersion_loop H s self :
  wfA H (Some self) s → promises s !! self = Some (OGetVersion, Pending) →
  wfA H None (getVersion_loop self s).
Proof.
  intros W Hself. unfold getVersion_loop. case_bool_decide.
  - apply A_suspend; [done|done|by intros ?].
  - apply A_push_returned, A_settle_owner; done.
Qed.

Lemma A_adopt H s p o :
  wfA H None s → promises s !! p = Some (o, Pending) → tasks s !! p = None →
  wfA H (Some p) s.
Proof.
  intros W Hp Ht. constructor.
  - intros self ws k Hs. split; [by eapply (a_task _ _ _ W)|]. congruence.
  - intros q f Hq. destruct (a_owned _ _ _ W _ _ Hq); [by left|done].
  - apply (a_reg _ _ _ W).
  - apply (a_text _ _ _ W).
  - apply (a_uniq _ _ _ W).
  - intros q [= <-]. by eapply lookup_lt_Some.
Qed.

Lemma not_text_cases k : not_text k ∨ ∃ f, k = KText f.
Proof. destruct k; try (left; by intros ?). right. eauto. Qed.

Lemma wfA_step H s l s' : wfA H None s → step H s l = Some s' → wfA H None s'.
Proof.
  intros W Hstep. destruct l as [f| |p text|p fl|p e|self|self p]; simpl in Hstep.
  - destruct (readFile H s f) as [[s1 r]|] eqn:Hread; simpl in Hstep; simplify_eq.
    destruct (readFile_grows _ _ _ _ _ (wfA_fresh _ _ _ W) Hread) as (G & _).
    eapply A_grows; [exact W|exact G].
  - simplify_eq.
    apply A_getVersion_loop; [|apply lookup_alloc; by right].
    eapply (A_adopt _ _ _ OGetVersion).
    + apply A_alloc; done.
    + apply lookup_alloc. by right.
    + simpl. by apply (wfA_fresh _ _ _ W).
  - destruct (promises s !! p) as [[[] []]|] eqn:Hp; simplify_eq.
    by eapply A_settle_env.
  - destruct (promises s !! p) as [[[] []]|] eqn:Hp; simplify_eq.
    by eapply A_settle_env.
  - destruct (promises s !! p) as [[[] []]|] eqn:Hp; simplify_eq.
    by eapply A_settle_env.
  - destruct (tasks s !! self) as [[ws k]|] eqn:Hself; [|done].
    destruct (all_fulfilled s ws) as [vs|] eqn:Hvs; [|done].
    destruct (a_task _ _ _ W _ _ _ Hself) as [Hp _].
    destruct k as [f pkg orig|f pkg orig|f pkg|f|n]; simpl in Hstep, Hp.
    + pose proof (A_delete _ _ _ _ _ W Hself ltac:(by intros ?)) as W1.
      destruct (text_of vs) as [packageJson|]; [|done].
      destruct (truthy packageJson).
      * destruct (JSON_parse H _) as [| |ty tg].
        -- simplify_eq. by apply A_settle_owner.
        -- simplify_eq. by apply A_settle_owner.
        -- destruct (ty || tg); [simplify_eq; by apply A_settle_owner|].
           destruct (readFile H _ _) as [[s1 r]|] eqn:Hread; [|done]. simplify_eq.
           destruct (readFile_grows _ _ _ _ _ (wfA_fresh _ _ _ W1) Hread) as (G & _).
           apply A_suspend; [by eapply A_grows| |by intros ?].
           rewrite (gr_old_proms _ _ _ _ _ G); [done|]. by eapply lookup_lt_Some.
      * simplify_eq. by apply A_flat_stage.
    + pose proof (A_delete _ _ _ _ _ W Hself ltac:(by intros ?)) as W1.
      destruct (text_of vs) as [indexDts|]; [|done].
      destruct (truthy indexDts); simplify_eq.
      * by apply A_settle_owner.
      * by apply A_flat_stage.
    + pose proof (A_delete _ _ _ _ _ W Hself ltac:(by intros ?)) as W1.
      destruct vs as [|[| |] [|]]; try done.
      case_bool_decide; simplify_eq.
      * by apply A_fetch_stage.
      * by apply A_settle_owner.
    + destruct vs as [|[| |] [|]]; try done. simplify_eq.
      by eapply A_settle_text.
    + pose proof (A_delete _ _ _ _ _ W Hself ltac:(by intros ?)) as W1.
      simplify_eq. apply A_getVersion_loop.
      * case_bool_decide; [by apply A_set_last|done].
      * by case_bool_decide.
  - destruct (tasks s !! self) as [[ws k]|] eqn:Hself; [|done].
    case_bool_decide; [|done].
    destruct (state_of s p) as [| |e] eqn:Hst; try done. simplify_eq.
    destruct (not_text_cases k) as [Hk|[f ->]].
    + apply A_settle_owner; [|done]. by eapply A_delete.
    + by eapply A_settle_text.
Qed.

Lemma cdn_run_invariant H (P : state → Prop) :
  (∀ s l s', P s → step H s l = Some s' → P s') →
  ∀ ls s s', P s → run H s ls = Some s' → P s'.
Proof.
  intros Hstep ls. induction ls as [|l ls IH]; intros s s' HP Hrun; simpl in Hrun.
  - by simplify_eq.
  - destruct (step H s l) as [s1|] eqn:H1; [|done]. eauto.
Qed.

Lemma wfA_run H ls s : run H init ls = Some s → wfA H None s.
Proof.
  apply (cdn_run_invariant H (wfA H None)); [apply wfA_step|apply wfA_init].
Qed.

(** ** Steps that do not concern [getVersion] *)

Lemma quiet_refl s : quiet s s.
Proof. constructor; try done. apply ext_refl. Qed.

Lemma quiet_trans s1 s2 s3 : quiet s1 s2 → quiet s2 s3 → quiet s1 s3.
Proof.
  intros [H1 H2 H3 H4] [H1' H2' H3' H4']. constructor.
  - by eapply ext_trans.
  - congruence.
  - congruence.
  - eauto.
Qed.

Lemma quiet_alloc o s : quiet s (alloc o s).1.
Proof. constructor; try done. apply ext_alloc. Qed.

Lemma quiet_settle p r s : state_of s p = Pending → quiet s (settle p r s).
Proof. intros Hp. constructor; try done. by apply ext_settle. Qed.

Lemma quiet_delete self s : quiet s (set_tasks (delete self (tasks s)) s).
Proof.
  constructor; try done; [apply ext_tasks|].
  simpl. intros self' ws n Ht. by apply lookup_delete_Some in Ht as [_ ?].
Qed.

Lemma quiet_suspend self ws k s :
  (∀ n, k ≠ KDrain n) → quiet s (suspend self ws k s).
Proof.
  intros Hk. constructor; try done; [apply ext_tasks|].
  simpl. intros self' ws' n Ht.
  apply lookup_insert_Some in Ht as [[_ [= _ ->]]|[_ ?]]; [|done]. by destruct (Hk n).
Qed.

Lemma quiet_set_flatResult fr s : quiet s (set_flatResult fr s).
Proof. constructor; try done. apply ext_flatResult. Qed.

Lemma quiet_fetch_stage H self f s : quiet s (fetch_stage H self f s).
Proof.
  unfold fetch_stage. simpl.
  eapply quiet_trans; [apply quiet_alloc|]. by apply quiet_suspend.
Qed.

Lemma quiet_flat_stage H self f pkg s : quiet s (flat_stage H self f pkg s).
Proof.
  unfold flat_stage. destruct (map_get pkg (flatResult s)); simpl.
  - by apply quiet_suspend.
  - eapply quiet_trans; [apply quiet_alloc|].
    eapply quiet_trans; [apply quiet_set_flatResult|]. by apply quiet_suspend.
Qed.

Lemma quiet_grows H bound s s' : fresh s → grows H bound None s s' → quiet s s'.
Proof.
  intros Hfresh G. constructor.
  - apply (gr_ext _ _ _ _ _ G).
  - apply (gr_last _ _ _ _ _ G).
  - apply (gr_ret _ _ _ _ _ G).
  - intros self ws n Ht. destruct (decide (self < length (promises s))) as [Hlt|Hge].
    + by rewrite <-(gr_old_tasks _ _ _ _ _ G).
    + by destruct (gr_new_tasks _ _ _ _ _ G self ws (KDrain n) ltac:(lia) Ht) as [_ ?].
Qed.

Lemma step_quiet H s l s' :
  wfA H None s → step H s l = Some s' → ¬ drains s l → quiet s s'.
Proof.
  intros W Hstep Hl. destruct l as [f| |p text|p fl|p e|self|self p]; simpl in Hstep.
  - destruct (readFile H s f) as [[s1 r]|] eqn:Hread; simpl in Hstep; simplify_eq.
    destruct (readFile_grows _ _ _ _ _ (wfA_fresh _ _ _ W) Hread) as (G & _).
    eapply quiet_grows; [by eapply wfA_fresh|done].
  - by destruct Hl.
  - destruct (promises s !! p) as [[[] []]|] eqn:Hp; simplify_eq.
    apply quiet_settle. by eapply state_of_lookup.
  - destruct (promises s !! p) as [[[] []]|] eqn:Hp; simplify_eq.
    apply quiet_settle. by eapply state_of_lookup.
  - destruct (promises s !! p) as [[[] []]|] eqn:Hp; simplify_eq.
    apply quiet_settle. by eapply state_of_lookup.
  - destruct (tasks s !! self) as [[ws k]|] eqn:Hself; [|done].
    destruct (all_fulfilled s ws) as [vs|] eqn:Hvs; [|done].
    destruct (a_task _ _ _ W _ _ _ Hself) as [Hp _].
    apply state_of_lookup in Hp.
    eapply quiet_trans; [apply (quiet_delete self)|].
    set (s0 := set_tasks (delete self (tasks s)) s) in *.
    assert (state_of s0 self = Pending) as Hp0 by done.
    destruct k as [f pkg orig|f pkg orig|f pkg|f|n]; simpl in Hstep.
    + destruct (text_of vs) as [packageJson|]; [|done].
      destruct (truthy packageJson).
      * destruct (JSON_parse H _) as [| |ty tg].
        -- simplify_eq. by apply quiet_settle.
        -- simplify_eq. by apply quiet_settle.
        -- destruct (ty || tg); [simplify_eq; by apply quiet_settle|].
           destruct (readFile H _ _) as [[s1 r]|] eqn:Hread; [|done]. simplify_eq.
           assert (fresh s0) as Hfresh.
           { intros x Hx. unfold s0. simpl. apply lookup_delete_None. right.
             by apply (wfA_fresh _ _ _ W). }
           destruct (readFile_grows _ _ _ _ _ Hfresh Hread) as (G & _).
           eapply quiet_trans; [by eapply quiet_grows|]. by apply quiet_suspend.
      * simplify_eq. apply quiet_flat_stage.
    + destruct (text_of vs) as [indexDts|]; [|done].
      destruct (truthy indexDts); simplify_eq.
      * by apply quiet_settle.
      * apply quiet_flat_stage.
    + destruct vs as [|[| |] [|]]; try done.
      case_bool_decide; simplify_eq.
      * apply quiet_fetch_stage.
      * by apply quiet_settle.
    + destruct vs as [|[| |] [|]]; try done. simplify_eq. by apply quiet_settle.
    + destruct Hl. simpl. eauto.
  - destruct (tasks s !! self) as [[ws k]|] eqn:Hself; [|done].
    case_bool_decide; [|done].
    destruct (state_of s p) as [| |e] eqn:Hst; try done. simplify_eq.
    destruct (a_task _ _ _ W _ _ _ Hself) as [Hp _]. apply state_of_lookup in Hp.
    eapply quiet_trans; [apply (quiet_delete self)|]. by apply quiet_settle.
Qed.

(** ** The drain bookkeeping of [getVersion] *)

Lemma wfB_init : wfB init.
Proof.
  constructor; simpl.
  - intros i Hi. lia.
  - intros self ws n Ht. by rewrite lookup_empty in Ht.
  - intros m Hm. by apply elem_of_nil in Hm.
  - intros i j m n Hi. done.
Qed.

Lemma B_quiet s s' : wfB s → quiet s s' → wfB s'.
Proof.
  intros [B1 B2 B3 B4] [[[fs Hfs] _ Hp _] Hlast Hret Hdrain].
  assert (ext s s') as Hext by (constructor; eauto; rewrite ?Hlast, ?Hret; eauto; by exists []).
  constructor.
  - rewrite Hlast. intros i Hi. destruct (B1 i Hi) as (f & p & v & Hf & Hv).
    exists f, p, v. split.
    + rewrite Hfs. by apply lookup_app_l_Some.
    + rewrite (ext_state _ _ _ Hext); [done|]. by rewrite Hv.
  - intros self ws n Ht. apply Hdrain, B2 in Ht as [-> Hn]. split.
    + rewrite Hfs, take_app_le by done. done.
    + rewrite Hfs, length_app. lia.
  - rewrite Hret, Hfs, length_app. intros m Hm. apply B3 in Hm. lia.
  - rewrite Hret. done.
Qed.

(** Lines 269-276 once the computation of [self] is running. *)
Lemma B_getVersion_loop s self :
  wfB s → tasks s !! self = None → promises s !! self = Some (OGetVersion, Pending) →
  wfB (getVersion_loop self s).
Proof.
  intros [B1 B2 B3 B4] Hnone Hself. unfold getVersion_loop. case_bool_decide as Hsize.
  - constructor; simpl; try done.
    intros self' ws n Ht. apply lookup_insert_Some in Ht as [[_ [= <- <-]]|[_ Ht]].
    + by rewrite firstn_all.
    + by eapply B2.
  - constructor.
    + intros i Hi. destruct (B1 i Hi) as (f & p & v & Hf & Hv).
      exists f, p, v. split; [done|].
      change (state_of (settle self (Fulfilled (VNum (length (files s)))) s) p = Fulfilled v).
      rewrite state_of_settle_ne; [done|].
      intros <-. apply state_of_lookup in Hself. congruence.
    + intros self' ws n Ht. by eapply B2.
    + simpl. intros m [->|Hm]%elem_of_cons; [done|by apply B3].
    + simpl. intros [|i] [|j] m n Hi Hj Hij; simpl in *; simplify_eq.
      * done.
      * apply B3. by eapply list_elem_of_lookup_2.
      * lia.
      * eapply B4; [done|done|lia].
Qed.

Lemma all_fulfilled_spec s ws vs :
  all_fulfilled s ws = Some vs → ∀ p, p ∈ ws → ∃ v, state_of s p = Fulfilled v.
Proof.
  unfold all_fulfilled. intros Hall p Hp.
  apply mapM_Some_1 in Hall.
  apply list_elem_of_lookup in Hp as [i Hi].
  destruct (Forall2_lookup_l _ _ _ _ _ Hall Hi) as (v & _ & Hv).
  destruct (state_of s p); try done. eauto.
Qed.

Lemma classic_drains s l : drains s l ∨ ¬ drains s l.
Proof.
  destruct l as [f| |p text|p fl|p e|self|self p]; simpl; auto.
  destruct (tasks s !! self) as [[ws [| | | |n]]|]; eauto;
    right; intros (? & ? & [=]).
Qed.

Lemma ext_getVersion_loop self s :
  state_of s self = Pending → ext s (getVersion_loop self s).
Proof.
  intros Hp. unfold getVersion_loop. case_bool_decide.
  - apply ext_tasks.
  - eapply ext_trans; [by apply (ext_settle self (Fulfilled (VNum (length (files s)))))|].
    constructor; simpl; [by exists []; rewrite app_nil_r|done|eauto|by eexists [_]].
Qed.

Lemma wfB_step H s l s' : wfA H None s → wfB s → step H s l = Some s' → wfB s'.
Proof.
  intros W B Hstep.
  destruct l as [f| |p text|p fl|p e|self|self p];
    try (eapply B_quiet; [done|]; eapply step_quiet; [done|done|by intros ?]).
  - simpl in Hstep. simplify_eq. apply B_getVersion_loop.
    + eapply B_quiet; [done|apply quiet_alloc].
    + simpl. by apply (wfA_fresh _ _ _ W).
    + apply lookup_alloc. by right.
  - destruct (tasks s !! self) as [[ws k]|] eqn:Hself.
    2:{ simpl in Hstep. by rewrite Hself in Hstep. }
    destruct k as [f pkg orig|f pkg orig|f pkg|f|n];
      try (eapply B_quiet; [done|]; eapply step_quiet; [done|done|];
           simpl; intros (ws' & n & Hn); rewrite Hself in Hn; done).
    simpl in Hstep. rewrite Hself in Hstep.
    destruct (all_fulfilled s ws) as [vs|] eqn:Hvs; [|done]. simpl in Hstep. simplify_eq.
    destruct (a_task _ _ _ W _ _ _ Hself) as [Hp _]. simpl in Hp.
    destruct (b_drain _ B _ _ _ Hself) as [-> Hn].
    apply B_getVersion_loop.
    + assert (wfB (set_tasks (delete self (tasks s)) s)) as B0.
      { eapply B_quiet; [done|apply quiet_delete]. }
      case_bool_decide as Hlast; [|done].
      destruct B0 as [B1 B2 B3 B4]. constructor; try done.
      simpl. intros i Hi.
      destruct (lookup_lt_is_Some_2 (files s) i) as [[f p] Hf]; [lia|].
      destruct (all_fulfilled_spec _ _ _ Hvs p) as [v Hv].
      { apply list_elem_of_fmap. exists (f, p). split; [done|].
        eapply list_elem_of_lookup_2. rewrite lookup_take_lt; done. }
      eauto.
    + case_bool_decide; simpl; apply lookup_delete_eq.
    + by case_bool_decide.
Qed.


Lemma step_ext H s l s' : wfA H None s → step H s l = Some s' → ext s s'.
Proof.
  intros W Hstep. destruct (classic_drains s l) as [Hd|Hd].
  2:{ by eapply q_ext, step_quiet. }
  destruct l as [f| |p text|p fl|p e|self|self p]; try done; simpl in Hstep.
  - simplify_eq. eapply ext_trans; [apply ext_alloc|].
    apply ext_getVersion_loop. apply state_of_alloc.
  - destruct Hd as (ws & n & Hself). rewrite Hself in Hstep.
    destruct (all_fulfilled s ws) as [vs|] eqn:Hvs; [|done]. simpl in Hstep. simplify_eq.
    destruct (a_task _ _ _ W _ _ _ Hself) as [Hp _]. apply state_of_lookup in Hp.
    eapply ext_trans; [apply (ext_tasks (delete self (tasks s)))|].
    eapply ext_trans; [|apply ext_getVersion_loop; by case_bool_decide].
    case_bool_decide; [|apply ext_refl].
    constructor; simpl; [by exists []; rewrite app_nil_r|lia|eauto|by exists []].
Qed.

(** ** Runs *)

Lemma cdn_run_app H s ls1 ls2 :
  run H s (ls1 ++ ls2) = run H s ls1 ≫= λ s', run H s' ls2.
Proof.
  revert s. induction ls1 as [|l ls1 IH]; intros s; simpl; [done|].
  destruct (step H s l); simpl; [apply IH|done].
Qed.

Lemma cdn_run_snoc H s0 ls s l s1 :
  run H s0 ls = Some s → step H s l = Some s1 → run H s0 (ls ++ [l]) = Some s1.
Proof. intros H1 H2. rewrite cdn_run_app, H1. simpl. by rewrite H2. Qed.

Lemma run_ext H ls : ∀ s s', wfA H None s → run H s ls = Some s' → ext s s' ∧ wfA H None s'.
Proof.
  induction ls as [|l ls IH]; intros s s' W Hrun; simpl in Hrun.
  - simplify_eq. split; [apply ext_refl|done].
  - destruct (step H s l) as [s1|] eqn:Hstep; [|done].
    destruct (IH _ _ (wfA_step _ _ _ _ W Hstep) Hrun) as [Hext W'].
    split; [|done]. eapply ext_trans; [by eapply step_ext|done].
Qed.

(** ** [readFile] *)

(** C7.  Let a client call [readFile(f)] in any reachable state and, after
    anything whatsoever has happened, call it again.  The second call
    returns what the first returned (the same promise, or [undefined] for
    both when the name is not eligible) and changes nothing; once that
    promise has settled its state never changes again, so both callers see
    one terminal value.  And in the state reached there is at most one
    invocation of [fetchFile] for [f] and at most one call of [fetchText]
    on behalf of [f]. *)
Theorem read_is_idempotent H ls s f s1 r1 ls' s2 s3 r2 :
  run H init ls = Some s →
  readFile H s f = Some (s1, r1) →
  run H s1 ls' = Some s2 →
  readFile H s2 f = Some (s3, r2) →
  r2 = r1 ∧ s3 = s2 ∧
  (∀ p, r1 = Some p → map_get f (files s1) = Some p) ∧
  (∀ p ls'' s4, r1 = Some p → run H s2 ls'' = Some s4 →
                state_of s2 p ≠ Pending → state_of s4 p = state_of s2 p) ∧
  (∀ p p' r r', promises s3 !! p = Some (OFetchFile f, r) →
                promises s3 !! p' = Some (OFetchFile f, r') → p = p') ∧
  (∀ q q' self self' u u' r r',
     promises s3 !! q = Some (OFetchText self f u, r) →
     promises s3 !! q' = Some (OFetchText self' f u', r') → q = q').
Proof.
  intros Hrun Hread1 Hrun' Hread2.
  assert (step H s (LRead f) = Some s1) as Hstep1 by (simpl; by rewrite Hread1).
  pose proof (wfA_run _ _ _ (cdn_run_snoc _ _ _ _ _ _ Hrun Hstep1)) as W1.
  destruct (run_ext _ _ _ _ W1 Hrun') as [Hext W2].
  destruct (readFile_grows _ _ _ _ _ (wfA_fresh _ _ _ (wfA_run _ _ _ Hrun)) Hread1)
    as (_ & Hr1 & Hsome).
  assert (r2 = r1 ∧ s3 = s2) as [-> ->].
  { unfold readFile, readFile_with in Hread2. destruct (eligible f) eqn:Hel.
    - destruct (Hsome eq_refl) as [p Hp]. subst r1.
      rewrite (ext_map_get _ _ _ _ Hext Hp) in Hread2.
      injection Hread2 as <- <-. by rewrite Hp.
    - subst r1. injection Hread2 as <- <-. done. }
  split_and!; try done.
  - intros p ->. destruct (eligible f); [done|done].
  - intros p ls'' s4 _ Hrun'' Hp.
    destruct (run_ext _ _ _ _ W2 Hrun'') as [Hext' _]. by apply ext_state.
  - intros p p' r r' Hp Hp'.
    apply (a_reg _ _ _ W2) in Hp. apply (a_reg _ _ _ W2) in Hp'. congruence.
  - intros q q' self self' u u' r r' Hq Hq'.
    destruct (a_text _ _ _ W2 _ _ _ _ _ Hq) as (_ & [r0 Hs] & _).
    destruct (a_text _ _ _ W2 _ _ _ _ _ Hq') as (_ & [r0' Hs'] & _).
    apply (a_reg _ _ _ W2) in Hs. apply (a_reg _ _ _ W2) in Hs'.
    assert (self = self') as <- by congruence.
    by eapply (a_uniq _ _ _ W2).
Qed.

(** ** [getVersion] *)






(** ** The redundancy check of [fetchFile]

    [evidence H s f] says that, as far as the state [s] shows, the check of
    lines 308-324 for the file [f] has not found the types-shim package
    redundant: the host has no [flat] callback, or [f] is not in a package
    [@types/...], or the manifest of the original package was rejected, or
    it is falsy, or [JSON.parse] threw on it or returned [null], or it has
    neither [types] nor [typings] and the top-level [index.d.ts] of the
    original package was rejected or is falsy. *)

Lemma truthy_Some text : truthy (Some text) = true ↔ text ≠ "".
Proof. destruct text; simpl; split; done. Qed.

Lemma index_clear_ext s s' orig : ext s s' → index_clear s orig → index_clear s' orig.
Proof.
  intros Hext (x & Hx & Hst). exists x. split; [by eapply ext_map_get|].
  rewrite (ext_state _ _ _ Hext); [done|]. by destruct (state_of s x).
Qed.

Lemma evidence_ext H s s' f : ext s s' → evidence H s f → evidence H s' f.
Proof.
  intros Hext Hev Hflat pkg Hpkg Hshim.
  destruct (Hev Hflat pkg Hpkg Hshim) as (m & Hm & Hst).
  exists m. split; [by eapply ext_map_get|].
  rewrite (ext_state _ _ _ Hext); [|by destruct (state_of s m)].
  destruct (state_of s m) as [|[t| |]|]; try done.
  destruct Hst as [?|Hst]; [by left|right].
  destruct (JSON_parse H (ofUndefined t)); try done.
  destruct Hst as [? ?]. split; [done|]. by eapply index_clear_ext.
Qed.

Lemma evidence_redundant H s f : evidence H s f → redundant H s f → False.
Proof.
  intros Hev (Hflat & pkg & m & text & ty & tg & Hpkg & Hshim & Hm & Hst & Htext & Hparse & Hred).
  destruct (Hev Hflat pkg Hpkg Hshim) as (m' & Hm' & Hst').
  rewrite Hm in Hm'. injection Hm' as <-. rewrite Hst in Hst'.
  destruct Hst' as [Ht|Hp].
  - apply truthy_Some in Htext. congruence.
  - simpl in Hp. rewrite Hparse in Hp. destruct Hp as [Hno (x & Hx & Hxs)].
    destruct Hred as [?|(x' & t & Hx' & Hxs' & Ht)]; [congruence|].
    rewrite Hx in Hx'. injection Hx' as <-. rewrite Hxs' in Hxs.
    apply truthy_Some in Ht. congruence.
Qed.

Lemma wfC_init H : wfC H init.
Proof. constructor; simpl; intros; simplify_eq; done. Qed.

Lemma task_ok_ext H s s' ws k : ext s s' → task_ok H s ws k → task_ok H s' ws k.
Proof.
  intros Hext. destruct k as [f pkg orig|f pkg orig|f pkg|f|n]; simpl; try done.
  - intros (? & ? & ? & ? & m & Hm & ?). split_and!; try done.
    exists m. split; [by eapply ext_map_get|done].
  - intros (? & ? & ? & ? & (m & text & ty & tg & Hm & Hst & ? & ? & ?) & x & Hx & ?).
    split_and!; try done.
    + exists m, text, ty, tg. split_and!; try done; [by eapply ext_map_get|].
      rewrite (ext_state _ _ _ Hext); [done|by rewrite Hst].
    + exists x. split; [by eapply ext_map_get|done].
  - by apply evidence_ext.
  - by apply evidence_ext.
Qed.

Lemma promise_ok_ext H s s' o r : ext s s' → promise_ok H s o r → promise_ok H s' o r.
Proof.
  intros Hext. destruct o as [f|self f u| |]; simpl; try done.
  - intros [?|[?|?]]; [by left|by right; left|right; right]. by eapply evidence_ext.
  - by apply evidence_ext.
Qed.

(** The invariant survives whatever only adds to the state, if what is new
    or has changed is in order. *)
Lemma C_frame H s s' :
  wfC H s → ext s s' →
  (∀ self ws k, tasks s' !! self = Some (ws, k) →
                tasks s !! self = Some (ws, k) ∨ task_ok H s' ws k) →
  (∀ p o r, promises s' !! p = Some (o, r) →
            promises s !! p = Some (o, r) ∨ promise_ok H s' o r) →
  wfC H s'.
Proof.
  intros [C1 C2] Hext Htasks Hproms. constructor.
  - intros self ws k Ht. destruct (Htasks _ _ _ Ht) as [Ho|?]; [|done].
    eapply task_ok_ext; [done|]. by eapply C1.
  - intros p o r Hp. destruct (Hproms _ _ _ Hp) as [Ho|?]; [|done].
    eapply promise_ok_ext; [done|]. by eapply C2.
Qed.

Lemma C_delete H self s : wfC H s → wfC H (set_tasks (delete self (tasks s)) s).
Proof.
  intros C. eapply C_frame; [done|apply ext_tasks| |].
  - simpl. intros self' ws k Ht. left. by apply lookup_delete_Some in Ht as [_ ?].
  - intros p o r Hp. by left.
Qed.

Lemma C_suspend H self ws k s :
  wfC H s → task_ok H s ws k → wfC H (suspend self ws k s).
Proof.
  intros C Hk. eapply C_frame; [done|apply ext_tasks| |].
  - simpl. intros self' ws' k' Ht.
    apply lookup_insert_Some in Ht as [[_ [= <- <-]]|[_ ?]]; [by right|by left].
  - intros p o r Hp. by left.
Qed.

Lemma C_settle H p o r s :
  wfC H s → promises s !! p = Some (o, Pending) → promise_ok H s o r →
  wfC H (settle p r s).
Proof.
  intros C Hp Hr.
  assert (ext s (settle p r s)) as Hext by (apply ext_settle; by eapply state_of_lookup).
  eapply C_frame; [done|done| |].
  - intros self ws k Ht. by left.
  - intros x o' r' Hx. apply lookup_settle in Hx as (r0 & Hx & ->).
    destruct (decide (p = x)) as [->|Hne]; [|by left].
    right. rewrite Hp in Hx. injection Hx as <- _. by eapply promise_ok_ext.
Qed.

Lemma C_alloc H o s : wfC H s → promise_ok H s o Pending → wfC H (alloc o s).1.
Proof.
  intros C Ho. eapply C_frame; [done|apply ext_alloc| |].
  - intros self ws k Ht. by left.
  - intros x o' r' Hx. apply lookup_alloc in Hx as [?|(_ & -> & ->)]; [by left|right].
    eapply promise_ok_ext; [apply ext_alloc|done].
Qed.

Lemma C_set_flatResult H fr s : wfC H s → wfC H (set_flatResult fr s).
Proof. intros [? ?]. by constructor. Qed.

Lemma C_set_last H n s : wfC H s → wfC H (set_last n s).
Proof. intros [? ?]. by constructor. Qed.

Lemma C_push_returned H n s : wfC H s → wfC H (push_returned n s).
Proof. intros [? ?]. by constructor. Qed.

Lemma C_flat_stage H self f pkg s :
  wfC H s → evidence H s f → wfC H (flat_stage H self f pkg s).
Proof.
  intros C Hev. unfold flat_stage. destruct (map_get pkg (flatResult s)).
  - by apply C_suspend.
  - apply C_suspend.
    + apply C_set_flatResult, C_alloc; done.
    + simpl. eapply evidence_ext; [|done].
      eapply ext_trans; [apply ext_alloc|apply ext_flatResult].
Qed.

Lemma C_fetch_stage H self f s :
  wfC H s → evidence H s f → wfC H (fetch_stage H self f s).
Proof.
  intros C Hev. unfold fetch_stage. apply C_suspend.
  - by apply C_alloc.
  - simpl. eapply evidence_ext; [apply ext_alloc|done].
Qed.

Lemma C_getVersion_loop H self s :
  wfC H s → promises s !! self = Some (OGetVersion, Pending) →
  wfC H (getVersion_loop self s).
Proof.
  intros C Hself. unfold getVersion_loop. case_bool_decide.
  - by apply C_suspend.
  - eapply C_push_returned, C_settle; done.
Qed.

Lemma C_grows H bound s s' : wfC H s → grows H bound None s s' → wfC H s'.
Proof.
  intros C G. eapply C_frame; [done|apply (gr_ext _ _ _ _ _ G)| |].
  - intros self ws k Ht. destruct (decide (self < length (promises s))) as [Hlt|Hge].
    + left. by rewrite <-(gr_old_tasks _ _ _ _ _ G).
    + right. destruct (gr_new_tasks _ _ _ _ _ G self ws k ltac:(lia) Ht) as [_ Hk].
      destruct k as [f pkg orig|f pkg orig|f pkg|f|n]; cbv beta iota in Hk;
        unfold task_ok; try done.
      * destruct Hk as (? & Hpkg & Hshim). intros _ pkg' Hpkg' Hshim'. congruence.
      * destruct Hk as [Hflat _]. intros ?. congruence.
  - intros p o r Hp. destruct (decide (p < length (promises s))) as [Hlt|Hge].
    + left. by rewrite <-(gr_old_proms _ _ _ _ _ G).
    + right. pose proof (gr_new_proms _ _ _ _ _ G p o r ltac:(lia) Hp) as Hn.
      destruct o as [f|self f u| |]; unfold new_promise in Hn; unfold promise_ok;
        try done.
      * destruct Hn as [_ [[? _]|[?|(? & ? & Hnone)]]]; [by left|by right; left|].
        right; right. intros _ pkg Hpkg. congruence.
      * destruct Hn as (_ & Hflat & _). intros ?. congruence.
Qed.

Lemma evidence_intro H s f pkg :
  pkgNameOf f = Some pkg → manifest_clear H s (originalOf pkg) → evidence H s f.
Proof. intros Hpkg Hm _ pkg' Hpkg' _. congruence. Qed.

Lemma all_fulfilled_one s m vs :
  all_fulfilled s [m] = Some vs → ∃ v, vs = [v] ∧ state_of s m = Fulfilled v.
Proof.
  unfold all_fulfilled. simpl. destruct (state_of s m) as [|v|]; simpl; try done.
  intros [= <-]. eauto.
Qed.

Lemma text_of_one v t : text_of [v] = Some t → v = VText t.
Proof. destruct v; simpl; intros [=]. by subst. Qed.

Lemma wfC_step H s l s' : wfA H None s → wfC H s → step H s l = Some s' → wfC H s'.
Proof.
  intros W C Hstep. destruct l as [f| |p text|p fl|p e|self|self p]; simpl in Hstep.
  - destruct (readFile H s f) as [[s1 r]|] eqn:Hread; simpl in Hstep; simplify_eq.
    destruct (readFile_grows _ _ _ _ _ (wfA_fresh _ _ _ W) Hread) as (G & _).
    by eapply C_grows.
  - simplify_eq. apply C_getVersion_loop; [by apply C_alloc|].
    apply lookup_alloc. by right.
  - destruct (promises s !! p) as [[[] []]|] eqn:Hp; simplify_eq.
    eapply C_settle; [done|done|]. apply (c_prom _ _ C _ _ _ Hp).
  - destruct (promises s !! p) as [[[] []]|] eqn:Hp; simplify_eq.
    eapply C_settle; done.
  - destruct (promises s !! p) as [[[] []]|] eqn:Hp; simplify_eq.
    eapply C_settle; done.
  - destruct (tasks s !! self) as [[ws k]|] eqn:Hself; [|done].
    destruct (all_fulfilled s ws) as [vs|] eqn:Hvs; [|done].
    destruct (a_task _ _ _ W _ _ _ Hself) as [Hp _].
    pose proof (c_task _ _ C _ _ _ Hself) as Hk.
    pose proof (C_delete H self s C) as C0.
    set (s0 := set_tasks (delete self (tasks s)) s) in *.
    assert (ext s s0) as Hext0 by apply ext_tasks.
    assert (promises s0 !! self = Some (korigin k, Pending)) as Hp0 by done.
    destruct k as [f pkg orig|f pkg orig|f pkg|f|n]; cbv beta iota in Hk; simpl in Hstep, Hp0.
    + destruct Hk as (Hflat & Hpkg & Hshim & -> & m & Hm & ->).
      apply all_fulfilled_one in Hvs as (v & -> & Hv).
      destruct (text_of [v]) as [packageJson|] eqn:Htext; [|done].
      apply text_of_one in Htext as ->.
      destruct (truthy packageJson) eqn:Htruthy.
      * destruct (JSON_parse H _) as [| |ty tg] eqn:Hparse.
        -- simplify_eq. eapply C_settle; [done|done|]. right; right.
           eapply evidence_intro; [done|]. exists m. split; [done|].
           change (state_of s0 m) with (state_of s m). rewrite Hv. right. by rewrite Hparse.
        -- simplify_eq. eapply C_settle; [done|done|]. right; right.
           eapply evidence_intro; [done|]. exists m. split; [done|].
           change (state_of s0 m) with (state_of s m). rewrite Hv. right. by rewrite Hparse.
        -- destruct (ty || tg) eqn:Hty.
           { simplify_eq. eapply C_settle; [done|done|]. right. by left. }
           destruct (readFile H _ _) as [[s1 r]|] eqn:Hread; [|done]. simplify_eq.
           assert (fresh s0) as Hfresh.
           { intros x Hx. unfold s0. simpl. apply lookup_delete_None. right.
             by apply (wfA_fresh _ _ _ W). }
           destruct (readFile_grows _ _ _ _ _ Hfresh Hread) as (G & Hr & Hsome).
           rewrite eligible_index in Hr. destruct (Hsome (eligible_index _)) as [x ->].
           apply C_suspend; [by eapply C_grows|].
           pose proof (gr_ext _ _ _ _ _ G) as Hext1.
           destruct packageJson as [text|]; [|done]. simpl in Hparse.
           split_and!; try done.
           ++ exists m, text, ty, tg. split_and!; try done.
              ** eapply ext_map_get; [done|]. done.
              ** rewrite (ext_state _ _ _ Hext1); [done|].
                 change (state_of s0 m) with (state_of s m). by rewrite Hv.
              ** by apply truthy_Some.
           ++ exists x. by rewrite <-Hr.
      * simplify_eq. apply C_flat_stage; [done|].
        eapply evidence_intro; [done|]. exists m. split; [done|].
        change (state_of s0 m) with (state_of s m). rewrite Hv. by left.
    + destruct Hk as (Hflat & Hpkg & Hshim & -> &
                      (m & text & ty & tg & Hm & Hst & Htext & Hparse & Hty) & x & Hx & ->).
      apply all_fulfilled_one in Hvs as (v & -> & Hv).
      destruct (text_of [v]) as [indexDts|] eqn:Htext'; [|done].
      apply text_of_one in Htext' as ->.
      destruct (truthy indexDts) eqn:Htruthy; simplify_eq.
      * eapply C_settle; [done|done|]. right. by left.
      * apply C_flat_stage; [done|].
        eapply evidence_intro; [done|]. exists m. split; [done|].
        change (state_of s0 m) with (state_of s m). rewrite Hst. right. simpl.
        rewrite Hparse. split; [done|]. exists x. split; [done|].
        change (state_of s0 x) with (state_of s x). by rewrite Hv.
    + destruct vs as [|[| |] [|]]; try done.
      case_bool_decide; simplify_eq.
      * apply C_fetch_stage; [done|]. by eapply evidence_ext.
      * eapply C_settle; [done|done|]. right. by left.
    + destruct vs as [|[| |] [|]]; try done. simplify_eq.
      eapply C_settle; [done|done|]. right; right. by eapply evidence_ext.
    + simplify_eq. apply C_getVersion_loop.
      * case_bool_decide; [by apply C_set_last|done].
      * by case_bool_decide.
  - destruct (tasks s !! self) as [[ws k]|] eqn:Hself; [|done].
    case_bool_decide as Hin; [|done].
    destruct (state_of s p) as [| |e] eqn:Hst; try done. simplify_eq.
    destruct (a_task _ _ _ W _ _ _ Hself) as [Hp _].
    pose proof (c_task _ _ C _ _ _ Hself) as Hk.
    pose proof (C_delete H self s C) as C0.
    set (s0 := set_tasks (delete self (tasks s)) s) in *.
    assert (ext s s0) as Hext0 by apply ext_tasks.
    eapply (C_settle _ _ (korigin k)); [done|done|].
    destruct k as [f pkg orig|f pkg orig|f pkg|f|n]; cbv beta iota in Hk; simpl; try done.
    + destruct Hk as (Hflat & Hpkg & Hshim & -> & m & Hm & ->).
      apply list_elem_of_singleton in Hin as ->.
      right; right. eapply evidence_intro; [done|]. exists m. split; [done|].
      change (state_of s0 m) with (state_of s m). by rewrite Hst.
    + destruct Hk as (Hflat & Hpkg & Hshim & -> &
                      (m & text & ty & tg & Hm & Hst' & Htext & Hparse & Hty) & x & Hx & ->).
      apply list_elem_of_singleton in Hin as ->.
      right; right. eapply evidence_intro; [done|]. exists m. split; [done|].
      change (state_of s0 m) with (state_of s m). rewrite Hst'. right. simpl.
      rewrite Hparse. split; [done|]. exists x. split; [done|].
      change (state_of s0 x) with (state_of s x). by rewrite Hst.
    + right; right. by eapply evidence_ext.
    + right; right. by eapply evidence_ext.
Qed.

Lemma wf_all H ls s : run H init ls = Some s → wfA H None s ∧ wfB s ∧ wfC H s.
Proof.
  apply (cdn_run_invariant H (λ s, wfA H None s ∧ wfB s ∧ wfC H s)).
  - intros s0 l s1 (W & B & C) Hstep.
    split_and!; [by eapply wfA_step|by eapply wfB_step|by eapply wfC_step].
  - split_and!; [apply wfA_init|apply wfB_init|apply wfC_init].
Qed.

(** ** Every entry of [files] is the promise of its own [fetchFile] *)

Lemma keeps_ext s s' : ext s s' → keeps s s'.
Proof.
  intros Hext p o r Hp. destruct (ext_prom _ _ Hext _ _ _ Hp) as (r' & Hp' & _). eauto.
Qed.

Lemma keeps_trans s1 s2 s3 : keeps s1 s2 → keeps s2 s3 → keeps s1 s3.
Proof. intros H12 H23 p o r Hp. destruct (H12 _ _ _ Hp) as [r' Hp']. eauto. Qed.

Lemma keeps_settle p r s : keeps s (settle p r s).
Proof.
  intros x o r0 Hx. eexists. apply lookup_settle. eauto.
Qed.

Lemma point_keeps s s' : keeps s s' → files s' = files s → files_point s → files_point s'.
Proof.
  intros Hk Hf Hp f p Hin. rewrite Hf in Hin. destruct (Hp _ _ Hin) as [r Hr]. eauto.
Qed.

Lemma elem_of_map_set {A} k (v : A) m k' v' :
  (k', v') ∈ map_set k v m → (k', v') = (k, v) ∨ (k', v') ∈ m.
Proof.
  induction m as [|[k0 v0] m IH]; simpl.
  - intros Hin. apply list_elem_of_singleton in Hin. by left.
  - destruct (String.eqb k0 k) eqn:Hk.
    + apply String.eqb_eq in Hk as ->. intros [->|Hin]%elem_of_cons; [by left|].
      right. by right.
    + intros [->|Hin]%elem_of_cons; [right; by left|].
      destruct (IH Hin); [by left|right; by right].
Qed.

Lemma files_flat_stage H self f pkg s : files (flat_stage H self f pkg s) = files s.
Proof. unfold flat_stage. by destruct (map_get pkg (flatResult s)). Qed.

Lemma files_getVersion_loop' self s : files (getVersion_loop self s) = files s.
Proof. unfold getVersion_loop. by case_bool_decide. Qed.

Lemma readFile_with_point fetch s f s' r :
  fetch_point fetch → files_point s → readFile_with fetch s f = Some (s', r) →
  files_point s' ∧ keeps s s'.
Proof.
  intros Hfetch Hs. unfold readFile_with.
  destruct (eligible f); [|intros [= <- <-]; split; [done|by apply keeps_ext, ext_refl]].
  destruct (map_get f (files s)) eqn:Hget;
    [intros [= <- <-]; split; [done|by apply keeps_ext, ext_refl]|].
  destruct (fetch s f) as [[s1 p]|] eqn:Hf; [|done]. intros [= <- <-].
  destruct (Hfetch _ _ _ _ Hs Hf) as (Hs1 & Hk & r1 & Hp). split; [|done].
  intros g q Hin. simpl in Hin. apply elem_of_map_set in Hin as [[= -> ->]|Hin].
  - by exists r1.
  - by apply Hs1.
Qed.

Lemma fetchFile_go_point H n : fetch_point (fetchFile_go H n).
Proof.
  induction n as [|n IH]; intros s f s1 p Hs; [done|]. cbn [fetchFile_go].
  change (alloc (OFetchFile f) s) with ((alloc (OFetchFile f) s).1, length (promises s)).
  cbv beta iota. set (s0 := (alloc (OFetchFile f) s).1).
  assert (keeps s s0) as Hk0 by apply keeps_ext, (ext_alloc (OFetchFile f) s).
  assert (files_point s0) as Hs0 by by apply (point_keeps s).
  assert (promises s0 !! length (promises s) = Some (OFetchFile f, Pending)) as Hself.
  { apply (lookup_alloc (OFetchFile f) s). by right. }
  assert (∀ s2, keeps s0 s2 → files s2 = files s0 →
    files_point s2 ∧ keeps s s2 ∧
    ∃ r, promises s2 !! length (promises s) = Some (OFetchFile f, r)) as Hdone.
  { intros s2 Hk Hf. split_and!; [by eapply point_keeps|by eapply keeps_trans|by eapply Hk]. }
  destruct (hasFlat H).
  - destruct (pkgNameOf f) as [pkg|]; [|intros [= <- <-]; apply Hdone; [apply keeps_settle|reflexivity]].
    destruct (_ || _); [intros [= <- <-]; apply Hdone; [apply keeps_settle|reflexivity]|].
    destruct (_ || _); [intros [= <- <-]; apply Hdone; [apply keeps_settle|reflexivity]|].
    destruct (startsWith pkg "@types/").
    + destruct (readFile_with _ _ _) as [[s2 r]|] eqn:Hread; [|done]. intros [= <- <-].
      destruct (readFile_with_point _ _ _ _ _ IH Hs0 Hread) as [Hs2 Hk2].
      split_and!.
      * by apply (point_keeps s2); [apply keeps_ext, ext_tasks| |].
      * eapply keeps_trans; [done|]. eapply keeps_trans; [done|]. apply keeps_ext, ext_tasks.
      * by apply Hk2 in Hself.
    + intros [= <- <-]. apply Hdone; [apply keeps_ext, ext_flat_stage|apply files_flat_stage].
  - intros [= <- <-]. apply Hdone; [apply keeps_ext, ext_fetch_stage|reflexivity].
Qed.

Lemma readFile_point H s f s' r :
  files_point s → readFile H s f = Some (s', r) → files_point s' ∧ keeps s s'.
Proof.
  intros Hs. apply readFile_with_point; [|done].
  intros s0 g s1 p. apply fetchFile_go_point.
Qed.

Lemma files_point_step H s l s' :
  wfA H None s → files_point s → step H s l = Some s' → files_point s'.
Proof.
  intros W P Hstep. pose proof (keeps_ext _ _ (step_ext _ _ _ _ W Hstep)) as Hk.
  destruct l as [f| |p text|p fl|p e|self|self p]; simpl in Hstep.
  - destruct (readFile H s f) as [[s1 r]|] eqn:Hread; simpl in Hstep; simplify_eq.
    by destruct (readFile_point _ _ _ _ _ P Hread).
  - simplify_eq. eapply point_keeps; [done| |done]. by rewrite files_getVersion_loop'.
  - destruct (promises s !! p) as [[[] []]|]; simplify_eq. by eapply point_keeps.
  - destruct (promises s !! p) as [[[] []]|]; simplify_eq. by eapply point_keeps.
  - destruct (promises s !! p) as [[[] []]|]; simplify_eq. by eapply point_keeps.
  - destruct (tasks s !! self) as [[ws k]|]; [|done].
    destruct (all_fulfilled s ws) as [vs|]; [|done].
    destruct k as [f pkg orig|f pkg orig|f pkg|f|n]; simpl in Hstep.
    + destruct (text_of vs) as [t|]; [|done]. destruct (truthy t).
      * destruct (JSON_parse H _) as [| |ty tg]; simplify_eq;
          try by eapply point_keeps.
        destruct (ty || tg); simplify_eq; [by eapply point_keeps|].
        destruct (readFile H _ _) as [[s1 r]|] eqn:Hread; [|done]. simplify_eq.
        assert (files_point (set_tasks (delete self (tasks s)) s)) as P0 by done.
        destruct (readFile_point _ _ _ _ _ P0 Hread) as [P1 _]. done.
      * simplify_eq. eapply point_keeps; [done| |done]. by rewrite files_flat_stage.
    + destruct (text_of vs) as [t|]; [|done]. destruct (truthy t); simplify_eq.
      * by eapply point_keeps.
      * eapply point_keeps; [done| |done]. by rewrite files_flat_stage.
    + destruct vs as [|[| |] [|]]; try done. case_bool_decide; simplify_eq;
        by eapply point_keeps.
    + destruct vs as [|[| |] [|]]; try done. simplify_eq. by eapply point_keeps.
    + simplify_eq. eapply point_keeps; [done| |done].
      rewrite files_getVersion_loop'. by case_bool_decide.
  - destruct (tasks s !! self) as [[ws k]|]; [|done].
    case_bool_decide; [|done]. destruct (state_of s p); simplify_eq.
    by eapply point_keeps.
Qed.

Lemma files_point_run H ls s : run H init ls = Some s → files_point s.
Proof.
  intros Hrun.
  cut (wfA H None s ∧ files_point s); [by intros []|].
  revert Hrun. apply (cdn_run_invariant H (λ s, wfA H None s ∧ files_point s)).
  - intros s0 l s1 [W P] Hstep. split; [by eapply wfA_step|by eapply files_point_step].
  - split; [apply wfA_init|]. intros f p Hin. by apply elem_of_nil in Hin.
Qed.

(** ** The redundancy law *)

Lemma redundant_ext H s s' f : ext s s' → redundant H s f → redundant H s' f.
Proof.
  intros Hext (Hflat & pkg & m & text & ty & tg & Hpkg & Hshim & Hm & Hst & Htext & Hparse & Hred).
  split; [done|]. exists pkg, m, text, ty, tg. split_and!; try done.
  - by eapply ext_map_get.
  - rewrite (ext_state _ _ _ Hext); [done|]. by rewrite Hst.
  - destruct Hred as [?|(x & t & Hx & Hxs & Ht)]; [by left|right].
    exists x, t. split_and!; [by eapply ext_map_get| |done].
    rewrite (ext_state _ _ _ Hext); [done|]. by rewrite Hxs.
Qed.

Lemma all_fulfilled_single s m v :
  state_of s m = Fulfilled v → all_fulfilled s [m] = Some [v].
Proof. intros Hst. unfold all_fulfilled. simpl. by rewrite Hst. Qed.

Lemma redundant_safe H s f :
  wfC H s → redundant H s f →
  ¬ fetched s f ∧
  (∀ p r, promises s !! p = Some (OFetchFile f, r) → r = Pending ∨ r = Fulfilled (VText None)).
Proof.
  intros C Hred. split.
  - intros (q & self & u & r & Hq). apply (c_prom _ _ C) in Hq.
    by eapply evidence_redundant.
  - intros p r Hp. apply (c_prom _ _ C) in Hp as [?|[?|Hev]]; [by left|by right|].
    by destruct (evidence_redundant _ _ _ Hev Hred).
Qed.

Lemma redundant_settles H s f p :
  wfA H None s → wfC H s → redundant H s f →
  promises s !! p = Some (OFetchFile f, Pending) →
  ∃ ls2 s2, length ls2 ≤ 2 ∧ run H s ls2 = Some s2 ∧ files s2 = files s ∧
    promises s2 = promises (settle p (Fulfilled (VText None)) s).
Proof.
  intros W C Hred Hp.
  destruct (a_owned _ _ _ W _ _ Hp) as [[[ws k] Htask]|]; [|done].
  destruct (a_task _ _ _ W _ _ _ Htask) as [Hp' _].
  pose proof (c_task _ _ C _ _ _ Htask) as Hk.
  assert (korigin k = OFetchFile f) as Hko by congruence.
  pose proof Hred as (Hflat & pkg & m & text & ty & tg & Hpkg & Hshim & Hm & Hst & Htext & Hparse & Hty).
  destruct k as [f' pkg' orig|f' pkg' orig|f' pkg'|f'|n]; cbv beta iota in Hk;
    simpl in Hko; try discriminate Hko; injection Hko as ->.
  - destruct Hk as (_ & Hpkg' & _ & -> & m' & Hm' & ->).
    assert (pkg' = pkg) as -> by congruence. assert (m' = m) as -> by congruence.
    assert (step H s (LResume p) =
            resume H p (KManifest f pkg (originalOf pkg)) [VText (Some text)]
              (set_tasks (delete p (tasks s)) s)) as Hstep.
    { simpl. rewrite Htask. by rewrite (all_fulfilled_single _ _ _ Hst). }
    cbn [resume text_of ofUndefined] in Hstep.
    rewrite (proj2 (truthy_Some text) Htext), Hparse in Hstep.
    destruct (ty || tg) eqn:Hor.
    + exists [LResume p]. eexists. split; [simpl; lia|]. split; [|split].
      * cbn [run]. rewrite Hstep. reflexivity.
      * reflexivity.
      * reflexivity.
    + destruct Hty as [?|(x & t & Hx & Hxs & Ht)]; [done|].
      unfold readFile, readFile_with in Hstep. rewrite eligible_index in Hstep.
      change (files (set_tasks (delete p (tasks s)) s)) with (files s) in Hstep.
      rewrite Hx in Hstep.
      exists [LResume p; LResume p]. eexists. split; [simpl; lia|]. split; [|split].
      * cbn [run]. rewrite Hstep. cbn [step wait_on suspend set_tasks tasks].
        rewrite lookup_insert_eq.
        rewrite (all_fulfilled_single _ x (VText (Some t))); [|exact Hxs].
        cbn [resume text_of]. rewrite (proj2 (truthy_Some t) Ht). reflexivity.
      * reflexivity.
      * reflexivity.
  - destruct Hk as (_ & Hpkg' & _ & -> & (m' & text' & ty' & tg' & Hm' & Hst' & _ & Hparse' & Hor)
                    & x & Hx & ->).
    assert (pkg' = pkg) as -> by congruence. assert (m' = m) as -> by congruence.
    assert (text' = text) as -> by congruence.
    assert (ty' || tg' = ty || tg) as Hsame by congruence.
    destruct Hty as [?|(x' & t & Hx' & Hxs & Ht)]; [congruence|].
    assert (x' = x) as -> by congruence.
    exists [LResume p]. eexists. split; [simpl; lia|]. split; [|split].
    + cbn [run step]. rewrite Htask. rewrite (all_fulfilled_single _ _ _ Hxs).
      cbn [resume text_of]. rewrite (proj2 (truthy_Some t) Ht). reflexivity.
    + reflexivity.
    + reflexivity.
  - by destruct (evidence_redundant _ _ _ Hk Hred).
  - by destruct (evidence_redundant _ _ _ Hk Hred).
Qed.

(** C6, as amended.  With a listing callback, once the manifest of the
    original package has settled to a text that parses and either declares
    [types] or [typings], or the package's [index.d.ts] has settled to a
    text, then in every later state no request for a file [f] of the shim
    has been issued, the promise of [fetchFile(f)] is pending or fulfilled
    with [undefined], a read of [f] returns that promise, and a pending one
    is fulfilled with [undefined] after at most two resumptions, leaving
    [files] and all other promises as they were. *)
Theorem redundant_shim_is_absent H ls s f ls' s' :
  run H init ls = Some s → redundant H s f → run H s ls' = Some s' →
  ¬ fetched s' f ∧
  (∀ p r, promises s' !! p = Some (OFetchFile f, r) →
     r = Pending ∨ r = Fulfilled (VText None)) ∧
  (∀ s1 p, readFile H s' f = Some (s1, Some p) →
     ¬ fetched s1 f ∧
     ∃ r, promises s1 !! p = Some (OFetchFile f, r) ∧
          (r = Pending ∨ r = Fulfilled (VText None))) ∧
  (∀ p, promises s' !! p = Some (OFetchFile f, Pending) →
     ∃ ls2 s2, length ls2 ≤ 2 ∧ run H s' ls2 = Some s2 ∧ files s2 = files s' ∧
       promises s2 = promises (settle p (Fulfilled (VText None)) s')).
Proof.
  intros Hrun Hred Hrun'.
  destruct (wf_all _ _ _ Hrun) as (W & _ & _).
  destruct (run_ext _ _ _ _ W Hrun') as [Hext W'].
  assert (run H init (ls ++ ls') = Some s') as Hall.
  { rewrite cdn_run_app, Hrun. exact Hrun'. }
  destruct (wf_all _ _ _ Hall) as (_ & _ & C').
  pose proof (redundant_ext _ _ _ _ Hext Hred) as Hred'.
  destruct (redundant_safe _ _ _ C' Hred') as [Hno Hst].
  split_and!; [done|done| |].
  - intros s1 p Hread.
    assert (run H init ((ls ++ ls') ++ [LRead f]) = Some s1) as Hall1.
    { eapply cdn_run_snoc; [done|]. cbn [step]. by rewrite Hread. }
    destruct (wf_all _ _ _ Hall1) as (W1 & _ & C1).
    assert (ext s' s1) as Hext1.
    { apply (step_ext H s' (LRead f)); [done|]. cbn [step]. by rewrite Hread. }
    pose proof (redundant_ext _ _ _ _ Hext1 Hred') as Hred1.
    destruct (redundant_safe _ _ _ C1 Hred1) as [Hno1 Hst1]. split; [done|].
    destruct (readFile_grows _ _ _ _ _ (wfA_fresh _ _ _ W') Hread) as (_ & Hr & _).
    destruct (eligible f); [|done].
    symmetry in Hr. apply map_get_Some_elem in Hr.
    destruct (files_point_run _ _ _ Hall1 _ _ Hr) as [r Hp]. exists r. split; [done|].
    by eapply Hst1.
  - intros p Hp. by eapply redundant_settles.
Qed.

(** The run [types_known], then a read of [shim_file]. *)
Lemma redundant_shim_is_absent_witness :
  ¬ fetched (default init (run (jsdelivr true) init (types_known ++ [LRead shim_file])))
            shim_file.
Proof.
  refine (proj1 (redundant_shim_is_absent (jsdelivr true) types_known
                   (default init (run (jsdelivr true) init types_known))
                   shim_file [LRead shim_file] _ _ _ _)).
  - vm_compute. reflexivity.
  - split; [reflexivity|].
    exists "@types/foo", 0, typed_manifest, true, false.
    split_and!; try (vm_compute; reflexivity).
    + intros Heq. vm_compute in Heq. discriminate.
    + left. reflexivity.
  - vm_compute. reflexivity.
Defined.

(** C6 (as worded) fails twice.  Without a listing callback the check of
    lines 307-324 is skipped: after [manifest_known], a read of [shim_file]
    issues the request for it at once.  With the callback, line 319 is not
    reached when the manifest could not be fetched: after [index_known],
    a read of [shim_file] followed by [manifest_lost] issues the request
    although [index.d.ts] of [foo] is cached with a text. *)
Lemma shim_fetched_despite_types :
  ¬ shim_never_fetched (jsdelivr false) ∧ ¬ shim_never_fetched (jsdelivr true).
Proof.
  split; intros Hclaim.
  - destruct (Hclaim manifest_known
                (default init (run (jsdelivr false) init manifest_known))
                shim_file "@types/foo" []
                (default init (run (jsdelivr false) init (manifest_known ++ [LRead shim_file]))))
      as [Hno _]; try (vm_compute; reflexivity).
    { left. exists 0, typed_manifest, true, false. split_and!; vm_compute; reflexivity. }
    apply Hno.
    exists 3, 2, "https://cdn.jsdelivr.net/npm/@types/foo/index.d.ts", Pending.
    vm_compute. reflexivity.
  - destruct (Hclaim index_known
                (default init (run (jsdelivr true) init index_known))
                shim_file "@types/foo" manifest_lost
                (default init (run (jsdelivr true) init
                                 (index_known ++ LRead shim_file :: manifest_lost))))
      as [Hno _]; try (vm_compute; reflexivity).
    { right. exists 0, "export {};". split_and!; [vm_compute; reflexivity..|done]. }
    apply Hno.
    exists 7, 3, "https://cdn.jsdelivr.net/npm/@types/foo/index.d.ts", Pending.
    vm_compute. reflexivity.
Qed.

(** ** A manifest that does not parse *)

Lemma silent_refl s : silent s s.
Proof. by split. Qed.

Lemma silent_trans s1 s2 s3 : silent s1 s2 → silent s2 s3 → silent s1 s3.
Proof.
  intros [R1 P1] [R2 P2]. split; [congruence|]. intros g v Hg. by apply P1, P2.
Qed.

Lemma silent_same s s' :
  returned s' = returned s → promises s' = promises s → silent s s'.
Proof. intros Hr Hp. split; [done|]. intros g v. by rewrite Hp. Qed.

Lemma silent_alloc o s : silent s (alloc o s).1.
Proof.
  split; [done|]. intros g v Hg. apply lookup_alloc in Hg as [?|(_ & _ & ?)]; done.
Qed.

Lemma silent_settle p r s o r0 :
  promises s !! p = Some (o, r0) → o ≠ OGetVersion → silent s (settle p r s).
Proof.
  intros Hp Ho. split; [done|]. intros g v Hg.
  apply lookup_settle in Hg as (r1 & Hg & Hr). case_decide; [|by subst].
  subst. congruence.
Qed.

Lemma silent_fetch_stage H self f s : silent s (fetch_stage H self f s).
Proof.
  unfold fetch_stage.
  change (alloc (OFetchText self f (requestUrl H f)) s)
    with ((alloc (OFetchText self f (requestUrl H f)) s).1, length (promises s)).
  cbv beta iota. eapply silent_trans; [apply silent_alloc|]. by apply silent_same.
Qed.

Lemma silent_flat_stage H self f pkg s : silent s (flat_stage H self f pkg s).
Proof.
  unfold flat_stage. destruct (map_get pkg (flatResult s)); [by apply silent_same|].
  change (alloc (OFlat pkg) s)
    with ((alloc (OFlat pkg) s).1, length (promises s)).
  cbv beta iota. eapply silent_trans; [apply silent_alloc|]. by apply silent_same.
Qed.

Lemma silent_grows H bound s s' : grows H bound None s s' → silent s s'.
Proof.
  intros G. split; [apply (gr_ret _ _ _ _ _ G)|]. intros g v Hg.
  destruct (decide (g < length (promises s))) as [Hlt|Hge].
  - by rewrite <-(gr_old_proms _ _ _ _ _ G) by done.
  - by destruct (gr_new_proms _ _ _ _ _ G g _ _ ltac:(lia) Hg).
Qed.

Lemma poisoned_ext s s' : ext s s' → poisoned s → poisoned s'.
Proof.
  intros Hext (i & f & p & e & Hi & Hst). exists i, f, p, e.
  destruct (ext_files _ _ Hext) as [fs ->]. split.
  - by apply lookup_app_l_Some.
  - rewrite (ext_state _ _ _ Hext); [done|]. by rewrite Hst.
Qed.

Lemma poisoned_last s : wfB s → poisoned s → lastUpdateFilesSize s < length (files s).
Proof.
  intros B (i & f & p & e & Hi & Hst).
  pose proof (lookup_lt_Some _ _ _ Hi) as Hlt.
  destruct (decide (i < lastUpdateFilesSize s)) as [Hlast|]; [|lia].
  destruct (b_drained _ B _ Hlast) as (f' & p' & v & Hi' & Hv). congruence.
Qed.

Lemma poisoned_loop self s :
  lastUpdateFilesSize s < length (files s) →
  getVersion_loop self s = suspend self (files s).*2 (KDrain (length (files s))) s.
Proof. intros Hlt. unfold getVersion_loop. case_bool_decide; [done|lia]. Qed.

Lemma poisoned_drain s ws n vs :
  wfB s → poisoned s → ws = (take n (files s)).*2 → all_fulfilled s ws = Some vs →
  n < length (files s).
Proof.
  intros B (i & f & p & e & Hi & Hst) -> Hvs.
  pose proof (lookup_lt_Some _ _ _ Hi) as Hlt.
  destruct (decide (i < n)) as [Hin|]; [|lia].
  destruct (all_fulfilled_spec _ _ _ Hvs p) as [v Hv]; [|congruence].
  apply list_elem_of_fmap. exists (f, p). split; [done|].
  apply list_elem_of_lookup. exists i. by rewrite lookup_take_lt.
Qed.

Lemma silent_step H s l s' :
  wfA H None s → wfB s → poisoned s → step H s l = Some s' → silent s s'.
Proof.
  intros W B Hpois Hstep. pose proof (poisoned_last _ B Hpois) as Hlast.
  destruct l as [f| |p text|p fl|p e|self|self p]; simpl in Hstep.
  - destruct (readFile H s f) as [[s1 r]|] eqn:Hread; simpl in Hstep; simplify_eq.
    destruct (readFile_grows _ _ _ _ _ (wfA_fresh _ _ _ W) Hread) as (G & _).
    by eapply silent_grows.
  - simplify_eq. rewrite poisoned_loop by done.
    eapply silent_trans; [apply (silent_alloc OGetVersion)|]. by apply silent_same.
  - destruct (promises s !! p) as [[[] []]|] eqn:Hp; simplify_eq.
    by eapply silent_settle.
  - destruct (promises s !! p) as [[[] []]|] eqn:Hp; simplify_eq.
    by eapply silent_settle.
  - destruct (promises s !! p) as [[[] []]|] eqn:Hp; simplify_eq.
    by eapply silent_settle.
  - destruct (tasks s !! self) as [[ws k]|] eqn:Hself; [|done].
    destruct (all_fulfilled s ws) as [vs|] eqn:Hvs; [|done].
    destruct (a_task _ _ _ W _ _ _ Hself) as [Hp _].
    set (s0 := set_tasks (delete self (tasks s)) s) in *.
    assert (silent s s0) as S0 by by apply silent_same.
    assert (promises s0 !! self = Some (korigin k, Pending)) as Hp0 by done.
    destruct k as [f pkg orig|f pkg orig|f pkg|f|n]; simpl in Hstep, Hp0.
    + destruct (text_of vs) as [t|]; [|done]. destruct (truthy t).
      * destruct (JSON_parse H _) as [| |ty tg]; simplify_eq;
          try by (eapply silent_trans; [done|]; eapply silent_settle).
        destruct (ty || tg); simplify_eq;
          [by (eapply silent_trans; [done|]; eapply silent_settle)|].
        destruct (readFile H _ _) as [[s1 r]|] eqn:Hread; [|done]. simplify_eq.
        assert (fresh s0) as Hfresh.
        { intros x Hx. unfold s0. simpl. apply lookup_delete_None. right.
          by apply (wfA_fresh _ _ _ W). }
        destruct (readFile_grows _ _ _ _ _ Hfresh Hread) as (G & _).
        eapply silent_trans; [done|]. eapply silent_trans; [by eapply silent_grows|].
        by apply silent_same.
      * simplify_eq. eapply silent_trans; [done|]. apply silent_flat_stage.
    + destruct (text_of vs) as [t|]; [|done]. destruct (truthy t); simplify_eq.
      * eapply silent_trans; [done|]. by eapply silent_settle.
      * eapply silent_trans; [done|]. apply silent_flat_stage.
    + destruct vs as [|[| |] [|]]; try done. case_bool_decide; simplify_eq.
      * eapply silent_trans; [done|]. apply silent_fetch_stage.
      * eapply silent_trans; [done|]. by eapply silent_settle.
    + destruct vs as [|[| |] [|]]; try done. simplify_eq.
      eapply silent_trans; [done|]. by eapply silent_settle.
    + simplify_eq. destruct (b_drain _ B _ _ _ Hself) as [Hws Hn].
      pose proof (poisoned_drain _ _ _ _ B Hpois Hws Hvs) as Hshort.
      rewrite poisoned_loop.
      * eapply silent_trans; [done|]. apply silent_same; by case_bool_decide.
      * case_bool_decide; simpl; [done|]. done.
  - destruct (tasks s !! self) as [[ws k]|] eqn:Hself; [|done].
    case_bool_decide as Hin; [|done].
    destruct (state_of s p) as [| |e] eqn:Hst; try done. simplify_eq.
    destruct (a_task _ _ _ W _ _ _ Hself) as [Hp _].
    split; [done|]. intros g v Hg.
    apply lookup_settle in Hg as (r1 & Hg & Hr). case_decide; [done|by subst].
Qed.

Lemma born_same s s' : promises s' = promises s → born s s'.
Proof. intros Hp q owner f u r. rewrite Hp. eauto. Qed.

Lemma born_settle p r s : born s (settle p r s).
Proof.
  intros q owner f u r' Hq. apply lookup_settle in Hq as (r0 & Hq & _). eauto.
Qed.

Lemma born_flat_stage H self f pkg s : born s (flat_stage H self f pkg s).
Proof.
  unfold flat_stage. destruct (map_get pkg (flatResult s)); [by apply born_same|].
  intros q owner g u r Hq.
  apply (lookup_alloc (OFlat pkg) s) in Hq
    as [?|(_ & ? & _)]; [eauto|done].
Qed.

Lemma born_fetch_stage H self f s :
  state_of s self = Pending → born s (fetch_stage H self f s).
Proof.
  intros Hself q owner g u r Hq.
  apply (lookup_alloc (OFetchText self f (requestUrl H f)) s) in Hq
    as [?|(_ & ? & _)]; [eauto|]. simplify_eq. by right.
Qed.

Lemma born_grows H bound s s' : grows H bound None s s' → born s s'.
Proof.
  intros G q owner f u r Hq.
  destruct (decide (q < length (promises s))) as [Hlt|Hge].
  - rewrite (gr_old_proms _ _ _ _ _ G) in Hq by done. eauto.
  - destruct (gr_new_proms _ _ _ _ _ G q _ _ ltac:(lia) Hq) as (_ & _ & _ & Hbase & _).
    right. unfold state_of. by rewrite lookup_ge_None_2.
Qed.

Lemma born_getVersion_loop self s : born s (getVersion_loop self s).
Proof.
  unfold getVersion_loop. case_bool_decide; [by apply born_same|].
  intros q owner f u r Hq. apply lookup_settle in Hq as (r0 & Hq & _). eauto.
Qed.

Lemma born_step H s l s' : wfA H None s → step H s l = Some s' → born s s'.
Proof.
  intros W Hstep.
  destruct l as [f| |p text|p fl|p e|self|self p]; simpl in Hstep.
  - destruct (readFile H s f) as [[s1 r]|] eqn:Hread; simpl in Hstep; simplify_eq.
    destruct (readFile_grows _ _ _ _ _ (wfA_fresh _ _ _ W) Hread) as (G & _).
    by eapply born_grows.
  - simplify_eq. intros q owner f u r Hq.
    apply born_getVersion_loop in Hq as [[r0 Hq]|Hq].
    + apply (lookup_alloc OGetVersion s) in Hq as [?|(_ & ? & _)]; [eauto|done].
    + right. destruct (decide (owner < length (promises s))) as [Hlt|Hge].
      * by rewrite <-(state_of_alloc_old OGetVersion s owner Hlt).
      * unfold state_of. rewrite lookup_ge_None_2; [done|lia].
  - destruct (promises s !! p) as [[[] []]|] eqn:Hp; simplify_eq. apply born_settle.
  - destruct (promises s !! p) as [[[] []]|] eqn:Hp; simplify_eq. apply born_settle.
  - destruct (promises s !! p) as [[[] []]|] eqn:Hp; simplify_eq. apply born_settle.
  - destruct (tasks s !! self) as [[ws k]|] eqn:Hself; [|done].
    destruct (all_fulfilled s ws) as [vs|] eqn:Hvs; [|done].
    destruct (a_task _ _ _ W _ _ _ Hself) as [Hp _].
    set (s0 := set_tasks (delete self (tasks s)) s) in *.
    assert (∀ s1, born s0 s1 → born s s1) as Hvia by done.
    destruct k as [f pkg orig|f pkg orig|f pkg|f|n]; simpl in Hstep.
    + destruct (text_of vs) as [t|]; [|done]. destruct (truthy t).
      * destruct (JSON_parse H _) as [| |ty tg]; simplify_eq; try apply Hvia, born_settle.
        destruct (ty || tg); simplify_eq; [apply Hvia, born_settle|].
        destruct (readFile H _ _) as [[s1 r]|] eqn:Hread; [|done]. simplify_eq.
        assert (fresh s0) as Hfresh.
        { intros x Hx. unfold s0. simpl. apply lookup_delete_None. right.
          by apply (wfA_fresh _ _ _ W). }
        destruct (readFile_grows _ _ _ _ _ Hfresh Hread) as (G & _).
        apply Hvia. intros q owner g u r' Hq. by apply (born_grows _ _ _ _ G) in Hq.
      * simplify_eq. apply Hvia, born_flat_stage.
    + destruct (text_of vs) as [t|]; [|done]. destruct (truthy t); simplify_eq.
      * apply Hvia, born_settle.
      * apply Hvia, born_flat_stage.
    + destruct vs as [|[| |] [|]]; try done. case_bool_decide; simplify_eq.
      * apply Hvia, born_fetch_stage. by apply (state_of_lookup _ _ _ _ Hp).
      * apply Hvia, born_settle.
    + destruct vs as [|[| |] [|]]; try done. simplify_eq. apply Hvia, born_settle.
    + simplify_eq. intros q owner f u r Hq.
      apply born_getVersion_loop in Hq. by case_bool_decide.
  - destruct (tasks s !! self) as [[ws k]|] eqn:Hself; [|done].
    case_bool_decide as Hin; [|done].
    destruct (state_of s p) as [| |e] eqn:Hst; try done. simplify_eq.
    intros q owner f u r Hq. apply lookup_settle in Hq as (r0 & Hq & _). eauto.
Qed.

Lemma settled_never_fetches H ls : ∀ s s' owner,
  wfA H None s → state_of s owner ≠ Pending →
  run H s ls = Some s' →
  ∀ q f u r, promises s' !! q = Some (OFetchText owner f u, r) →
    ∃ r0, promises s !! q = Some (OFetchText owner f u, r0).
Proof.
  induction ls as [|l ls IH]; intros s s' owner W Hst Hrun q f u r Hq.
  - simpl in Hrun. simplify_eq. eauto.
  - cbn [run] in Hrun. destruct (step H s l) as [s1|] eqn:Hstep; [|done].
    pose proof (wfA_step _ _ _ _ W Hstep) as W1.
    pose proof (step_ext _ _ _ _ W Hstep) as Hext.
    assert (state_of s1 owner ≠ Pending) as Hst1 by by rewrite (ext_state _ _ _ Hext).
    destruct (IH _ _ _ W1 Hst1 Hrun _ _ _ _ Hq) as [r1 Hq1].
    by destruct (born_step _ _ _ _ W Hstep _ _ _ _ _ Hq1).
Qed.

Lemma poisoned_getVersion s self f e :
  wfB s → (f, self) ∈ files s → state_of s self = Rejected e →
  ∀ H, ∃ s3 s4, step H s LGetVersion = Some s3 ∧
    step H s3 (LThrow (length (promises s)) self) = Some s4 ∧
    state_of s4 (length (promises s)) = Rejected e.
Proof.
  intros B Hin Hst H.
  assert (poisoned s) as Hpois.
  { apply list_elem_of_lookup in Hin as [i Hi]. by exists i, f, self, e. }
  pose proof (poisoned_last _ B Hpois) as Hlast.
  assert (self < length (promises s)) as Hlt.
  { unfold state_of in Hst. destruct (promises s !! self) eqn:Hp; [|done].
    by eapply lookup_lt_Some. }
  set (s0 := (alloc OGetVersion s).1).
  set (g := length (promises s)).
  assert (step H s LGetVersion = Some (suspend g (files s).*2 (KDrain (length (files s))) s0))
    as Hstep.
  { cbn [step].
    change (alloc OGetVersion s) with (s0, g). cbv beta iota.
    by rewrite poisoned_loop. }
  eexists _, _. split; [exact Hstep|].
  assert (state_of s0 self = Rejected e) as Hst0.
  { unfold s0. by rewrite state_of_alloc_old. }
  split.
  - cbn [step suspend set_tasks tasks]. rewrite lookup_insert_eq.
    rewrite bool_decide_eq_true_2.
    + change (state_of _ self) with (state_of s0 self). rewrite Hst0. reflexivity.
    + apply list_elem_of_fmap. by exists (f, self).
  - eapply state_of_settle_eq. apply (lookup_alloc OGetVersion s). by right.
Qed.

(** C5.  A manifest that [JSON.parse] rejects (or parses to [null]) makes
    the continuation of [fetchFile(f)] at line 315 throw: the promise that
    [files] holds for the shim's file [f] is rejected with that error, at
    once and without any request.  From then on no request for [f] is ever
    issued, every read of [f] returns the rejected promise, [getVersion]
    never returns again, and a call of [getVersion] rejects with the same
    error. *)
Theorem malformed_manifest_poisons H ls s self f pkg orig m text e :
  run H init ls = Some s →
  tasks s !! self = Some ([m], KManifest f pkg orig) →
  state_of s m = Fulfilled (VText (Some text)) → text ≠ "" →
  parse_error (JSON_parse H text) = Some e →
  ∃ s', step H s (LResume self) = Some s' ∧
    map_get f (files s') = Some self ∧
    promises s' = promises (settle self (Rejected e) s) ∧
    ∀ ls' s'', run H s' ls' = Some s'' →
      ¬ fetched s'' f ∧
      state_of s'' self = Rejected e ∧
      readFile H s'' f = Some (s'', if eligible f then Some self else None) ∧
      returned s'' = returned s' ∧
      (∀ g v, promises s'' !! g = Some (OGetVersion, Fulfilled v) →
              promises s' !! g = Some (OGetVersion, Fulfilled v)) ∧
      ∃ s3 s4, step H s'' LGetVersion = Some s3 ∧
               step H s3 (LThrow (length (promises s'')) self) = Some s4 ∧
               state_of s4 (length (promises s'')) = Rejected e.
Proof.
  intros Hrun Htask Hm Htext Hparse.
  destruct (wf_all _ _ _ Hrun) as (W & B & _).
  destruct (a_task _ _ _ W _ _ _ Htask) as [Hself _].
  pose proof (a_reg _ _ _ W _ _ _ Hself) as Hreg.
  set (s' := settle self (Rejected e) (set_tasks (delete self (tasks s)) s)).
  assert (step H s (LResume self) = Some s') as Hstep.
  { cbn [step]. rewrite Htask, (all_fulfilled_single _ _ _ Hm).
    cbn [resume text_of ofUndefined]. rewrite (proj2 (truthy_Some text) Htext).
    destruct (JSON_parse H text); simpl in Hparse; by simplify_eq. }
  exists s'. split_and!; [done|done|done|].
  assert (run H init (ls ++ [LResume self]) = Some s') as Hrun1
    by by eapply cdn_run_snoc.
  destruct (wf_all _ _ _ Hrun1) as (W1 & B1 & _).
  assert (state_of s' self = Rejected e) as Hst1.
  { eapply state_of_settle_eq. exact Hself. }
  assert (¬ fetched s' f) as Hno1.
  { intros (q & owner & u & r & Hq).
    apply lookup_settle in Hq as (r0 & Hq & _). simpl in Hq.
    destruct (a_text _ _ _ W _ _ _ _ _ Hq) as (_ & [r' Howner] & Hpend).
    pose proof (a_reg _ _ _ W _ _ _ Howner) as Hreg'.
    assert (owner = self) as -> by congruence.
    rewrite Hpend in Htask; [done|]. by apply (state_of_lookup _ _ _ _ Hself). }
  intros ls' s'' Hrun'.
  assert (wfA H None s'' ∧ wfB s'' ∧ ext s' s'' ∧ silent s' s'') as (W2 & B2 & Hext & Hsil).
  { revert Hrun'.
    apply (cdn_run_invariant H (λ t, wfA H None t ∧ wfB t ∧ ext s' t ∧ silent s' t)).
    - intros t l t' (Wt & Bt & Et & St) Hl.
      assert (poisoned t) as Hpois.
      { apply (poisoned_ext s'); [done|].
        apply map_get_Some_elem, list_elem_of_lookup in Hreg as [i Hi].
        by exists i, f, self, e. }
      split_and!.
      + by eapply wfA_step.
      + by eapply wfB_step.
      + eapply ext_trans; [done|]. by eapply step_ext.
      + eapply silent_trans; [done|]. by eapply silent_step.
    - split_and!; [done|done|apply ext_refl|apply silent_refl]. }
  assert (map_get f (files s'') = Some self) as Hreg2 by by apply (ext_map_get s').
  assert (state_of s'' self = Rejected e) as Hst2.
  { rewrite (ext_state _ _ _ Hext); [done|]. by rewrite Hst1. }
  split_and!.
  - intros (q & owner & u & r & Hq).
    destruct (a_text _ _ _ W2 _ _ _ _ _ Hq) as (_ & [r' Howner] & _).
    pose proof (a_reg _ _ _ W2 _ _ _ Howner) as Hreg'.
    assert (owner = self) as -> by congruence.
    destruct (settled_never_fetches H ls' s' s'' self W1 ltac:(by rewrite Hst1) Hrun'
                _ _ _ _ Hq) as [r0 Hq0].
    apply Hno1. by exists q, self, u, r0.
  - done.
  - unfold readFile, readFile_with. destruct (eligible f); [|done]. by rewrite Hreg2.
  - apply (si_ret _ _ Hsil).
  - apply (si_prom _ _ Hsil).
  - eapply poisoned_getVersion; [done| |done]. by apply map_get_Some_elem.
Qed.

(** The run [malformed_known]: the shim's [fetchFile] is promise 3. *)
Lemma malformed_manifest_poisons_witness :
  ∃ s', step (jsdelivr true) (default init (run (jsdelivr true) init malformed_known))
          (LResume 3) = Some s' ∧
        state_of s' 3 = Rejected SyntaxError ∧ map_get shim_file (files s') = Some 3.
Proof.
  destruct (malformed_manifest_poisons (jsdelivr true) malformed_known
              (default init (run (jsdelivr true) init malformed_known))
              3 shim_file "@types/foo" "foo" 0 "{" SyntaxError)
    as (s' & Hstep & Hreg & _ & Hlater).
  - vm_compute. reflexivity.
  - vm_compute. reflexivity.
  - vm_compute. reflexivity.
  - discriminate.
  - vm_compute. reflexivity.
  - exists s'. split_and!; [done| |done].
    by destruct (Hlater [] s' eq_refl) as (_ & ? & _).
Defined.

(** ** Sample runs *)

(** The second of two reads returns promise 0 again and changes nothing;
    promise 0 is the only [fetchFile] for that name. *)
Lemma read_is_idempotent_witness :
  readFile (jsdelivr false)
    (default init (run (jsdelivr false) init [LRead lodash_manifest])) lodash_manifest
  = Some (default init (run (jsdelivr false) init [LRead lodash_manifest]), Some 0) ∧
  ∀ p p' r r',
    promises (default init (run (jsdelivr false) init read_twice)) !! p
      = Some (OFetchFile lodash_manifest, r) →
    promises (default init (run (jsdelivr false) init read_twice)) !! p'
      = Some (OFetchFile lodash_manifest, r') → p = p'.
Proof.
  split; [vm_compute; reflexivity|].
  refine (proj1 (proj2 (proj2 (proj2 (proj2
    (read_is_idempotent (jsdelivr false) [] init lodash_manifest
       (default init (run (jsdelivr false) init [LRead lodash_manifest])) (Some 0) []
       (default init (run (jsdelivr false) init [LRead lodash_manifest]))
       (default init (run (jsdelivr false) init read_twice)) (Some 0) _ _ _ _)))))).
  - reflexivity.
  - vm_compute. reflexivity.
  - vm_compute. reflexivity.
  - vm_compute. reflexivity.
Defined.


(** ** What is registered, listed and requested *)

Lemma listed_ext s s' f : ext s s' → ext_flat s s' → listed s f → listed s' f.
Proof.
  intros Hext Hfl (pkg & q & l & Hpkg & Hq & Hst & Hin). exists pkg, q, l.
  split_and!; [done|by apply Hfl| |done].
  rewrite (ext_state _ _ _ Hext); [done|]. by rewrite Hst.
Qed.

Lemma task_shape_ext H s s' self ws k :
  ext s s' → ext_flat s s' → task_shape H s self ws k → task_shape H s' self ws k.
Proof.
  intros Hext Hfl. destruct k as [f pkg orig|f pkg orig|f pkg|f|n]; simpl; try done.
  - intros (? & ? & q & -> & Hq). split_and!; [done..|]. exists q. split; [done|by apply Hfl].
  - intros (q & u & r & -> & Hq).
    destruct (ext_prom _ _ Hext _ _ _ Hq) as (r' & Hq' & _). by exists q, u, r'.
Qed.

Lemma promise_shape_ext H s s' p o r :
  ext s s' → ext_flat s s' → promise_shape H s p o r → promise_shape H s' p o r.
Proof.
  intros Hext Hfl. destruct o as [f|self f u|pkg|]; simpl; try done.
  - intros (Ht & Hv & Hi). split_and!; [|done|done].
    intros t Hr. destruct (Ht t Hr) as (q & u & Hq).
    destruct (ext_prom _ _ Hext _ _ _ Hq) as (r' & Hq' & Hkeep).
    exists q, u. by rewrite Hq', Hkeep.
  - intros [Hr Hl]. split; [done|]. intros Hflat. by eapply listed_ext; [..|apply Hl].
  - intros (? & Hq & ?). split_and!; try done. by apply Hfl.
Qed.

Lemma D_frame H s s' :
  wfD H s → ext s s' → ext_flat s s' →
  (∀ f p, (f, p) ∈ files s' → (f, p) ∈ files s ∨ eligible f = true) →
  (∀ pkg q, map_get pkg (flatResult s') = Some q →
     map_get pkg (flatResult s) = Some q ∨
     ∃ r, promises s' !! q = Some (OFlat pkg, r)) →
  (∀ self ws k, tasks s' !! self = Some (ws, k) →
     tasks s !! self = Some (ws, k) ∨ task_shape H s' self ws k) →
  (∀ p o r, promises s' !! p = Some (o, r) →
     promises s !! p = Some (o, r) ∨ promise_shape H s' p o r) →
  wfD H s'.
Proof.
  intros [D1 D2 D3 D4] Hext Hfl Hfiles Hback Htasks Hproms. constructor.
  - intros f p Hin. destruct (Hfiles _ _ Hin); [by eapply D1|done].
  - intros pkg q Hq. destruct (Hback _ _ Hq) as [Hold|?]; [|done].
    destruct (D2 _ _ Hold) as [r Hr].
    destruct (ext_prom _ _ Hext _ _ _ Hr) as (r' & Hr' & _). eauto.
  - intros self ws k Ht. destruct (Htasks _ _ _ Ht) as [Ho|?]; [|done].
    eapply task_shape_ext; [done|done|]. by eapply D3.
  - intros p o r Hp. destruct (Hproms _ _ _ Hp) as [Ho|?]; [|done].
    eapply promise_shape_ext; [done|done|]. by eapply D4.
Qed.

Lemma ext_flat_same s s' : flatResult s' = flatResult s → ext_flat s s'.
Proof. intros Hf pkg q. by rewrite Hf. Qed.

Lemma wfD_init H : wfD H init.
Proof.
  constructor; simpl.
  - intros f p Hin. by apply elem_of_nil in Hin.
  - done.
  - intros self ws k Ht. by rewrite lookup_empty in Ht.
  - done.
Qed.

Lemma D_delete H self s : wfD H s → wfD H (set_tasks (delete self (tasks s)) s).
Proof.
  intros D. eapply D_frame; [done|apply ext_tasks|by apply ext_flat_same|..].
  - intros f p Hin. by left.
  - intros pkg q Hq. by left.
  - simpl. intros self' ws k Ht. left. by apply lookup_delete_Some in Ht as [_ ?].
  - intros p o r Hp. by left.
Qed.

Lemma D_suspend H self ws k s :
  wfD H s → task_shape H s self ws k → wfD H (suspend self ws k s).
Proof.
  intros D Hk. eapply D_frame; [done|apply ext_tasks|by apply ext_flat_same|..].
  - intros f p Hin. by left.
  - intros pkg q Hq. by left.
  - simpl. intros self' ws' k' Ht.
    apply lookup_insert_Some in Ht as [[<- [= <- <-]]|[_ ?]]; [right|by left].
    eapply task_shape_ext; [apply ext_tasks|by apply ext_flat_same|done].
  - intros p o r Hp. by left.
Qed.

Lemma D_settle H p o r s :
  wfD H s → promises s !! p = Some (o, Pending) → promise_shape H s p o r →
  wfD H (settle p r s).
Proof.
  intros D Hp Hr.
  assert (ext s (settle p r s)) as Hext by (apply ext_settle; by eapply state_of_lookup).
  eapply D_frame; [done|done|by apply ext_flat_same|..].
  - intros f q Hin. by left.
  - intros pkg q Hq. by left.
  - intros self ws k Ht. by left.
  - intros x o' r' Hx. apply lookup_settle in Hx as (r0 & Hx & ->).
    destruct (decide (p = x)) as [->|Hne]; [|by left].
    right. rewrite Hp in Hx. injection Hx as <- _.
    eapply promise_shape_ext; [done|by apply ext_flat_same|done].
Qed.

Lemma D_alloc H o s :
  wfD H s → promise_shape H s (length (promises s)) o Pending → wfD H (alloc o s).1.
Proof.
  intros D Ho. eapply D_frame; [done|apply ext_alloc|by apply ext_flat_same|..].
  - intros f q Hin. by left.
  - intros pkg q Hq. by left.
  - intros self ws k Ht. by left.
  - intros x o' r' Hx. apply lookup_alloc in Hx as [?|(-> & -> & ->)]; [by left|right].
    eapply promise_shape_ext; [apply ext_alloc|by apply ext_flat_same|done].
Qed.

(** A promise that is created and settled in one block. *)
Lemma D_settled H f r s :
  wfD H s → r ≠ Pending →
  promise_shape H s (length (promises s)) (OFetchFile f) r →
  wfD H (settle (length (promises s)) r (alloc (OFetchFile f) s).1).
Proof.
  intros D Hr Ho.
  assert (ext s (settle (length (promises s)) r (alloc (OFetchFile f) s).1)) as Hext.
  { eapply ext_trans; [apply (ext_alloc (OFetchFile f))|].
    apply ext_settle, state_of_alloc. }
  eapply D_frame; [done|done|by apply ext_flat_same|..].
  - intros g q Hin. by left.
  - intros pkg q Hq. by left.
  - intros self ws k Ht. by left.
  - intros x o' r' Hx. apply lookup_settle in Hx as (r0 & Hx & ->).
    apply lookup_alloc in Hx as [Hx|(-> & -> & ->)].
    + left. rewrite decide_False; [done|]. apply lookup_lt_Some in Hx. lia.
    + right. rewrite decide_True by done.
      eapply promise_shape_ext; [done|by apply ext_flat_same|done].
Qed.

Lemma D_set_last H n s : wfD H s → wfD H (set_last n s).
Proof. intros [? ? ? ?]. by constructor. Qed.

Lemma D_push_returned H n s : wfD H s → wfD H (push_returned n s).
Proof. intros [? ? ? ?]. by constructor. Qed.

Lemma D_set_files H f p s :
  wfD H s → eligible f = true → wfD H (set_files (map_set f p (files s)) s).
Proof.
  intros D Hel.
  destruct D as [D1 D2 D3 D4]. constructor; try done.
  intros g q Hin. simpl in Hin. apply elem_of_map_set in Hin as [[= -> ->]|Hin]; [done|].
  by eapply D1.
Qed.

Lemma D_flat_stage H self f pkg s :
  wfD H s → hasFlat H = true → pkgNameOf f = Some pkg → invalid pkg = false →
  wfD H (flat_stage H self f pkg s).
Proof.
  intros D Hflat Hpkg Hval. unfold flat_stage.
  destruct (map_get pkg (flatResult s)) as [q|] eqn:Hq.
  - apply D_suspend; [done|]. simpl. split_and!; [done..|]. by exists q.
  - change (alloc (OFlat pkg) s)
      with ((alloc (OFlat pkg) s).1, length (promises s)).
    cbv beta iota.
    set (s1 := (alloc (OFlat pkg) s).1).
    set (q := length (promises s)).
    set (s2 := set_flatResult (map_set pkg q (flatResult s1)) s1).
    assert (flatResult s2 = flatResult s ++ [(pkg, q)]) as Hfr.
    { unfold s2. simpl. by rewrite map_set_absent. }
    assert (map_get pkg (flatResult s2) = Some q) as Hq2.
    { rewrite Hfr, map_get_snoc, Hq. by rewrite String.eqb_refl. }
    assert (wfD H s2) as D2.
    { eapply D_frame; [done| | |..].
      - eapply ext_trans; [apply ext_alloc|apply ext_flatResult].
      - intros pk x Hx. by rewrite Hfr, map_get_snoc, Hx.
      - intros g x Hin. by left.
      - intros pk x Hx. rewrite Hfr, map_get_snoc in Hx.
        destruct (map_get pk (flatResult s)) eqn:Hold; [by left|].
        destruct (String.eqb pkg pk) eqn:Heq; [|done].
        apply String.eqb_eq in Heq as <-. injection Hx as <-. right.
        exists Pending. apply (lookup_alloc (OFlat pkg) s).
        by right.
      - intros self' ws k Ht. by left.
      - intros x o r Hx.
        apply (lookup_alloc (OFlat pkg) s) in Hx
          as [?|(-> & -> & ->)]; [by left|right]. by simpl. }
    apply D_suspend; [done|]. simpl. split_and!; [done..|]. by exists q.
Qed.

Lemma D_fetch_stage H self f s :
  wfD H s → (hasFlat H = true → listed s f) → wfD H (fetch_stage H self f s).
Proof.
  intros D Hl. unfold fetch_stage.
  change (alloc (OFetchText self f (requestUrl H f)) s)
    with ((alloc (OFetchText self f (requestUrl H f)) s).1, length (promises s)).
  cbv beta iota. apply D_suspend.
  - apply D_alloc; [done|]. simpl. split; [by left|done].
  - simpl. exists (length (promises s)), (requestUrl H f), Pending. split; [done|].
    by rewrite lookup_app_r, Nat.sub_diag.
Qed.

Lemma D_getVersion_loop H self s :
  wfD H s → promises s !! self = Some (OGetVersion, Pending) →
  wfD H (getVersion_loop self s).
Proof.
  intros D Hself. unfold getVersion_loop. case_bool_decide.
  - by apply D_suspend.
  - eapply D_push_returned, D_settle; done.
Qed.

Lemma D_readFile_with H fetch s f s' r :
  fetch_D H fetch → wfD H s → readFile_with fetch s f = Some (s', r) → wfD H s'.
Proof.
  intros Hfetch D. unfold readFile_with.
  destruct (eligible f) eqn:Hel; [|by intros [= <- <-]].
  destruct (map_get f (files s)); [by intros [= <- <-]|].
  destruct (fetch s f) as [[s1 p]|] eqn:Hf; [|done]. intros [= <- <-].
  apply D_set_files; [|done]. by eapply Hfetch.
Qed.

Lemma file_shape_valid H s p f :
  (hasFlat H = true → ∀ pkg, pkgNameOf f = Some pkg → invalid pkg = false) →
  promise_shape H s p (OFetchFile f) Pending.
Proof.
  intros Hval. simpl. split_and!; try done.
  intros Hflat pkg Hpkg Hinv. rewrite (Hval Hflat pkg Hpkg) in Hinv. done.
Qed.

Lemma D_fetchFile_go H n : fetch_D H (fetchFile_go H n).
Proof.
  induction n as [|n IH]; intros s f s1 p D; [done|]. cbn [fetchFile_go].
  change (alloc (OFetchFile f) s) with ((alloc (OFetchFile f) s).1, length (promises s)).
  cbv beta iota. set (s0 := (alloc (OFetchFile f) s).1).
  destruct (hasFlat H) eqn:Hflat.
  2:{ intros [= <- <-]. apply D_fetch_stage; [|intros ?; congruence].
      apply D_alloc; [done|]. apply file_shape_valid. intros ?; congruence. }
  destruct (pkgNameOf f) as [pkg|] eqn:Hpkg.
  2:{ intros [= <- <-]. apply D_settled; [done|done|]. cbn [promise_shape].
      split_and!; try done. intros _ pkg' Hpkg'. congruence. }
  destruct (endsWith pkg ".d.ts" || _) eqn:Ha.
  { intros [= <- <-]. apply D_settled; [done|done|]. cbn [promise_shape].
    split_and!; try done. intros v Hv. exists None. congruence. }
  destruct (startsWith pkg "@typescript/" || _) eqn:Hb.
  { intros [= <- <-]. apply D_settled; [done|done|]. cbn [promise_shape].
    split_and!; try done. intros v Hv. exists None. congruence. }
  assert (invalid pkg = false) as Hval by (unfold invalid; by rewrite Ha, Hb).
  assert (wfD H s0) as D0.
  { apply D_alloc; [done|]. apply file_shape_valid. intros _ pkg' Hpkg'. congruence. }
  destruct (startsWith pkg "@types/").
  - destruct (readFile_with _ _ _) as [[s2 r]|] eqn:Hread; [|done]. intros [= <- <-].
    apply D_suspend; [|done]. by eapply D_readFile_with.
  - intros [= <- <-]. by apply D_flat_stage.
Qed.

Lemma D_readFile H s f s' r : wfD H s → readFile H s f = Some (s', r) → wfD H s'.
Proof. apply D_readFile_with. intros s0 g s1 p. apply D_fetchFile_go. Qed.

Lemma listed_valid H s f pkg :
  wfD H s → listed s f → pkgNameOf f = Some pkg → invalid pkg = false.
Proof.
  intros D (pkg' & q & l & Hpkg' & Hq & _) Hpkg. assert (pkg' = pkg) as -> by congruence.
  destruct (d_back _ _ D _ _ Hq) as [r Hr]. by destruct (d_prom _ _ D _ _ _ Hr) as (_ & _ & ?).
Qed.

(** The package of a suspended [fetchFile(f)] is not one of lines 299-305. *)
Lemma task_valid H s self ws k f pkg :
  wfC H s → wfD H s → hasFlat H = true →
  tasks s !! self = Some (ws, k) → korigin k = OFetchFile f →
  pkgNameOf f = Some pkg → invalid pkg = false.
Proof.
  intros C D Hflat Ht Hk Hpkg.
  pose proof (c_task _ _ C _ _ _ Ht) as Hc. pose proof (d_task _ _ D _ _ _ Ht) as Hd.
  destruct k as [f' pkg' orig|f' pkg' orig|f' pkg'|f'|n]; simpl in Hk, Hd;
    cbv beta iota in Hc; simplify_eq.
  - destruct Hc as (_ & Hpkg' & _). congruence.
  - destruct Hc as (_ & Hpkg' & _). congruence.
  - destruct Hd as (Hpkg' & ? & _). congruence.
  - destruct Hd as (q & u & r & -> & Hq).
    destruct (d_prom _ _ D _ _ _ Hq) as [_ Hl]. by eapply listed_valid; [|apply Hl|].
Qed.

Lemma file_shape_unsettled H s self ws k f r :
  wfC H s → wfD H s → tasks s !! self = Some (ws, k) → korigin k = OFetchFile f →
  (∀ v, r ≠ Fulfilled v) ∨ r = Fulfilled (VText None) →
  promise_shape H s self (OFetchFile f) r.
Proof.
  intros C D Ht Hk Hr. simpl. split_and!.
  - intros t ->. by destruct Hr as [Hr|Hr]; [destruct (Hr (VText (Some t)))|].
  - intros v ->. destruct Hr as [Hr|Hr]; [by destruct (Hr v)|]. simplify_eq. eauto.
  - intros Hflat pkg Hpkg Hinv.
    by rewrite (task_valid _ _ _ _ _ _ _ C D Hflat Ht Hk Hpkg) in Hinv.
Qed.

Lemma wfD_step H s l s' :
  wfA H None s → wfC H s → wfD H s → step H s l = Some s' → wfD H s'.
Proof.
  intros W C D Hstep. destruct l as [f| |p text|p fl|p e|self|self p]; simpl in Hstep.
  - destruct (readFile H s f) as [[s1 r]|] eqn:Hread; simpl in Hstep; simplify_eq.
    by eapply D_readFile.
  - simplify_eq. apply D_getVersion_loop; [by apply D_alloc|].
    apply lookup_alloc. by right.
  - destruct (promises s !! p) as [[[] []]|] eqn:Hp; simplify_eq.
    eapply D_settle; [done|done|]. destruct (d_prom _ _ D _ _ _ Hp) as [_ Hl].
    split; [right; eauto|done].
  - destruct (promises s !! p) as [[[] []]|] eqn:Hp; simplify_eq.
    eapply D_settle; [done|done|]. apply (d_prom _ _ D _ _ _ Hp).
  - destruct (promises s !! p) as [[[] []]|] eqn:Hp; simplify_eq.
    eapply D_settle; [done|done|]. apply (d_prom _ _ D _ _ _ Hp).
  - destruct (tasks s !! self) as [[ws k]|] eqn:Hself; [|done].
    destruct (all_fulfilled s ws) as [vs|] eqn:Hvs; [|done].
    destruct (a_task _ _ _ W _ _ _ Hself) as [Hp _].
    pose proof (c_task _ _ C _ _ _ Hself) as Hc.
    pose proof (d_task _ _ D _ _ _ Hself) as Hd.
    pose proof (D_delete H self s D) as D0.
    assert (∀ f r, korigin k = OFetchFile f →
              (∀ v, r ≠ Fulfilled v) ∨ r = Fulfilled (VText None) →
              wfD H (settle self r (set_tasks (delete self (tasks s)) s))) as Hsettle.
    { intros f r Hk Hr. eapply (D_settle _ _ (OFetchFile f)); [done|by rewrite <-Hk|].
      eapply promise_shape_ext; [apply ext_tasks|by apply ext_flat_same|].
      by eapply file_shape_unsettled. }
    assert (∀ f pkg, korigin k = OFetchFile f → pkgNameOf f = Some pkg →
              hasFlat H = true →
              wfD H (flat_stage H self f pkg (set_tasks (delete self (tasks s)) s)))
      as Hstage.
    { intros f pkg Hk Hpkg Hflat. apply D_flat_stage; try done.
      by eapply (task_valid H s). }
    set (s0 := set_tasks (delete self (tasks s)) s) in *.
    destruct k as [f pkg orig|f pkg orig|f pkg|f|n]; cbv beta iota in Hc;
      simpl in Hstep, Hd.
    + destruct Hc as (Hflat & Hpkg & _).
      destruct (text_of vs) as [t|]; [|done]. destruct (truthy t).
      * destruct (JSON_parse H _) as [| |ty tg]; simplify_eq.
        -- eapply Hsettle; [done|by left].
        -- eapply Hsettle; [done|by left].
        -- destruct (ty || tg); simplify_eq; [eapply Hsettle; [done|by right]|].
           destruct (readFile H _ _) as [[s1 r]|] eqn:Hread; [|done]. simplify_eq.
           apply D_suspend; [by eapply D_readFile|done].
      * simplify_eq. by eapply Hstage.
    + destruct Hc as (Hflat & Hpkg & _).
      destruct (text_of vs) as [t|]; [|done]. destruct (truthy t); simplify_eq.
      * eapply Hsettle; [done|by right].
      * by eapply Hstage.
    + destruct vs as [|[| |] [|]]; try done.
      destruct Hd as (Hpkg & Hval & q & -> & Hq).
      apply all_fulfilled_one in Hvs as (v & [= <-] & Hv).
      case_bool_decide as Hin; simplify_eq.
      * apply D_fetch_stage; [done|]. intros _. by exists pkg, q, l.
      * eapply Hsettle; [done|by right].
    + destruct vs as [|[| |] [|]]; try done. simplify_eq.
      destruct Hd as (q & u & r & -> & Hq).
      apply all_fulfilled_one in Hvs as (v & [= <-] & Hv).
      rewrite (state_of_lookup _ _ _ _ Hq) in Hv. subst r.
      eapply D_settle; [done|done|]. cbn [promise_shape]. split_and!.
      * intros t' [= ->]. by exists q, u.
      * intros v [= <-]. eauto.
      * intros Hflat pkg Hpkg Hinv. destruct (d_prom _ _ D _ _ _ Hq) as [_ Hl].
        by rewrite (listed_valid _ _ _ _ D (Hl Hflat) Hpkg) in Hinv.
    + simplify_eq. apply D_getVersion_loop.
      * case_bool_decide; [by apply D_set_last|done].
      * by case_bool_decide.
  - destruct (tasks s !! self) as [[ws k]|] eqn:Hself; [|done].
    case_bool_decide as Hin; [|done].
    destruct (state_of s p) as [| |e] eqn:Hst; try done. simplify_eq.
    destruct (a_task _ _ _ W _ _ _ Hself) as [Hp _].
    pose proof (D_delete H self s D) as D0.
    eapply (D_settle _ _ (korigin k)); [done|done|].
    destruct (korigin k) as [f| | |] eqn:Hk; try done.
    + eapply promise_shape_ext; [apply ext_tasks|by apply ext_flat_same|].
      eapply file_shape_unsettled; [done..|by left].
    + by destruct k.
    + by destruct k.
Qed.

Lemma wfD_run H ls s : run H init ls = Some s → wfD H s.
Proof.
  intros Hrun.
  cut (wfA H None s ∧ wfC H s ∧ wfD H s); [by intros (_ & _ & ?)|].
  revert Hrun. apply (cdn_run_invariant H (λ s, wfA H None s ∧ wfC H s ∧ wfD H s)).
  - intros s0 l s1 (W & C & D) Hstep.
    split_and!; [by eapply wfA_step|by eapply wfC_step|by eapply wfD_step].
  - split_and!; [apply wfA_init|apply wfC_init|apply wfD_init].
Qed.

(** X1.  Only names under [/node_modules/] that end in [.d.ts] or
    [/package.json] are ever registered in [files] or requested, whoever
    reads them (a client or line 313 or 319); every request goes to the URL
    lines 337-338 build for the file; and a read of any other name returns
    [undefined] and leaves the host as it was. *)
Theorem only_eligible_names H ls s :
  run H init ls = Some s →
  (∀ f p, (f, p) ∈ files s → eligible f = true) ∧
  (∀ q self f u r, promises s !! q = Some (OFetchText self f u, r) →
     eligible f = true ∧ u = requestUrl H f) ∧
  (∀ f, eligible f = false → readFile H s f = Some (s, None)).
Proof.
  intros Hrun. pose proof (wfD_run _ _ _ Hrun) as D.
  destruct (wf_all _ _ _ Hrun) as (W & _ & _). split_and!.
  - apply (d_elig _ _ D).
  - intros q self f u r Hq.
    destruct (a_text _ _ _ W _ _ _ _ _ Hq) as (-> & [r' Hself] & _). split; [|done].
    apply (a_reg _ _ _ W) in Hself. apply map_get_Some_elem in Hself.
    by eapply (d_elig _ _ D).
  - intros f Hel. unfold readFile, readFile_with. by rewrite Hel.
Qed.

Lemma only_eligible_names_witness :
  readFile (jsdelivr false) (default init (run (jsdelivr false) init two_versions))
    "/node_modules/lodash/lodash.js"
  = Some (default init (run (jsdelivr false) init two_versions), None).
Proof.
  refine (proj2 (proj2 (only_eligible_names (jsdelivr false) two_versions
            (default init (run (jsdelivr false) init two_versions)) _)) _ _).
  - vm_compute. reflexivity.
  - vm_compute. reflexivity.
Defined.

(** X2.  One listing per package.  For each package name there is at most
    one promise returned by the listing callback; [flatResult] keeps that
    promise and nothing else; every [fetchFile] that waits for the listing
    of a package waits for that one promise, whichever file of the package
    it is for; and a host without the callback never calls it. *)
Theorem listing_asked_once H ls s :
  run H init ls = Some s →
  (∀ q pkg r, promises s !! q = Some (OFlat pkg, r) →
     hasFlat H = true ∧ map_get pkg (flatResult s) = Some q) ∧
  (∀ q q' pkg r r',
     promises s !! q = Some (OFlat pkg, r) →
     promises s !! q' = Some (OFlat pkg, r') → q = q') ∧
  (∀ pkg q, map_get pkg (flatResult s) = Some q →
     ∃ r, promises s !! q = Some (OFlat pkg, r)) ∧
  (∀ self ws f pkg, tasks s !! self = Some (ws, KFlat f pkg) →
     pkgNameOf f = Some pkg ∧
     ∃ q r, ws = [q] ∧ promises s !! q = Some (OFlat pkg, r)).
Proof.
  intros Hrun. pose proof (wfD_run _ _ _ Hrun) as D. split_and!.
  - intros q pkg r Hq. by destruct (d_prom _ _ D _ _ _ Hq) as (? & ? & _).
  - intros q q' pkg r r' Hq Hq'.
    destruct (d_prom _ _ D _ _ _ Hq) as (_ & Hm & _).
    destruct (d_prom _ _ D _ _ _ Hq') as (_ & Hm' & _). congruence.
  - apply (d_back _ _ D).
  - intros self ws f pkg Ht.
    destruct (d_task _ _ D _ _ _ Ht) as (Hpkg & _ & q & -> & Hq). split; [done|].
    destruct (d_back _ _ D _ _ Hq) as [r Hr]. by exists q, r.
Qed.

Lemma listing_asked_once_witness :
  flatResult (default init (run (jsdelivr true) init same_package)) = [("foo", 1)] ∧
  ∀ q q' pkg r r',
    promises (default init (run (jsdelivr true) init same_package)) !! q
      = Some (OFlat pkg, r) →
    promises (default init (run (jsdelivr true) init same_package)) !! q'
      = Some (OFlat pkg, r') → q = q'.
Proof.
  split; [vm_compute; reflexivity|].
  refine (proj1 (proj2 (listing_asked_once (jsdelivr true) same_package
            (default init (run (jsdelivr true) init same_package)) _))).
  vm_compute. reflexivity.
Defined.

(** X3.  With a listing callback, a file is requested only after the
    listing of its package has arrived and includes the file's path inside
    the package; so once a listing without it has arrived, no request for
    the file exists. *)
Theorem request_only_if_listed H ls s f :
  run H init ls = Some s → hasFlat H = true →
  (fetched s f → listed s f) ∧
  (∀ pkg q l, pkgNameOf f = Some pkg → map_get pkg (flatResult s) = Some q →
     state_of s q = Fulfilled (VList l) →
     slice (String.length ("/node_modules/" +:+ pkg)) f ∉ l → ¬ fetched s f).
Proof.
  intros Hrun Hflat. pose proof (wfD_run _ _ _ Hrun) as D.
  assert (fetched s f → listed s f) as Hl.
  { intros (q & self & u & r & Hq). destruct (d_prom _ _ D _ _ _ Hq) as [_ Hl]. auto. }
  split; [done|]. intros pkg q l Hpkg Hq Hst Hnot Hf.
  destruct (Hl Hf) as (pkg' & q' & l' & Hpkg' & Hq' & Hst' & Hin).
  assert (pkg' = pkg) as -> by congruence. assert (q' = q) as -> by congruence.
  assert (l' = l) as -> by congruence. done.
Qed.

Lemma request_only_if_listed_witness :
  listed (default init (run (jsdelivr true) init types_known))
    "/node_modules/foo/package.json".
Proof.
  refine (proj1 (request_only_if_listed (jsdelivr true) types_known
            (default init (run (jsdelivr true) init types_known))
            "/node_modules/foo/package.json" _ _) _).
  - vm_compute. reflexivity.
  - reflexivity.
  - exists 2, 0, "https://cdn.jsdelivr.net/npm/foo/package.json",
      (Fulfilled (VText (Some typed_manifest))).
    vm_compute. reflexivity.
Defined.

(** X4.  With a listing callback, a file whose package name ends in
    [.d.ts] or [/node_modules], or begins with [@typescript/] or
    [@types/typescript__], is answered [undefined] in the block that
    registers it: its promise is never pending, no listing is ever asked
    for such a package and no request for such a file is ever issued. *)
Theorem invalid_package_is_absent H ls s :
  run H init ls = Some s → hasFlat H = true →
  (∀ p f pkg r, promises s !! p = Some (OFetchFile f, r) →
     pkgNameOf f = Some pkg → invalid pkg = true → r = Fulfilled (VText None)) ∧
  (∀ q pkg r, promises s !! q = Some (OFlat pkg, r) → invalid pkg = false) ∧
  (∀ f pkg, pkgNameOf f = Some pkg → invalid pkg = true → ¬ fetched s f).
Proof.
  intros Hrun Hflat. pose proof (wfD_run _ _ _ Hrun) as D. split_and!.
  - intros p f pkg r Hp Hpkg Hinv.
    destruct (d_prom _ _ D _ _ _ Hp) as (_ & _ & Hi). by eapply Hi.
  - intros q pkg r Hq. by destruct (d_prom _ _ D _ _ _ Hq) as (_ & _ & ?).
  - intros f pkg Hpkg Hinv (q & self & u & r & Hq).
    destruct (d_prom _ _ D _ _ _ Hq) as [_ Hl].
    by rewrite (listed_valid _ _ _ _ D (Hl Hflat) Hpkg) in Hinv.
Qed.

Lemma invalid_package_is_absent_witness :
  promises (default init (run (jsdelivr true) init
                            [LRead "/node_modules/@typescript/vfs/index.d.ts"]))
  = [(OFetchFile "/node_modules/@typescript/vfs/index.d.ts", Fulfilled (VText None))] ∧
  ¬ fetched (default init (run (jsdelivr true) init
                             [LRead "/node_modules/@typescript/vfs/index.d.ts"]))
      "/node_modules/@typescript/vfs/index.d.ts".
Proof.
  split; [vm_compute; reflexivity|].
  refine (proj2 (proj2 (invalid_package_is_absent (jsdelivr true)
            [LRead "/node_modules/@typescript/vfs/index.d.ts"]
            (default init (run (jsdelivr true) init
                             [LRead "/node_modules/@typescript/vfs/index.d.ts"])) _ _))
            "/node_modules/@typescript/vfs/index.d.ts" "@typescript/vfs" _ _).
  - vm_compute. reflexivity.
  - reflexivity.
  - vm_compute. reflexivity.
  - vm_compute. reflexivity.
Defined.

(** X5.  A text that the promise of [fetchFile(f)] delivers is the body
    that [fetchText] delivered for the request which that very invocation
    issued, to the URL of [f]; and [files] maps [f] to that promise. *)
Theorem text_is_own_response H ls s p f t :
  run H init ls = Some s →
  promises s !! p = Some (OFetchFile f, Fulfilled (VText (Some t))) →
  map_get f (files s) = Some p ∧
  ∃ q, promises s !! q
       = Some (OFetchText p f (requestUrl H f), Fulfilled (VText (Some t))).
Proof.
  intros Hrun Hp. pose proof (wfD_run _ _ _ Hrun) as D.
  destruct (wf_all _ _ _ Hrun) as (W & _ & _).
  split; [by eapply (a_reg _ _ _ W)|].
  destruct (d_prom _ _ D _ _ _ Hp) as (Ht & _ & _).
  destruct (Ht t eq_refl) as (q & u & Hq). exists q.
  by destruct (a_text _ _ _ W _ _ _ _ _ Hq) as (-> & _).
Qed.

Lemma text_is_own_response_witness :
  ∃ q, promises (default init (run (jsdelivr false) init two_versions)) !! q
       = Some (OFetchText 0 lodash_manifest
                 "https://cdn.jsdelivr.net/npm/lodash@4.17.21/package.json",
               Fulfilled (VText (Some "{}"))).
Proof.
  refine (proj2 (text_is_own_response (jsdelivr false) two_versions
            (default init (run (jsdelivr false) init two_versions))
            0 lodash_manifest "{}" _ _)).
  - vm_compute. reflexivity.
  - vm_compute. reflexivity.
Defined.

(** ** The nesting of [fetchFile] *)

Lemma readFile_with_mono (fetch1 fetch2 : state → string → option (state * pid)) s f r :
  (∀ s0 g r0, fetch1 s0 g = Some r0 → fetch2 s0 g = Some r0) →
  readFile_with fetch1 s f = Some r → readFile_with fetch2 s f = Some r.
Proof.
  intros Hmono. unfold readFile_with. destruct (eligible f); [|done].
  destruct (map_get f (files s)); [done|].
  destruct (fetch1 s f) as [[s1 p]|] eqn:Hf; [|done].
  by rewrite (Hmono _ _ _ Hf).
Qed.

Lemma fetchFile_go_mono H n : ∀ m s f r,
  n ≤ m → fetchFile_go H n s f = Some r → fetchFile_go H m s f = Some r.
Proof.
  induction n as [|n IH]; intros m s f r Hle; [done|].
  destruct m as [|m]; [lia|]. cbn [fetchFile_go].
  change (alloc (OFetchFile f) s) with ((alloc (OFetchFile f) s).1, length (promises s)).
  cbv beta iota.
  destruct (hasFlat H); [|exact (λ x, x)].
  destruct (pkgNameOf f) as [pkg|]; [|exact (λ x, x)].
  destruct (endsWith pkg ".d.ts" || _); [exact (λ x, x)|].
  destruct (startsWith pkg "@typescript/" || _); [exact (λ x, x)|].
  destruct (startsWith pkg "@types/"); [|exact (λ x, x)].
  destruct (readFile_with (fetchFile_go H n) _ _) as [[s1 r1]|] eqn:Hread; [|done].
  rewrite (readFile_with_mono _ (fetchFile_go H m) _ _ _ (λ s0 g r0, IH m s0 g r0 ltac:(lia)) Hread).
  exact (λ x, x).
Qed.

(** X6.  The re-entry of [fetchFile] through [readFile] at line 313 ends
    for every file name: [fetchFile] and [readFile] return in every state,
    and what [fetchFile] returns is what any deeper unfolding of the nested
    calls returns. *)
Theorem nested_reads_end H s f :
  is_Some (readFile H s f) ∧
  ∃ r, fetchFile H s f = Some r ∧
       ∀ n, nesting f < n → fetchFile_go H n s f = Some r.
Proof.
  split; [apply readFile_total|].
  destruct (fetchFile_go_total H (S (nesting f)) s f ltac:(lia)) as [r Hr].
  exists r. split; [done|]. intros n Hn. eapply fetchFile_go_mono; [|done]. lia.
Qed.

(** A file name under which [fetchFile] re-enters itself three times. *)
Example nesting_can_be_deep :
  fetchFile_go (jsdelivr true) 3 init "/node_modules/@types/types__types__x/index.d.ts"
    = None ∧
  is_Some (fetchFile_go (jsdelivr true) 4 init
             "/node_modules/@types/types__types__x/index.d.ts").
Proof. split; [vm_compute; reflexivity|]. vm_compute. eauto. Qed.

(** ** Rejections *)

Lemma unrejected_same s s' : promises s' = promises s → unrejected s → unrejected s'.
Proof. intros Hp U p o r. rewrite Hp. apply U. Qed.

Lemma unrejected_settle p v s : unrejected s → unrejected (settle p (Fulfilled v) s).
Proof.
  intros U x o r Hx. apply lookup_settle in Hx as (r0 & Hx & ->).
  case_decide; [right; eauto|by eapply U].
Qed.

Lemma unrejected_alloc o s : unrejected s → unrejected (alloc o s).1.
Proof.
  intros U x o' r Hx. apply lookup_alloc in Hx as [?|(_ & _ & ->)]; [by eapply U|by left].
Qed.

Lemma unrejected_getVersion_loop self s : unrejected s → unrejected (getVersion_loop self s).
Proof.
  intros U. unfold getVersion_loop. case_bool_decide; [done|].
  by apply (unrejected_settle self (VNum (length (files s))) s).
Qed.

Lemma unrejected_grows H bound s s' :
  hasFlat H = false → grows H bound None s s' → unrejected s → unrejected s'.
Proof.
  intros Hflat G U p o r Hp.
  destruct (decide (p < length (promises s))) as [Hlt|Hge].
  - rewrite (gr_old_proms _ _ _ _ _ G) in Hp by done. by eapply U.
  - pose proof (gr_new_proms _ _ _ _ _ G p o r ltac:(lia) Hp) as Hn.
    destruct o as [f|self f u|pkg|]; unfold new_promise in Hn.
    + destruct Hn as [_ [[-> _]|[->|(_ & ? & _)]]]; [by left|right; eauto|congruence].
    + destruct Hn as [-> _]. by left.
    + subst. by left.
    + done.
Qed.

Lemma unrejected_step H s l s' :
  hasFlat H = false → wfA H None s → wfC H s → wfD H s → unrejected s →
  step H s l = Some s' → unrejected s'.
Proof.
  intros Hflat W C D U Hstep.
  destruct l as [f| |p text|p fl|p e|self|self p]; simpl in Hstep.
  - destruct (readFile H s f) as [[s1 r]|] eqn:Hread; simpl in Hstep; simplify_eq.
    destruct (readFile_grows _ _ _ _ _ (wfA_fresh _ _ _ W) Hread) as (G & _).
    by eapply unrejected_grows.
  - simplify_eq. by apply unrejected_getVersion_loop, unrejected_alloc.
  - destruct (promises s !! p) as [[[] []]|] eqn:Hp; simplify_eq.
    by apply unrejected_settle.
  - destruct (promises s !! p) as [[[] []]|] eqn:Hp; simplify_eq.
    by apply unrejected_settle.
  - destruct (promises s !! p) as [[[] []]|] eqn:Hp; simplify_eq.
    destruct (d_prom _ _ D _ _ _ Hp) as (? & _). congruence.
  - destruct (tasks s !! self) as [[ws k]|] eqn:Hself; [|done].
    destruct (all_fulfilled s ws) as [vs|] eqn:Hvs; [|done].
    pose proof (c_task _ _ C _ _ _ Hself) as Hc.
    set (s0 := set_tasks (delete self (tasks s)) s) in *.
    assert (unrejected s0) as U0 by done.
    destruct k as [f pkg orig|f pkg orig|f pkg|f|n]; cbv beta iota in Hc; simpl in Hstep.
    + destruct Hc as (? & _). congruence.
    + destruct Hc as (? & _). congruence.
    + destruct vs as [|[| |] [|]]; try done. case_bool_decide; simplify_eq.
      * unfold fetch_stage. by apply (unrejected_alloc _ s0).
      * by apply unrejected_settle.
    + destruct vs as [|[| |] [|]]; try done. simplify_eq. by apply unrejected_settle.
    + simplify_eq. apply unrejected_getVersion_loop. by case_bool_decide.
  - destruct (tasks s !! self) as [[ws k]|] eqn:Hself; [|done].
    case_bool_decide as Hin; [|done].
    destruct (state_of s p) as [| |e] eqn:Hst; try done.
    unfold state_of in Hst. destruct (promises s !! p) as [[o r]|] eqn:Hp; [|done].
    subst r. by destruct (U _ _ _ Hp) as [?|[? ?]].
Qed.

Lemma unrejected_run H ls s :
  hasFlat H = false → run H init ls = Some s → unrejected s.
Proof.
  intros Hflat Hrun.
  cut (wfA H None s ∧ wfC H s ∧ wfD H s ∧ unrejected s); [by intros (_ & _ & _ & ?)|].
  revert Hrun.
  apply (cdn_run_invariant H (λ s, wfA H None s ∧ wfC H s ∧ wfD H s ∧ unrejected s)).
  - intros s0 l s1 (W & C & D & U) Hstep.
    split_and!; [by eapply wfA_step|by eapply wfC_step|by eapply wfD_step|
                 by eapply unrejected_step].
  - split_and!; [apply wfA_init|apply wfC_init|apply wfD_init|done].
Qed.

(** X7.  A host built without a listing callback never rejects anything:
    every promise of [fetchFile] and of [getVersion] is pending or
    fulfilled in every state, so no [await] of the host ever throws. *)
Theorem nothing_rejects_without_listing H ls s :
  run H init ls = Some s → hasFlat H = false →
  (∀ p o r, promises s !! p = Some (o, r) → r = Pending ∨ ∃ v, r = Fulfilled v) ∧
  (∀ self p, step H s (LThrow self p) = None).
Proof.
  intros Hrun Hflat. pose proof (unrejected_run _ _ _ Hflat Hrun) as U.
  split; [done|]. intros self p. cbn [step].
  destruct (tasks s !! self) as [[ws k]|]; [|done]. case_bool_decide; [|done].
  unfold state_of. destruct (promises s !! p) as [[o r]|] eqn:Hp; [|done].
  by destruct (U _ _ _ Hp) as [->|[v ->]].
Qed.

Lemma nothing_rejects_without_listing_witness :
  (∀ p o r,
     promises (default init (run (jsdelivr false) init two_versions)) !! p = Some (o, r) →
     r = Pending ∨ ∃ v, r = Fulfilled v) ∧
  (∀ self p,
     step (jsdelivr false) (default init (run (jsdelivr false) init two_versions))
       (LThrow self p) = None).
Proof.
  refine (nothing_rejects_without_listing (jsdelivr false) two_versions
            (default init (run (jsdelivr false) init two_versions)) _ _).
  - vm_compute. reflexivity.
  - reflexivity.
Defined.

Lemma state_of_alloc_inv o s x e :
  state_of (alloc o s).1 x = Rejected e → state_of s x = Rejected e.
Proof.
  unfold state_of. simpl. intros Hx.
  destruct (decide (x < length (promises s))) as [Hlt|Hge].
  - by rewrite lookup_app_l in Hx.
  - rewrite lookup_app_r in Hx by lia.
    by destruct (x - length (promises s)) as [|n].
Qed.

(** A call of [getVersion] made while an entry of [files] is rejected
    suspends on [Promise.all], cannot be resumed with values, and can only
    be resumed by a rejection, whose error is that of a rejected entry. *)
Lemma poisoned_getVersion_rejects s self f e H :
  wfB s → (f, self) ∈ files s → state_of s self = Rejected e →
  ∃ s3, step H s LGetVersion = Some s3 ∧
    step H s3 (LResume (length (promises s))) = None ∧
    (∃ q s4, step H s3 (LThrow (length (promises s)) q) = Some s4) ∧
    ∀ q s4, step H s3 (LThrow (length (promises s)) q) = Some s4 →
      ∃ f' e', (f', q) ∈ files s ∧ state_of s q = Rejected e' ∧
               state_of s4 (length (promises s)) = Rejected e'.
Proof.
  intros B Hin Hst.
  assert (poisoned s) as Hpois.
  { apply list_elem_of_lookup in Hin as [i Hi]. by exists i, f, self, e. }
  pose proof (poisoned_last _ B Hpois) as Hlast.
  assert (self < length (promises s)) as Hlt.
  { unfold state_of in Hst. destruct (promises s !! self) eqn:Hp; [|done].
    by eapply lookup_lt_Some. }
  set (s0 := (alloc OGetVersion s).1).
  set (g := length (promises s)).
  assert (step H s LGetVersion = Some (suspend g (files s).*2 (KDrain (length (files s))) s0))
    as Hstep.
  { cbn [step].
    change (alloc OGetVersion s) with (s0, g). cbv beta iota.
    by rewrite poisoned_loop. }
  assert (state_of s0 self = Rejected e) as Hst0.
  { unfold s0. by rewrite state_of_alloc_old. }
  assert (self ∈ (files s).*2) as Hws by (apply list_elem_of_fmap; by exists (f, self)).
  eexists. split; [exact Hstep|]. split_and!.
  - cbn [step suspend set_tasks tasks]. rewrite lookup_insert_eq.
    destruct (all_fulfilled _ _) as [vs|] eqn:Hvs; [|done].
    destruct (all_fulfilled_spec _ _ _ Hvs self Hws) as [v Hv].
    assert (state_of s0 self = Fulfilled v) as Hv0 by exact Hv. congruence.
  - destruct (poisoned_getVersion s self f e B Hin Hst H) as (s3 & s4 & H3 & H4 & _).
    exists self, s4. rewrite Hstep in H3. by simplify_eq.
  - intros q s4. cbn [step suspend set_tasks tasks]. rewrite lookup_insert_eq.
    case_bool_decide as Hq; [|done].
    destruct (state_of _ q) as [|v|e'] eqn:Hsq; try done. intros [= <-].
    assert (state_of s0 q = Rejected e') as Hsq0 by exact Hsq.
    apply list_elem_of_fmap in Hq as ([f' q'] & -> & Hq).
    exists f', e'. split_and!; [done|by eapply state_of_alloc_inv|].
    eapply state_of_settle_eq. apply (lookup_alloc OGetVersion s). by right.
Qed.

(** X8.  Once an entry of [files] is a rejected promise, whatever the
    reason (the listing callback failed, lines 296 or 315-316 threw),
    [getVersion] never returns a value again: no call of it is fulfilled
    later, and a call made in any later state suspends on its
    [Promise.all], cannot continue with values, and can only reject; the
    error it rejects with is the error of a rejected entry of [files]. *)
Theorem rejected_entry_blocks_getVersion H ls s f p e ls' s' :
  run H init ls = Some s → (f, p) ∈ files s → state_of s p = Rejected e →
  run H s ls' = Some s' →
  returned s' = returned s ∧
  (∀ g v, promises s' !! g = Some (OGetVersion, Fulfilled v) →
          promises s !! g = Some (OGetVersion, Fulfilled v)) ∧
  ∃ s3, step H s' LGetVersion = Some s3 ∧
        step H s3 (LResume (length (promises s'))) = None ∧
        (∃ q s4, step H s3 (LThrow (length (promises s')) q) = Some s4) ∧
        ∀ q s4, step H s3 (LThrow (length (promises s')) q) = Some s4 →
          ∃ f' e', (f', q) ∈ files s' ∧ state_of s' q = Rejected e' ∧
                   state_of s4 (length (promises s')) = Rejected e'.
Proof.
  intros Hrun Hin Hst Hrun'.
  destruct (wf_all _ _ _ Hrun) as (W & B & _).
  assert (poisoned s) as Hpois.
  { apply list_elem_of_lookup in Hin as [i Hi]. by exists i, f, p, e. }
  assert (wfA H None s' ∧ wfB s' ∧ ext s s' ∧ silent s s') as (W2 & B2 & Hext & Hsil).
  { revert Hrun'.
    apply (cdn_run_invariant H (λ t, wfA H None t ∧ wfB t ∧ ext s t ∧ silent s t)).
    - intros t l t' (Wt & Bt & Et & St) Hl. split_and!.
      + by eapply wfA_step.
      + by eapply wfB_step.
      + eapply ext_trans; [done|]. by eapply step_ext.
      + eapply silent_trans; [done|]. eapply silent_step; [done|done| |done].
        by apply (poisoned_ext s).
    - split_and!; [done|done|apply ext_refl|apply silent_refl]. }
  split_and!; [apply (si_ret _ _ Hsil)|apply (si_prom _ _ Hsil)|].
  eapply (poisoned_getVersion_rejects s' p f e); [done| |].
  - destruct (ext_files _ _ Hext) as [fs ->]. apply elem_of_app. by left.
  - rewrite (ext_state _ _ _ Hext); [done|]. by rewrite Hst.
Qed.

Lemma rejected_entry_blocks_getVersion_witness :
  ∃ s3,
    step (jsdelivr true) (default init (run (jsdelivr true) init listing_fails))
      LGetVersion = Some s3 ∧
    step (jsdelivr true) s3 (LResume 2) = None ∧
    (∃ q s4, step (jsdelivr true) s3 (LThrow 2 q) = Some s4) ∧
    ∀ q s4, step (jsdelivr true) s3 (LThrow 2 q) = Some s4 →
      ∃ f' e',
        (f', q) ∈ files (default init (run (jsdelivr true) init listing_fails)) ∧
        state_of (default init (run (jsdelivr true) init listing_fails)) q = Rejected e' ∧
        state_of s4 2 = Rejected e'.
Proof.
  refine (proj2 (proj2 (rejected_entry_blocks_getVersion (jsdelivr true) listing_fails
            (default init (run (jsdelivr true) init listing_fails))
            "/node_modules/foo/index.d.ts" 0 (Foreign 7) []
            (default init (run (jsdelivr true) init listing_fails)) _ _ _ _))).
  - vm_compute. reflexivity.
  - vm_compute. by left.
  - vm_compute. reflexivity.
  - reflexivity.
Defined.

(** ** [getVersion] when nothing is pending *)




(** ** Package names and paths *)

Lemma startsWith_head_ne (s p : string) c d :
  Ascii.eqb c d = false → startsWith (String d s) (String c p) = false.
Proof. intros Hne. cbn [startsWith]. by rewrite Hne. Qed.

Lemma find_after_free c (p a t : string) :
  free_of c a = true → find (String c p) (a +:+ String c p +:+ t) = Some (a, t).
Proof.
  induction a as [|d a IH]; intros Hfree.
  - apply (find_prefix (String c p) t).
  - cbn [free_of] in Hfree. apply andb_true_iff in Hfree as [Hd Ha].
    apply negb_true_iff in Hd. rewrite sapp_cons, find_unfold.
    rewrite startsWith_head_ne by (by rewrite Ascii.eqb_sym).
    by rewrite (IH Ha).
Qed.

Lemma originalOf_plain (name : string) :
  contains name "__" = false → originalOf ("@types/" +:+ name) = name.
Proof.
  intros Hc. unfold originalOf. rewrite (slice_app "@types/" name). by rewrite Hc.
Qed.

Lemma originalOf_scoped (scope name : string) :
  free_of "_" scope = true →
  originalOf ("@types/" +:+ scope +:+ "__" +:+ name) = "@" +:+ scope +:+ "/" +:+ name.
Proof.
  intros Hfree. unfold originalOf. rewrite (slice_app "@types/" (scope +:+ "__" +:+ name)).
  unfold contains, replace. rewrite (find_after_free "_" "_" scope name Hfree).
  by rewrite getSubstitution_plain.
Qed.

Lemma pkgNameOf_scoped (scope name rest : string) :
  free_of "/" scope = true → free_of "/" name = true →
  pkgNameOf ("/node_modules/@" +:+ scope +:+ "/" +:+ name +:+ "/" +:+ rest)
  = Some ("@" +:+ scope +:+ "/" +:+ name).
Proof.
  intros Hs Hn.
  change ("/node_modules/@" +:+ scope +:+ "/" +:+ name +:+ "/" +:+ rest)
    with ("/node_modules/" +:+ ("@" +:+ scope) +:+ "/" +:+ (name +:+ "/" +:+ rest)).
  rewrite pkgNameOf_node_modules_free by done.
  change (startsWith ("@" +:+ scope) "@") with true. cbv iota.
  change (name +:+ "/" +:+ rest) with (name +:+ String "/" rest).
  by rewrite (split_app "/" name rest Hn).
Qed.

Lemma pkgNameOf_plain (name rest : string) :
  free_of "/" name = true → startsWith name "@" = false →
  pkgNameOf ("/node_modules/" +:+ name +:+ "/" +:+ rest) = Some name.
Proof. intros Hn Hat. rewrite pkgNameOf_node_modules_free by done. by rewrite Hat. Qed.

(** X10.  Path and package name.  For a path [/node_modules/pkg/rest],
    where [pkg] is a plain name or a scoped name [@scope/name], lines
    295-298 find [pkg], and line 331 looks [/rest] up in the listing. *)
Theorem package_of_path (pkg rest : string) :
  (free_of "/" pkg = true ∧ startsWith pkg "@" = false ∨
   ∃ scope name, pkg = "@" +:+ scope +:+ "/" +:+ name ∧
                 free_of "/" scope = true ∧ free_of "/" name = true) →
  pkgNameOf ("/node_modules/" +:+ pkg +:+ "/" +:+ rest) = Some pkg ∧
  slice (String.length ("/node_modules/" +:+ pkg))
        ("/node_modules/" +:+ pkg +:+ "/" +:+ rest) = "/" +:+ rest.
Proof.
  intros Hpkg. split.
  - destruct Hpkg as [[Hfree Hat]|(scope & name & -> & Hs & Hn)].
    + by apply pkgNameOf_plain.
    + rewrite !sapp_assoc. exact (pkgNameOf_scoped scope name rest Hs Hn).
  - rewrite <-(sapp_assoc "/node_modules/" pkg ("/" +:+ rest)).
    apply (slice_app ("/node_modules/" +:+ pkg) ("/" +:+ rest)).
Qed.

Lemma package_of_path_witness :
  pkgNameOf "/node_modules/@babel/core/lib/index.d.ts" = Some "@babel/core" ∧
  slice (String.length "/node_modules/@babel/core")
        "/node_modules/@babel/core/lib/index.d.ts" = "/lib/index.d.ts".
Proof.
  refine (package_of_path "@babel/core" "lib/index.d.ts" _).
  right. exists "babel", "core". split_and!; reflexivity.
Defined.

(** X11.  The shim of a scoped package.  For a file of the package
    [@types/scope__name], lines 308-313 find the original package
    [@scope/name] and read its manifest [/node_modules/@scope/name/package.json],
    whose own package is [@scope/name] again; only the first [__] is
    replaced.  For a shim [@types/name] without [__] the original is
    [name]. *)
Theorem shim_of_scoped_package (scope name rest : string) :
  free_of "/" scope = true → free_of "_" scope = true → free_of "/" name = true →
  pkgNameOf ("/node_modules/@types/" +:+ scope +:+ "__" +:+ name +:+ "/" +:+ rest)
    = Some ("@types/" +:+ scope +:+ "__" +:+ name) ∧
  originalOf ("@types/" +:+ scope +:+ "__" +:+ name) = "@" +:+ scope +:+ "/" +:+ name ∧
  manifestOf (originalOf ("@types/" +:+ scope +:+ "__" +:+ name))
    = "/node_modules/@" +:+ scope +:+ "/" +:+ name +:+ "/package.json" ∧
  pkgNameOf (manifestOf (originalOf ("@types/" +:+ scope +:+ "__" +:+ name)))
    = Some ("@" +:+ scope +:+ "/" +:+ name) ∧
  (contains name "__" = false → startsWith name "@" = false →
   originalOf ("@types/" +:+ name) = name ∧
   pkgNameOf (manifestOf (originalOf ("@types/" +:+ name))) = Some name).
Proof.
  intros Hs Hu Hn.
  assert (free_of "/" (scope +:+ "__" +:+ name) = true) as Hseg.
  { rewrite !free_of_app, Hs, Hn. done. }
  split_and!.
  - pose proof (pkgNameOf_scoped "types" (scope +:+ "__" +:+ name) rest eq_refl Hseg) as Hp.
    rewrite (sapp_assoc scope ("__" +:+ name) ("/" +:+ rest)) in Hp. exact Hp.
  - by apply originalOf_scoped.
  - rewrite originalOf_scoped by done. unfold manifestOf. by rewrite !sapp_assoc.
  - rewrite originalOf_scoped by done. unfold manifestOf.
    rewrite !sapp_assoc. exact (pkgNameOf_scoped scope name "package.json" Hs Hn).
  - intros Hc Hat. rewrite originalOf_plain by done. split; [done|].
    unfold manifestOf. by apply pkgNameOf_plain.
Qed.

Lemma shim_of_scoped_package_witness :
  originalOf "@types/babel__core" = "@babel/core" ∧
  manifestOf (originalOf "@types/babel__core") = "/node_modules/@babel/core/package.json".
Proof.
  destruct (shim_of_scoped_package "babel" "core" "index.d.ts" eq_refl eq_refl eq_refl)
    as (_ & Ho & Hm & _).
  split; [exact Ho|exact Hm].
Defined.

Lemma resolve_unpinned entries (f : string) :
  (∀ k v, (k, v) ∈ entries → startsWith f ("/node_modules/" +:+ k +:+ "/") = false) →
  resolveRequestFileName entries f = f.
Proof.
  induction entries as [|[k v] entries IH]; intros Hno; [done|].
  cbn [resolveRequestFileName]. rewrite (Hno k v) by by left.
  apply IH. intros k' v' Hin. apply (Hno k' v'). by right.
Qed.

(** X12.  A path that begins with the directory of no pinned package is
    requested as it is: the request file name is the path and the URL is
    [cdn] followed by what comes after [/node_modules/].  In particular a
    pin for [pkg] does not touch a package whose name merely begins with
    [pkg], nor a copy of [pkg] nested in another package. *)
Theorem unpinned_request_url H (rest : string) :
  (∀ k v, (k, v) ∈ versions H →
     startsWith ("/node_modules/" +:+ rest) ("/node_modules/" +:+ k +:+ "/") = false) →
  resolveRequestFileName (versions H) ("/node_modules/" +:+ rest)
    = "/node_modules/" +:+ rest ∧
  requestUrl H ("/node_modules/" +:+ rest) = cdn H +:+ rest.
Proof.
  intros Hno. pose proof (resolve_unpinned _ _ Hno) as Hres. split; [done|].
  unfold requestUrl. rewrite Hres. by rewrite (slice_app "/node_modules/" rest).
Qed.

Lemma unpinned_request_url_witness :
  requestUrl (jsdelivr false) "/node_modules/lodash-es/node_modules/lodash/package.json"
  = "https://cdn.jsdelivr.net/npm/lodash-es/node_modules/lodash/package.json".
Proof.
  refine (proj2 (unpinned_request_url (jsdelivr false)
                   "lodash-es/node_modules/lodash/package.json" _)).
  intros k v Hin. apply list_elem_of_singleton in Hin. injection Hin as -> ->.
  vm_compute. reflexivity.
Defined.

End CdnFacts.

Module HostFacts.
Import Str StrFacts Host.
Local Open Scope Z_scope.

(** ** [getProjectVersion] *)

Lemma record_other models : ∀ (acc : gmap nat Z) i,
  (∀ m, m ∈ models → mid m ≠ i) →
  foldl (λ acc m, <[mid m := version m]> acc) acc models !! i = acc !! i.
Proof.
  induction models as [|m0 models IH]; intros acc i Hno; [done|]. simpl.
  rewrite IH by (intros m Hm; apply Hno; by right).
  apply lookup_insert_ne, Hno. by left.
Qed.

Lemma record_member models : ∀ (acc : gmap nat Z) m,
  NoDup (mid <$> models) → m ∈ models →
  foldl (λ acc m, <[mid m := version m]> acc) acc models !! mid m = Some (version m).
Proof.
  induction models as [|m0 models IH]; intros acc m Hnd Hin; [by apply elem_of_nil in Hin|].
  rewrite fmap_cons in Hnd. apply NoDup_cons in Hnd as [Hnot Hnd]. simpl.
  apply elem_of_cons in Hin as [->|Hin]; [|by apply IH].
  rewrite record_other; [apply lookup_insert_eq|].
  intros m Hm Heq. apply Hnot. rewrite <-Heq. apply list_elem_of_fmap. by exists m.
Qed.

Lemma record_lookup models : ∀ (acc : gmap nat Z) i z,
  foldl (λ acc m, <[mid m := version m]> acc) acc models !! i = Some z →
  acc !! i = Some z ∨ ∃ m, m ∈ models ∧ mid m = i ∧ version m = z.
Proof.
  induction models as [|m0 models IH]; intros acc i z Hi; [by left|]. simpl in Hi.
  apply IH in Hi as [Hi|(m & Hm & ? & ?)].
  - apply lookup_insert_Some in Hi as [[<- <-]|[_ Hi]]; [right|by left].
    exists m0. split; [by left|done].
  - right. exists m. split; [by right|done].
Qed.

Lemma record_dom models : ∀ (acc : gmap nat Z),
  dom (foldl (λ acc m, <[mid m := version m]> acc) acc models)
  = dom acc ∪ list_to_set (mid <$> models).
Proof.
  induction models as [|m0 models IH]; intros acc; simpl.
  - by rewrite (right_id_L ∅ (∪)).
  - rewrite IH, dom_insert_L.
    rewrite (comm_L (∪) {[mid m0]} (dom acc)). by rewrite (assoc_L (∪)).
Qed.

Lemma record_size models :
  NoDup (mid <$> models) → size (record_versions models) = length models.
Proof.
  intros Hnd. unfold record_versions.
  rewrite <-size_dom, record_dom, dom_empty_L, (left_id_L ∅ (∪)).
  rewrite size_list_to_set by done. by rewrite length_fmap.
Qed.

Lemma up_to_date_spec models st :
  NoDup (mid <$> models) →
  up_to_date models st = true ↔ modelVersions st = record_versions models.
Proof.
  intros Hnd. unfold up_to_date. rewrite andb_true_iff, bool_decide_eq_true. split.
  - intros [Hsize Hall]. symmetry. apply map_subseteq_size_eq.
    + apply map_subseteq_spec. intros i z Hi.
      apply record_lookup in Hi as [Hi|(m & Hm & <- & <-)]; [by rewrite lookup_empty in Hi|].
      rewrite forallb_forall in Hall. apply list_elem_of_In, Hall in Hm.
      by apply bool_decide_eq_true in Hm.
    + rewrite record_size by done. lia.
  - intros ->. split; [by apply record_size|].
    apply forallb_forall. intros m Hm. apply list_elem_of_In in Hm.
    apply bool_decide_eq_true. by apply record_member.
Qed.

Lemma getProjectVersion_records models st :
  NoDup (mid <$> models) →
  modelVersions (getProjectVersion models st).1 = record_versions models ∧
  (getProjectVersion models st).2 = pretty (projectVersion (getProjectVersion models st).1).
Proof.
  intros Hnd. unfold getProjectVersion. destruct (up_to_date models st) eqn:Hup; [|done].
  split; [|done]. by apply up_to_date_spec.
Qed.

(** X17.  The project version is a change detector for the mirror models:
    of two consecutive calls of [getProjectVersion] the second returns the
    string of the first, and changes nothing, exactly when the editor has
    the same model objects with the same versions as at the first call; in
    every other case it returns the next number. *)
Theorem project_version_tracks_models models models' st :
  NoDup (mid <$> models) → NoDup (mid <$> models') →
  let st1 := (getProjectVersion models st).1 in
  let v1 := (getProjectVersion models st).2 in
  let st2 := (getProjectVersion models' st1).1 in
  let v2 := (getProjectVersion models' st1).2 in
  (v2 = v1 ↔ record_versions models' = record_versions models) ∧
  (v2 = v1 → st2 = st1) ∧
  (v2 ≠ v1 → projectVersion st2 = projectVersion st1 + 1 ∧
             v2 = pretty (projectVersion st2)).
Proof.
  intros Hnd Hnd' st1 v1 st2 v2.
  destruct (getProjectVersion_records models st Hnd) as [Hrec Hv1].
  fold st1 in Hrec, Hv1. fold v1 in Hv1.
  pose proof (up_to_date_spec models' st1 Hnd') as Hspec. rewrite Hrec in Hspec.
  subst st2 v2. clearbody st1 v1. unfold getProjectVersion.
  destruct (up_to_date models' st1) eqn:Hup; simpl.
  - split_and!; [|done|done]. split; [intros _|done]. symmetry. by apply Hspec.
  - assert (pretty (projectVersion st1 + 1) ≠ v1) as Hne.
    { rewrite Hv1. intros Heq. apply (inj pretty) in Heq. lia. }
    split_and!; [|done|done]. split; [done|].
    intros Heq. symmetry in Heq. apply Hspec in Heq. congruence.
Qed.

Lemma two_models_distinct : NoDup (mid <$> two_models).
Proof.
  apply NoDup_cons. split; [|apply NoDup_singleton].
  intros Hin. by apply list_elem_of_singleton in Hin.
Qed.

Lemma project_version_tracks_models_witness :
  (getProjectVersion two_models (getProjectVersion two_models init).1).2 = "1" ∧
  (getProjectVersion two_models_edited (getProjectVersion two_models init).1).2 = "2".
Proof.
  split.
  - transitivity ((getProjectVersion two_models init).2); [|vm_compute; reflexivity].
    apply (proj1 (project_version_tracks_models two_models two_models init
                    two_models_distinct two_models_distinct)).
    reflexivity.
  - vm_compute. reflexivity.
Defined.

(** ** Declarations seen through the host *)

(** A text in the side table stays. *)
Lemma text_stays h (s : Proxy.state) l s' f t :
  Proxy.dts_inv s → Proxy.step h s l = Some s' →
  Proxy.dtsFiles s !! f = Some (Some t) → Proxy.dtsFiles s' !! f = Some (Some t).
Proof.
  intros Hinv Hstep Hf.
  destruct (Proxy.label_call l) as [i|] eqn:Hl.
  { destruct (ProxyFacts.call_step_dts _ _ _ _ _ Hstep Hl) as (_ & _ & -> & _). done. }
  destruct l as [j|j v|j e|j r|j e|g|g text|g|j v e|j v n e]; simpl in Hstep, Hl; try done.
  - simplify_eq. unfold Proxy.readDtsFile. destruct (_ && _) eqn:Hc; [|done]. simpl.
    apply andb_true_iff in Hc as [Hnew _]. apply negb_true_iff in Hnew.
    apply bool_decide_eq_false in Hnew.
    rewrite lookup_insert_ne; [done|]. intros ->. apply Hnew. by rewrite Hf.
  - case_bool_decide as Hin; simplify_eq. simpl.
    destruct (Proxy.dt_pending _ Hinv g Hin) as [Hg _].
    rewrite lookup_insert_ne; [done|]. intros ->. congruence.
  - case_bool_decide; by simplify_eq.
Qed.

Lemma readDtsFile_step h f st :
  Proxy.step h (px st) (Proxy.LReadDts f) = Some (px (readDtsFile h f st).1).
Proof. done. Qed.

Lemma readDtsFile_registered h f st v :
  Proxy.dtsFiles (px st) !! f = Some v → readDtsFile h f st = (st, v).
Proof.
  intros Hf. unfold readDtsFile, Proxy.readDtsFile.
  rewrite (bool_decide_eq_true_2 (is_Some (Proxy.dtsFiles (px st) !! f)))
    by (rewrite Hf; eauto).
  simpl. rewrite Hf. by destruct st.
Qed.

Lemma readDtsFile_coherent h f st :
  Proxy.dts_inv (px st) → coherent st →
  Proxy.dts_inv (px (readDtsFile h f st).1) ∧ coherent (readDtsFile h f st).1.
Proof.
  intros Hinv Hco. split.
  - eapply ProxyFacts.dts_step; [done|apply readDtsFile_step].
  - intros g sn Hg. eapply text_stays; [done|apply readDtsFile_step|by apply Hco].
Qed.

Lemma host_step h st l st' :
  Proxy.dts_inv (px st) → coherent st → step h st l = Some st' →
  Proxy.dts_inv (px st') ∧ coherent st'.
Proof.
  intros Hinv Hco Hstep.
  destruct l as [models|models f|models f|models f|models f|l]; simpl in Hstep.
  - simplify_eq. unfold getProjectVersion. by destruct (up_to_date models st).
  - simplify_eq. unfold getScriptVersion. destruct (find_model f models); [done|].
    by apply readDtsFile_coherent.
  - simplify_eq. unfold getScriptSnapshot. destruct (find_model f models) as [m|].
    { destruct (modelSnapshot st !! mid m) as [[v sn]|]; [case_bool_decide|]; done. }
    destruct (dtsFileSnapshot st !! f) as [sn|] eqn:Hsn; [done|].
    destruct (readDtsFile_coherent h f st Hinv Hco) as [Hinv1 Hco1].
    destruct (readDtsFile h f st) as [st1 t] eqn:Hread. simpl in *.
    destruct t as [t|]; [|done]. split; [done|]. simpl.
    intros g sn Hg. simpl in Hg.
    apply lookup_insert_Some in Hg as [[<- <-]|[_ Hg]]; [|by apply Hco1].
    unfold readDtsFile in Hread. injection Hread as <- Ht. simpl.
    destruct (Proxy.dtsFiles _ !! f) as [[t'|]|]; simpl in Ht; by simplify_eq.
  - simplify_eq. unfold readFile. destruct (find_model f models); [done|].
    by apply readDtsFile_coherent.
  - simplify_eq. unfold fileExists. destruct (find_model f models); [done|].
    by apply readDtsFile_coherent.
  - destruct (Proxy.step h (px st) l) as [p|] eqn:Hp; [|done]. simpl in Hstep.
    simplify_eq. split; [by eapply ProxyFacts.dts_step|].
    intros g sn Hg. simpl. eapply text_stays; [done|done|by apply Hco].
Qed.

Lemma host_run h ls : ∀ st st',
  Proxy.dts_inv (px st) → coherent st → run h st ls = Some st' →
  Proxy.dts_inv (px st') ∧ coherent st'.
Proof.
  induction ls as [|l ls IH]; intros st st' Hinv Hco Hrun; simpl in Hrun.
  - by simplify_eq.
  - destruct (step h st l) as [st1|] eqn:Hstep; [|done].
    destruct (host_step _ _ _ _ Hinv Hco Hstep) as [Hinv1 Hco1]. by eapply IH.
Qed.

(** X18.  The host never shows the engine a stale declaration: in every
    state the worker and its host can reach, a cached declaration snapshot
    holds the text that [dtsFiles] has for the file; hence, for a file that
    is no mirror model, [getScriptSnapshot], [readFile] and [fileExists]
    agree: the snapshot has the text that [readFile] returns, both are
    [undefined] together, [fileExists] tells which, and all three leave the
    declaration table in the same state. *)
Theorem declaration_snapshot_is_current h ls st :
  run h init ls = Some st →
  (∀ f sn, dtsFileSnapshot st !! f = Some sn →
           Proxy.dtsFiles (px st) !! f = Some (Some (text sn))) ∧
  ∀ models f, find_model f models = None →
    text <$> (getScriptSnapshot h models f st).2 = (readFile h models f st).2 ∧
    (fileExists h models f st).2 = bool_decide (is_Some (readFile h models f st).2) ∧
    px (getScriptSnapshot h models f st).1 = px (readFile h models f st).1 ∧
    (fileExists h models f st).1 = (readFile h models f st).1.
Proof.
  intros Hrun.
  destruct (host_run h ls init st ProxyFacts.dts_init ltac:(done) Hrun) as [Hinv Hco].
  split; [done|]. intros models f Hnone.
  unfold getScriptSnapshot, readFile, fileExists. rewrite Hnone.
  destruct (dtsFileSnapshot st !! f) as [sn|] eqn:Hsn.
  - apply Hco in Hsn. rewrite (readDtsFile_registered h f st _ Hsn). simpl.
    by split_and!.
  - destruct (readDtsFile h f st) as [st1 t] eqn:Hread. simpl. by destruct t.
Qed.

Lemma declaration_snapshot_is_current_witness :
  (readFile true [] "/node_modules/foo/index.d.ts"
     (default init (run true init snapshot_asked_twice))).2 = Some "export {};" ∧
  text <$> (getScriptSnapshot true [] "/node_modules/foo/index.d.ts"
              (default init (run true init snapshot_asked_twice))).2
  = (readFile true [] "/node_modules/foo/index.d.ts"
       (default init (run true init snapshot_asked_twice))).2.
Proof.
  split; [vm_compute; reflexivity|].
  refine (proj1 (proj2 (declaration_snapshot_is_current true snapshot_asked_twice
            (default init (run true init snapshot_asked_twice)) _)
            [] "/node_modules/foo/index.d.ts" _)).
  - vm_compute. reflexivity.
  - reflexivity.
Defined.

(** ** Snapshots of mirror models *)

Lemma substring_whole (s : string) : String.substring 0 (String.length s) s = s.
Proof. induction s as [|c s IH]; [done|]. simpl. by rewrite IH. Qed.

Lemma getText_whole sn : getText sn 0 (getLength sn) = text sn.
Proof.
  unfold getText, getLength, substring, clamp.
  rewrite Z.max_id, Z.min_l by lia. rewrite Z.max_l, Z.min_id by lia.
  rewrite Nat2Z.id. change (Z.to_nat 0) with 0%nat.
  rewrite Nat.min_0_l, Nat.max_0_l, Nat.sub_0_r. apply substring_whole.
Qed.

(** X19.  The snapshot of a mirror model is rebuilt exactly when the
    model's version number differs from the cached one: with the cached
    version the cached snapshot is returned and nothing changes, otherwise
    a snapshot of the model's present text is returned and cached; asking
    again while the version stays returns the same snapshot, whatever
    [getValue] answers by then.  No declaration is requested, and
    [getText(0, getLength())] of a snapshot is its text. *)
Theorem model_snapshot_by_version h models f m st :
  find_model f models = Some m →
  (∀ sn0, modelSnapshot st !! mid m = Some (version m, sn0) →
          getScriptSnapshot h models f st = (st, Some sn0)) ∧
  ((∀ sn0, modelSnapshot st !! mid m ≠ Some (version m, sn0)) →
   (getScriptSnapshot h models f st).2 = Some (mkSnapshot (getValue m))) ∧
  px (getScriptSnapshot h models f st).1 = px st ∧
  dtsFileSnapshot (getScriptSnapshot h models f st).1 = dtsFileSnapshot st ∧
  (∀ models' m', find_model f models' = Some m' → mid m' = mid m →
     version m' = version m →
     getScriptSnapshot h models' f (getScriptSnapshot h models f st).1
     = getScriptSnapshot h models f st) ∧
  (∀ sn, (getScriptSnapshot h models f st).2 = Some sn →
         getText sn 0 (getLength sn) = text sn).
Proof.
  intros Hm. unfold getScriptSnapshot at 1 2 3 4 6 7. rewrite Hm.
  split_and!.
  - intros sn0 ->. by rewrite bool_decide_eq_true_2.
  - intros Hno. destruct (modelSnapshot st !! mid m) as [[v sn]|] eqn:Hc; [|done].
    case_bool_decide; [|done]. subst v. by destruct (Hno sn).
  - destruct (modelSnapshot st !! mid m) as [[v sn]|]; [case_bool_decide|]; done.
  - destruct (modelSnapshot st !! mid m) as [[v sn]|]; [case_bool_decide|]; done.
  - intros models' m' Hm' Hid Hv. unfold getScriptSnapshot at 1. rewrite Hm', Hid, Hv.
    destruct (modelSnapshot st !! mid m) as [[v sn]|] eqn:Hc.
    + case_bool_decide as Hv'.
      * simpl. rewrite Hc. subst v. by rewrite bool_decide_eq_true_2.
      * simpl. rewrite lookup_insert_eq. by rewrite bool_decide_eq_true_2.
    + simpl. rewrite lookup_insert_eq. by rewrite bool_decide_eq_true_2.
  - intros sn _. apply getText_whole.
Qed.

Lemma model_snapshot_by_version_witness :
  getScriptSnapshot true two_models_edited "/a.ts"
    (getScriptSnapshot true two_models "/a.ts" init).1
  = ((getScriptSnapshot true two_models_edited "/a.ts" init).1,
     Some (mkSnapshot "let a = 1")) ∧
  getScriptSnapshot true [mkModel 0 "/a.ts" 1 "let a = 2"] "/a.ts"
    (getScriptSnapshot true two_models "/a.ts" init).1
  = getScriptSnapshot true two_models "/a.ts" init.
Proof.
  split; [vm_compute; reflexivity|].
  refine (proj1 (proj2 (proj2 (proj2 (proj2
    (model_snapshot_by_version true two_models "/a.ts" (mkModel 0 "/a.ts" 1 "let a")
       init _))))) [mkModel 0 "/a.ts" 1 "let a = 2"] (mkModel 0 "/a.ts" 1 "let a = 2")
       _ _ _); reflexivity.
Defined.

(** ** The script version of a declaration *)

Lemma pretty_N_go_length x : ∀ s,
  (String.length s ≤ String.length (pretty_N_go x s))%nat.
Proof.
  induction (N.lt_wf_0 x) as [x _ IH]; intros s.
  destruct (decide (x = 0)%N) as [->|Hx]; [by rewrite pretty_N_go_0|].
  rewrite pretty_N_go_step by lia.
  etrans; [|apply IH; apply N.div_lt; lia]. simpl. lia.
Qed.

Lemma pretty_nat_nonempty (n : nat) : pretty (Z.of_nat n) ≠ "".
Proof.
  destruct (Z.of_nat n) as [|p|p] eqn:Hz; [done| |lia].
  unfold pretty, pretty_Z, pretty, pretty_positive, pretty, pretty_N.
  rewrite decide_False by done. rewrite pretty_N_go_step by lia.
  intros Heq. apply (f_equal String.length) in Heq.
  pose proof (pretty_N_go_length (N.pos p `div` 10)
                (String (pretty_N_char (N.pos p `mod` 10)) "")) as Hle.
  rewrite Heq in Hle. simpl in Hle. lia.
Qed.

(** X20.  How a declaration becomes visible to the engine: while the read
    of a file that is no mirror model is in flight, its script version is
    the empty string; once line 207 has stored the text it is the decimal
    length of the text in UTF-16 code units, which differs from the empty
    string exactly when the text is a non-empty string. *)
Theorem declaration_version_on_arrival h models f st t :
  find_model f models = None → Proxy.dtsFiles (px st) !! f = Some None →
  (getScriptVersion h models f st).2 = "" ∧
  (getScriptVersion h models f (set_px (Proxy.settleDtsFile f t (px st)) st)).2
  = (if truthy t then pretty (Z.of_nat (length16 (ofUndefined t))) else "") ∧
  ((getScriptVersion h models f (set_px (Proxy.settleDtsFile f t (px st)) st)).2
   ≠ (getScriptVersion h models f st).2 ↔ truthy t = true).
Proof.
  intros Hm Hf.
  assert ((getScriptVersion h models f st).2 = "") as Hbefore.
  { unfold getScriptVersion. rewrite Hm, (readDtsFile_registered h f st None Hf). done. }
  assert ((getScriptVersion h models f (set_px (Proxy.settleDtsFile f t (px st)) st)).2
          = (if truthy t then pretty (Z.of_nat (length16 (ofUndefined t))) else ""))
    as Hafter.
  { unfold getScriptVersion. rewrite Hm.
    rewrite (readDtsFile_registered h f _ t); [done|]. simpl. apply lookup_insert_eq. }
  split_and!; [done|done|]. rewrite Hafter, Hbefore.
  destruct (truthy t); [|done]. split; [done|]. intros _. apply pretty_nat_nonempty.
Qed.

Lemma declaration_version_on_arrival_witness :
  (getScriptVersion true [] "/node_modules/foo/index.d.ts"
     (default init (run true init snapshot_asked_twice))).2 = "10".
Proof.
  transitivity
    ((getScriptVersion true [] "/node_modules/foo/index.d.ts"
        (set_px (Proxy.settleDtsFile "/node_modules/foo/index.d.ts" (Some "export {};")
                   (px (default init (run true init
                          [HSnapshot [] "/node_modules/foo/index.d.ts"]))))
                (default init (run true init
                   [HSnapshot [] "/node_modules/foo/index.d.ts"])))).2).
  - vm_compute. reflexivity.
  - rewrite (proj1 (proj2 (declaration_version_on_arrival true []
               "/node_modules/foo/index.d.ts"
               (default init (run true init [HSnapshot [] "/node_modules/foo/index.d.ts"]))
               (Some "export {};") eq_refl ltac:(vm_compute; reflexivity)))).
    vm_compute. reflexivity.
Defined.

(** The length is counted in code units: a text of one character outside
    ASCII (here U+4E2D, three bytes in UTF-8) has version [1]. *)
Example declaration_version_counts_code_units :
  (getScriptVersion true [] "/node_modules/foo/index.d.ts"
     (set_px (Proxy.settleDtsFile "/node_modules/foo/index.d.ts" (Some one_cjk)
                (px (default init (run true init
                       [HSnapshot [] "/node_modules/foo/index.d.ts"]))))
             (default init (run true init
                [HSnapshot [] "/node_modules/foo/index.d.ts"])))).2 = "1".
Proof. vm_compute. reflexivity. Qed.

(** ** The default library *)

Lemma slice_split (n : nat) (s : string) :
  (n ≤ String.length s)%nat → ∃ c, s = c +:+ slice n s.
Proof.
  revert s. induction n as [|n IH]; intros s Hn; [by exists ""|].
  destruct s as [|d s]; [simpl in Hn; lia|]. simpl in Hn.
  destruct (IH s ltac:(lia)) as [c Hc]. exists (String d c). simpl.
  by rewrite sapp_cons, <-Hc.
Qed.

Lemma endsWith_app_r (a b suf : string) :
  endsWith b suf = true → endsWith (a +:+ b) suf = true.
Proof.
  unfold endsWith at 1. intros [Hlen Heq]%andb_true_iff.
  apply Nat.leb_le in Hlen. apply String.eqb_eq in Heq.
  destruct (slice_split (String.length b - String.length suf) b ltac:(lia)) as [c Hc].
  rewrite Heq in Hc. rewrite Hc, <-sapp_assoc. apply endsWith_app.
Qed.

Lemma startsWith_strip (p s q : string) :
  startsWith (p +:+ s) (p +:+ q) = startsWith s q.
Proof.
  induction p as [|c p IH]; [done|].
  rewrite !sapp_cons. cbn [startsWith]. by rewrite Ascii.eqb_refl.
Qed.

(** A key whose directory begins a path under [a/] is [a] itself or lies
    under [a/]. *)
Lemma dir_prefix_cases (a r k : string) :
  free_of "/" a = true →
  startsWith (a +:+ "/" +:+ r) (k +:+ "/") = true →
  k = a ∨ startsWith k (a +:+ "/") = true.
Proof.
  revert k. induction a as [|c a IH]; intros k Hfree Hk.
  - destruct k as [|d k]; [by left|]. right.
    change ("" +:+ "/" +:+ r) with (String "/" r) in Hk.
    change ("" +:+ "/") with (String "/" "").
    rewrite sapp_cons in Hk. cbn [startsWith] in Hk. cbn [startsWith].
    apply andb_true_iff in Hk as [Hd _]. apply Ascii.eqb_eq in Hd as ->.
    by rewrite Ascii.eqb_refl.
  - cbn [free_of] in Hfree. apply andb_true_iff in Hfree as [Hc Hfree].
    apply negb_true_iff in Hc. rewrite sapp_cons in Hk.
    destruct k as [|d k].
    + change ("" +:+ "/") with (String "/" "") in Hk. cbn [startsWith] in Hk.
      apply andb_true_iff in Hk as [Hd _]. apply Ascii.eqb_eq in Hd as <-.
      by rewrite Ascii.eqb_refl in Hc.
    + rewrite sapp_cons in Hk. cbn [startsWith] in Hk.
      apply andb_true_iff in Hk as [Hd Hk]. apply Ascii.eqb_eq in Hd as ->.
      destruct (IH k Hfree Hk) as [->|Hs]; [by left|right].
      rewrite sapp_cons. cbn [startsWith]. by rewrite Ascii.eqb_refl.
Qed.

(** The loop of lines 344-349 stops at the first key whose directory
    begins the path. *)
Lemma resolve_first entries pkg ver rest :
  Cdn.map_get pkg entries = Some ver →
  (∀ k v, (k, v) ∈ entries →
     startsWith ("/node_modules/" +:+ pkg +:+ "/" +:+ rest)
                ("/node_modules/" +:+ k +:+ "/") = true → k = pkg) →
  free_of "$" pkg = true → free_of "$" ver = true →
  Cdn.resolveRequestFileName entries ("/node_modules/" +:+ pkg +:+ "/" +:+ rest)
  = "/node_modules/" +:+ pkg +:+ "@" +:+ ver +:+ "/" +:+ rest.
Proof.
  intros Hget Honly Hp Hv. induction entries as [|[k v] entries IH]; [done|].
  cbn [Cdn.resolveRequestFileName]. cbn [Cdn.map_get] in Hget.
  destruct (startsWith _ ("/node_modules/" +:+ k +:+ "/")) eqn:Hk.
  - assert (k = pkg) as -> by (apply (Honly k v); [by left|done]).
    rewrite String.eqb_refl in Hget. simplify_eq.
    rewrite CdnFacts.dir_app, replace_prefix.
    + by rewrite !sapp_assoc.
    + rewrite !free_of_app, Hp, Hv. done.
  - destruct (String.eqb k pkg) eqn:Heq.
    { apply String.eqb_eq in Heq as ->.
      by rewrite CdnFacts.dir_app, startsWith_app in Hk. }
    apply IH; [done|]. intros k' v' Hin'. apply (Honly k' v'). by right.
Qed.

(** X21.  The default library is a declaration like any other: the name
    the host gives the engine lies in package [typescript], which is not
    one of the names [fetchFile] refuses; the listing is asked for
    [/lib/name]; the file is eligible for reading when [name] ends in
    [.d.ts]; and when the pin map has a version for [typescript] (and no
    key that begins with [typescript/]) the request goes to
    [cdn + typescript@version/lib/name]. *)
Theorem default_lib_is_a_typescript_file (name : string) :
  Cdn.pkgNameOf (getDefaultLibFileName (Some name)) = Some "typescript" ∧
  Cdn.invalid "typescript" = false ∧
  slice (String.length ("/node_modules/" +:+ "typescript"))
        (getDefaultLibFileName (Some name)) = "/lib/" +:+ name ∧
  (endsWith name ".d.ts" = true →
   Cdn.eligible (getDefaultLibFileName (Some name)) = true) ∧
  ∀ H ver, Cdn.map_get "typescript" (Cdn.versions H) = Some ver →
    (∀ k v, (k, v) ∈ Cdn.versions H → startsWith k "typescript/" = false) →
    free_of "$" ver = true →
    Cdn.requestUrl H (getDefaultLibFileName (Some name))
    = Cdn.cdn H +:+ "typescript@" +:+ ver +:+ "/lib/" +:+ name.
Proof.
  split_and!.
  - exact (CdnFacts.pkgNameOf_plain "typescript" ("lib/" +:+ name) eq_refl eq_refl).
  - reflexivity.
  - exact (slice_app "/node_modules/typescript" ("/lib/" +:+ name)).
  - intros Hend. unfold Cdn.eligible.
    change (getDefaultLibFileName (Some name))
      with ("/node_modules/" +:+ ("typescript/lib/" +:+ name)).
    rewrite startsWith_app.
    change ("/node_modules/" +:+ ("typescript/lib/" +:+ name))
      with ("/node_modules/typescript/lib/" +:+ name).
    by rewrite (endsWith_app_r "/node_modules/typescript/lib/" name ".d.ts" Hend).
  - intros H ver Hv Hkeys Hfree. unfold Cdn.requestUrl.
    change (getDefaultLibFileName (Some name))
      with ("/node_modules/" +:+ "typescript" +:+ "/" +:+ "lib/" +:+ name).
    rewrite (resolve_first (Cdn.versions H) "typescript" ver ("lib/" +:+ name));
      [|done| |done|done].
    + by f_equal.
    + intros k v Hin Hk. rewrite startsWith_strip in Hk.
      destruct (dir_prefix_cases "typescript" ("lib/" +:+ name) k eq_refl Hk)
        as [->|Hs]; [done|].
      change (startsWith k "typescript/" = true) in Hs.
      by rewrite (Hkeys k v Hin) in Hs.
Qed.

Lemma default_lib_is_a_typescript_file_witness :
  Cdn.requestUrl two_pins (getDefaultLibFileName (Some "lib.es5.d.ts"))
  = "https://cdn.jsdelivr.net/npm/typescript@5.4.5/lib/lib.es5.d.ts".
Proof.
  refine (proj2 (proj2 (proj2 (proj2 (default_lib_is_a_typescript_file "lib.es5.d.ts"))))
            two_pins "5.4.5" _ _ _).
  - reflexivity.
  - intros k v Hin.
    repeat (apply elem_of_cons in Hin as [Heq|Hin]; [by simplify_eq|]).
    by apply elem_of_nil in Hin.
  - reflexivity.
Defined.

End HostFacts.

Module NetFacts.
Import Str StrFacts Net.




(** The callback on a network that knows [lodash]: the latest version is
    asked for, then its listing. *)
Example lodash_listing :
  jsdelivr_flat lodash_net "lodash" None
  = ([resolveUrl "lodash"; flatUrl "lodash" "4.17.21"],
     Returned [Some "/package.json"; Some "/lodash.js"]).
Proof. vm_compute. reflexivity. Qed.

(** X23.  A listing that cannot be had.  When every request the callback
    makes for a package fails (no response, a status other than 200, a body
    that is not JSON), the callback returns the empty listing; and with the
    listing promise of the package settled that way, no file of the package
    is ever requested from the CDN. *)
Theorem failed_listing_blocks_package net H ls s pkg f :
  Cdn.run H Cdn.init ls = Some s → Cdn.hasFlat H = true →
  Cdn.pkgNameOf f = Some pkg →
  (∀ url, url ∈ (jsdelivr_flat net pkg (Cdn.map_get pkg (Cdn.versions H))).1 →
     fetchJson (net url) = None) →
  (∀ q r, Cdn.promises s !! q = Some (Cdn.OFlat pkg, r) →
     r = Cdn.Pending ∨ r = settled (jsdelivr_flat net pkg (Cdn.map_get pkg (Cdn.versions H))).2) →
  (jsdelivr_flat net pkg (Cdn.map_get pkg (Cdn.versions H))).2 = Returned [] ∧
  length (jsdelivr_flat net pkg (Cdn.map_get pkg (Cdn.versions H))).1 = 1%nat ∧
  ¬ Cdn.fetched s f.
Proof.
  intros Hrun Hflat Hpkg Hnet Hsettled.
  set (v := Cdn.map_get pkg (Cdn.versions H)) in *.
  assert ((jsdelivr_flat net pkg v).2 = Returned [] ∧
          length (jsdelivr_flat net pkg v).1 = 1%nat) as [Hout Hlen].
  { revert Hnet. unfold jsdelivr_flat. destruct (truthy v) eqn:Hv.
    - destruct v as [v0|]; [|done]. simpl. intros Hnet.
      rewrite Hnet; [done|]. set_solver.
    - intros Hnet.
      assert (fetchJson (net (resolveUrl pkg)) = None) as Hr.
      { destruct (version_of (fetchJson (net (resolveUrl pkg)))) eqn:Ht;
          apply Hnet; simpl; set_solver. }
      by rewrite Hr. }
  split_and!; [done|done|].
  intros (q & self & u & r & Hq).
  pose proof (CdnFacts.wfD_run _ _ _ Hrun) as D.
  destruct (Cdn.d_prom _ _ D _ _ _ Hq) as [_ Hl].
  destruct (Hl Hflat) as (pkg' & q' & l & Hpkg' & Hq' & Hst & Hin).
  assert (pkg' = pkg) as -> by congruence.
  destruct (Cdn.d_back _ _ D _ _ Hq') as [r' Hr'].
  unfold Cdn.state_of in Hst. rewrite Hr' in Hst. subst r'.
  destruct (Hsettled _ _ Hr') as [?|Hs]; [done|].
  rewrite Hout in Hs. simpl in Hs. simplify_eq. by apply elem_of_nil in Hin.
Qed.

Lemma failed_listing_blocks_package_witness :
  (jsdelivr_flat (λ _, Status 404 None) "foo" None).2 = Returned [] ∧
  length (jsdelivr_flat (λ _, Status 404 None) "foo" None).1 = 1%nat ∧
  ¬ Cdn.fetched
      (default Cdn.init
         (Cdn.run (Cdn.jsdelivr true) Cdn.init
            [Cdn.LRead "/node_modules/foo/package.json"; Cdn.LListed 1 []; Cdn.LResume 0]))
      "/node_modules/foo/package.json".
Proof.
  apply (failed_listing_blocks_package (λ _, Status 404 None) (Cdn.jsdelivr true)
           [Cdn.LRead "/node_modules/foo/package.json"; Cdn.LListed 1 []; Cdn.LResume 0]
           _ "foo" "/node_modules/foo/package.json").
  - vm_compute. reflexivity.
  - reflexivity.
  - vm_compute. reflexivity.
  - intros url _. reflexivity.
  - intros [|[|[|q]]] r Hq; vm_compute in Hq; simplify_eq; by right.
Defined.

End NetFacts.
